(** * notion-mcp-bridge: the stdio frame parser and the pending-request table

    A shallow embedding of [server.js].  The server bridges HTTP calls
    ([POST /rpc]) to one [mcp-remote] child process that speaks
    LSP-style frames ([Content-Length: N\r\n\r\n<json>]) on its standard
    streams.  The file models

    - the byte-level operations of [tryParseMessages] ([Buffer.indexOf],
      [Buffer.slice], the regular expression
      [/Content-Length:\s*(\d+)/i], [parseInt]),
    - [writeMessage],
    - the event handlers ([stdout 'data'], [stderr 'data'], ['exit'],
      [GET /health], [POST /rpc] with its [auth] middleware and the
      250 s timer of every call),

    as functions on an explicit state: [server.js] keeps its state in
    two module-level variables, [readBuffer] and [pending], and Node
    runs every handler to completion before the next one starts. *)

From Stdlib Require Import NArith ZArith List Lia Bool.
From Stdlib Require Import Strings.Byte.
From stdpp Require Import gmap strings list fin_maps.

Import ListNotations.
Local Open Scope list_scope.

(** ** Bytes *)

Module Bytes.

(** The contents of a Node [Buffer]. *)
Abbreviation buffer := (list byte).

Definition code (b : byte) : N := Byte.to_N b.

(** [Buffer.from(s, 'utf8')] for an ASCII literal [s]. *)
Definition of_string (s : string) : buffer := String.list_byte_of_string s.

Definition CR : byte := "013"%byte.
Definition LF : byte := "010"%byte.

(** [buf.slice(i)] and [buf.slice(i, j)]; like [Buffer.slice], both
    clamp indices that lie past the end. *)
Definition slice_from (i : nat) (buf : buffer) : buffer := drop i buf.
Definition slice (i j : nat) (buf : buffer) : buffer := take (j - i) (drop i buf).

Fixpoint starts_with (needle buf : buffer) : bool :=
  match needle, buf with
  | [], _ => true
  | _ :: _, [] => false
  | n :: needle', b :: buf' => Byte.eqb n b && starts_with needle' buf'
  end.

(** [buf.indexOf(needle)]: the offset of the first occurrence, [None]
    for JavaScript's [-1]. *)
Fixpoint indexOf (needle buf : buffer) : option nat :=
  if starts_with needle buf then Some 0
  else match buf with
       | [] => None
       | _ :: buf' => option_map S (indexOf needle buf')
       end.

End Bytes.
Import Bytes.

(** ** The header of a frame *)

Module Header.

(** The separator [sep = '\r\n\r\n'] of [tryParseMessages]. *)
Definition sep : buffer := [CR; LF; CR; LF].

(** *** The regular expression [/Content-Length:\s*(\d+)/i]

    [tryParseMessages] decodes the header bytes as UTF-8 and runs the
    expression on the resulting string.  The expression only names
    ASCII characters and the white space class, an ASCII byte always
    decodes to its own character, and a byte of a multi-byte or
    invalid sequence never decodes to an ASCII one, so the search is
    done here on the bytes. *)

(** The flag [i]: without the flag [u] only the ASCII letters fold to
    one another. *)
Definition to_lower (b : byte) : N :=
  let c := code b in
  if (65 <=? c)%N && (c <=? 90)%N then (c + 32)%N else c.

Definition same_letter (p b : byte) : bool := (to_lower p =? to_lower b)%N.

Fixpoint starts_with_ci (pat buf : buffer) : bool :=
  match pat, buf with
  | [], _ => true
  | _ :: _, [] => false
  | p :: pat', b :: buf' => same_letter p b && starts_with_ci pat' buf'
  end.

(** The class [\d]. *)
Definition is_digit (b : byte) : bool := (48 <=? code b)%N && (code b <=? 57)%N.

(** The class [\s]: the ASCII members TAB, LF, VT, FF, CR and SP ... *)
Definition is_space1 (b : byte) : bool :=
  let c := code b in
  ((9 <=? c)%N && (c <=? 13)%N) || (c =? 32)%N.

(** ... U+00A0, which UTF-8 writes as C2 A0 ... *)
Definition is_space2 (b1 b2 : byte) : bool :=
  (code b1 =? 194)%N && (code b2 =? 160)%N.

(** ... and U+1680 (E1 9A 80), U+2000 to U+200A, U+2028, U+2029 and
    U+202F (E2 80 80 to 8A, A8, A9, AF), U+205F (E2 81 9F), U+3000
    (E3 80 80) and U+FEFF (EF BB BF). *)
Definition is_space3 (b1 b2 b3 : byte) : bool :=
  let c1 := code b1 in let c2 := code b2 in let c3 := code b3 in
  ((c1 =? 225) && (c2 =? 154) && (c3 =? 128))%N
  || ((c1 =? 226) && (c2 =? 128)
      && (((128 <=? c3) && (c3 <=? 138)) || (c3 =? 168) || (c3 =? 169) || (c3 =? 175)))%N
  || ((c1 =? 226) && (c2 =? 129) && (c3 =? 159))%N
  || ((c1 =? 227) && (c2 =? 128) && (c3 =? 128))%N
  || ((c1 =? 239) && (c2 =? 187) && (c3 =? 191))%N.

(** [\s*] is greedy, and no white space character is a digit, so the
    expression can only succeed after the longest run of white space. *)
Fixpoint skip_spaces (buf : buffer) : buffer :=
  match buf with
  | [] => []
  | b1 :: t1 =>
      if is_space1 b1 then skip_spaces t1
      else match t1 with
           | [] => buf
           | b2 :: t2 =>
               if is_space2 b1 b2 then skip_spaces t2
               else match t2 with
                    | [] => buf
                    | b3 :: t3 => if is_space3 b1 b2 b3 then skip_spaces t3 else buf
                    end
           end
  end.

(** [(\d+)], greedy: the longest run of digits. *)
Fixpoint take_digits (buf : buffer) : buffer :=
  match buf with
  | b :: buf' => if is_digit b then b :: take_digits buf' else []
  | [] => []
  end.

Definition name : buffer := of_string "Content-Length:".

(** The expression tried at the start of [buf]: the capture group. *)
Definition match_here (buf : buffer) : option buffer :=
  if starts_with_ci name buf then
    match take_digits (skip_spaces (drop (length name) buf)) with
    | [] => None
    | digits => Some digits
    end
  else None.

(** [header.match(...)]: the leftmost position at which the
    expression succeeds; the result is [match[1]]. *)
Fixpoint regex_match (buf : buffer) : option buffer :=
  match match_here buf with
  | Some digits => Some digits
  | None => match buf with
            | [] => None
            | _ :: buf' => regex_match buf'
            end
  end.

(** [parseInt(digits, 10)] on a string of decimal digits.

    JavaScript computes in doubles, so a literal above 2^53 is
    rounded; the only use of the result is the comparison
    [readBuffer.length < start + len], and a buffer is shorter than
    2^53 bytes, so the rounded and the exact value decide it alike.
    What is stated below about the value read is stated for lengths up
    to 2^53. *)
Definition digit_value (b : byte) : N := (code b - 48)%N.

Definition parseInt (digits : buffer) : N :=
  fold_left (fun acc b => (10 * acc + digit_value b)%N) digits 0%N.

(** Lines 52 to 57 of [server.js]: [None] when [match] is [null]. *)
Definition content_length (header : buffer) : option N :=
  option_map parseInt (regex_match header).

(** *** Writing a length

    The template literal of [writeMessage] prints [json.length], a
    non-negative integer, in decimal. *)
Definition digit_byte (d : N) : byte :=
  match Byte.of_N (48 + d) with Some b => b | None => "0"%byte end.

Fixpoint decimal_fuel (fuel : nat) (n : N) : buffer :=
  match fuel with
  | O => []
  | S fuel' =>
      if (n <? 10)%N then [digit_byte n]
      else decimal_fuel fuel' (n / 10) ++ [digit_byte (n mod 10)]
  end.

Definition decimal (n : N) : buffer := decimal_fuel (S (N.to_nat (N.log2 n))) n.

End Header.
Import Header.

(** ** JavaScript values and exceptions *)

Module Js.

(** A value as [JSON.parse] builds it.  The numbers are those of the
    run time (a parameter below).  An object lists its own properties
    in order; the names of one object are distinct. *)
#[local] Unset Elimination Schemes.
Inductive json (number : Type) : Type :=
| Null
| Bool (b : bool)
| Num (n : number)
| Str (s : string)
| Arr (items : list (json number))
| Obj (props : list (string * json number)).
#[local] Set Elimination Schemes.

Arguments Null {number}.
Arguments Bool {number} b.
Arguments Num {number} n.
Arguments Str {number} s.
Arguments Arr {number} items.
Arguments Obj {number} props.

(** The exceptions the handlers can meet. *)
Inductive error : Type := SyntaxError | TypeError.

(** The outcome of evaluating an expression or a block. *)
Inductive completion (A : Type) : Type :=
| Normal (a : A)
| Throw (e : error).

Arguments Normal {A} a.
Arguments Throw {A} e.

#[export] Instance completion_ret : MRet completion := fun A a => Normal a.
#[export] Instance completion_bind : MBind completion := fun A B k c =>
  match c with
  | Normal a => k a
  | Throw e => Throw e
  end.

Fixpoint own_property {number} (key : string) (props : list (string * json number))
  : option (json number) :=
  match props with
  | [] => None
  | (k, v) :: props' => if String.eqb k key then Some v else own_property key props'
  end.

(** [v.key] for a [key] that no prototype defines and that is neither
    an index nor [length] ([server.js] reads [id] and [jsonrpc]):
    [None] is [undefined], and reading a property of [null] throws. *)
Definition prop {number} (key : string) (v : json number) : completion (option (json number)) :=
  match v with
  | Null => Throw TypeError
  | Obj props => Normal (own_property key props)
  | _ => Normal None
  end.

Section ToString.
Context {number : Type} (Number_toString : number -> string).

(** [String(v)].  An array is joined with commas, a [null] element
    printing as the empty string.  An object of [JSON.parse] that
    has no own [toString] prints through [Object.prototype]; with an
    own [toString], which is never callable, the conversion falls
    back on [valueOf], which is not callable either or returns the
    object itself, and throws. *)
Fixpoint to_string (v : json number) : completion string :=
  match v with
  | Null => Normal "null"%string
  | Bool true => Normal "true"%string
  | Bool false => Normal "false"%string
  | Num n => Normal (Number_toString n)
  | Str s => Normal s
  | Arr items =>
      let fix join (l : list (json number)) : completion string :=
        match l with
        | [] => Normal EmptyString
        | x :: l' =>
            s ← match x with Null => Normal EmptyString | _ => to_string x end;
            match l' with
            | [] => Normal s
            | _ :: _ => t ← join l'; Normal (s +:+ "," +:+ t)
            end
        end in
      join items
  | Obj props =>
      match own_property "toString" props with
      | Some _ => Throw TypeError
      | None => Normal "[object Object]"%string
      end
  end.

End ToString.

End Js.
Import Js.

(** ** The run time and the configuration *)

(** What [server.js] takes from Node: the numbers with their printing,
    and the JSON codec.  [JSON_stringify v] stands for
    [Buffer.from(JSON.stringify(v), 'utf8')], and [JSON_parse buf] for
    [JSON.parse(buf.toString('utf8'))], [None] when it throws its
    [SyntaxError]. *)
Class Runtime : Type := {
  number : Type;
  Number_toString : number -> string;
  JSON_stringify : json number -> buffer;
  JSON_parse : buffer -> option (json number);
}.

Abbreviation value := (json number).

(** ** The bridge *)

Section Bridge.

Context `{Runtime}.

(** [process.env.BRIDGE_TOKEN], checked to be present at start-up. *)
Variable BRIDGE_TOKEN : string.

(** *** State

    Every [POST /rpc] is numbered in order of arrival, and the number
    names the request, its response object [res] and, when the
    handler gets that far, its promise [p] with the closures
    [resolve] and [reject]. *)

(** A callback armed by [setTimeout] in [POST /rpc]: the [idKey] it
    closes over, the request whose [reject] it calls, and the time at
    which it fires. *)
Record timer : Type := {
  due : N;
  timer_key : string;
  timer_request : nat;
}.

(** How a promise was settled. *)
Inductive outcome : Type :=
| Fulfilled (response : value)
| Rejected (message : string).

Record bridge : Type := {
  readBuffer : buffer;             (* let readBuffer *)
  pending : gmap string nat;       (* const pending = new Map(): whose {resolve, reject} *)
  settled : gset nat;              (* the promises already settled *)
  jobs : list (nat * outcome);     (* continuations of [await p] not yet run *)
  timers : list timer;             (* armed timers, oldest first *)
  clock : N;                       (* milliseconds since start-up *)
  requests : nat;                  (* [POST /rpc] requests received *)
  exited : bool;                   (* [process.exit] was called *)
}.

Definition init : bridge :=
  {| readBuffer := []; pending := ∅; settled := ∅; jobs := []; timers := [];
     clock := 0; requests := 0; exited := false |}.

Definition set_readBuffer (buf : buffer) (st : bridge) : bridge :=
  {| readBuffer := buf; pending := pending st; settled := settled st; jobs := jobs st;
     timers := timers st; clock := clock st; requests := requests st; exited := exited st |}.

Definition set_pending (p : gmap string nat) (st : bridge) : bridge :=
  {| readBuffer := readBuffer st; pending := p; settled := settled st; jobs := jobs st;
     timers := timers st; clock := clock st; requests := requests st; exited := exited st |}.

Definition set_timers (ts : list timer) (st : bridge) : bridge :=
  {| readBuffer := readBuffer st; pending := pending st; settled := settled st; jobs := jobs st;
     timers := ts; clock := clock st; requests := requests st; exited := exited st |}.

Definition set_clock (t : N) (st : bridge) : bridge :=
  {| readBuffer := readBuffer st; pending := pending st; settled := settled st; jobs := jobs st;
     timers := timers st; clock := t; requests := requests st; exited := exited st |}.

Definition set_jobs (js : list (nat * outcome)) (st : bridge) : bridge :=
  {| readBuffer := readBuffer st; pending := pending st; settled := settled st; jobs := js;
     timers := timers st; clock := clock st; requests := requests st; exited := exited st |}.

Definition next_request (st : bridge) : bridge :=
  {| readBuffer := readBuffer st; pending := pending st; settled := settled st; jobs := jobs st;
     timers := timers st; clock := clock st; requests := S (requests st); exited := exited st |}.

Definition set_exited (st : bridge) : bridge :=
  {| readBuffer := readBuffer st; pending := pending st; settled := settled st; jobs := jobs st;
     timers := timers st; clock := clock st; requests := requests st; exited := true |}.

(** *** What the bridge does to the outside, in order *)
Inductive effect : Type :=
| Resolve (request : nat) (msg : value)        (* resolve(msg) *)
| Reject (request : nat) (message : string)    (* reject(new Error(message)) *)
| Respond (request : nat) (status : nat) (body : value)  (* res.status(status).json(body) *)
| Healthy                                      (* res.json({ok: true}) of [GET /health] *)
| StdinWrite (data : buffer)                   (* mcp.stdin.write *)
| StderrWrite (data : buffer)                  (* process.stderr.write *)
| LogExtra (msg : value)                       (* console.log('MCP notification/extra:', msg) *)
| LogParseError (e : error)                    (* console.error('JSON parse error from mcp-remote:', e) *)
| LogExit (code : option Z)                        (* console.error('mcp-remote exited with code', code) *)
| ProcessExit (status : Z)                     (* process.exit(status) *)
| Unhandled (e : error).                       (* an async handler threw outside its [try] *)

(** *** Promises

    Calling [resolve] or [reject] settles the promise the first time
    only; the continuation of [await p] is then queued and runs when
    the current handler has returned. *)
Definition settle (r : nat) (o : outcome) (st : bridge) : bridge :=
  if decide (r ∈ settled st) then st
  else {| readBuffer := readBuffer st; pending := pending st;
          settled := {[r]} ∪ settled st; jobs := jobs st ++ [(r, o)];
          timers := timers st; clock := clock st; requests := requests st;
          exited := exited st |}.

Definition error_body (message : string) : value := Obj [("error"%string, Str message)].

(** The text [jsonrpc must be "2.0"] of line 125. *)
Definition jsonrpc_message : string :=
  let quote := String (Ascii.ascii_of_nat 34) EmptyString in
  "jsonrpc must be " +:+ quote +:+ "2.0" +:+ quote.

(** Lines 148 to 152: [res.json(response)], or the [catch] with
    status 504. *)
Definition continuation (job : nat * outcome) : effect :=
  match job with
  | (r, Fulfilled response) => Respond r 200 response
  | (r, Rejected message) =>
      Respond r 504 (Obj [("error"%string, Str "timeout or bridge error");
                          ("detail"%string, Str message)])
  end.

Definition run_jobs (st : bridge) : list effect * bridge :=
  (map continuation (jobs st), set_jobs [] st).

(** A handler, followed by the continuations it has queued. *)
Definition then_jobs (r : list effect * bridge) : list effect * bridge :=
  let (out, st') := run_jobs r.2 in (r.1 ++ out, st').

(** *** [writeMessage] *)

Definition frame_header (n : nat) : buffer :=
  of_string "Content-Length: " ++ decimal (N.of_nat n) ++ sep.

(** The two writes of [writeMessage]. *)
Definition writeMessage (obj : value) : list effect :=
  let json := JSON_stringify obj in
  [StdinWrite (frame_header (length json)); StdinWrite json].

(** The bytes [writeMessage] puts on the pipe. *)
Definition encode (obj : value) : buffer :=
  frame_header (length (JSON_stringify obj)) ++ JSON_stringify obj.

(** *** [tryParseMessages] *)

(** The body of the [try] block, lines 65 to 72. *)
Definition on_message (jsonBuf : buffer) (st : bridge) : completion (list effect * bridge) :=
  msg ← match JSON_parse jsonBuf with Some v => Normal v | None => Throw SyntaxError end;
  id ← prop "id" msg;
  match id with
  | None | Some Null => Normal ([LogExtra msg], st)
  | Some i =>
      key ← to_string Number_toString i;
      match pending st !! key with
      | Some r =>
          Normal ([Resolve r msg],
                  settle r (Fulfilled msg) (set_pending (delete key (pending st)) st))
      | None => Normal ([LogExtra msg], st)
      end
  end.

(** The [try] with its [catch], lines 64 to 75. *)
Definition try_message (jsonBuf : buffer) (st : bridge) : list effect * bridge :=
  match on_message jsonBuf st with
  | Normal r => r
  | Throw e => ([LogParseError e], st)
  end.

(** The [while (true)] loop.  Every turn that does not [break] drops
    at least the four bytes of a separator from [readBuffer], so
    [fuel] turns are enough as soon as [fuel] exceeds its length
    ([tryParseMessages_unfold] below). *)
Fixpoint parse_loop (fuel : nat) (st : bridge) : list effect * bridge :=
  match fuel with
  | O => ([], st)
  | S fuel' =>
      match indexOf sep (readBuffer st) with
      | None => ([], st)
      | Some idx =>
          let header := slice 0 idx (readBuffer st) in
          match content_length header with
          | None =>
              parse_loop fuel' (set_readBuffer (slice_from (idx + length sep) (readBuffer st)) st)
          | Some len =>
              let start := idx + length sep in
              if (N.of_nat (length (readBuffer st)) <? N.of_nat start + len)%N then ([], st)
              else
                let jsonBuf := slice start (start + N.to_nat len) (readBuffer st) in
                let st1 := set_readBuffer (slice_from (start + N.to_nat len) (readBuffer st)) st in
                let (out, st2) := try_message jsonBuf st1 in
                let (out', st3) := parse_loop fuel' st2 in
                (out ++ out', st3)
          end
      end
  end.

Definition tryParseMessages (st : bridge) : list effect * bridge :=
  parse_loop (S (length (readBuffer st))) st.

(** *** The handlers *)

(** [mcp.stdout.on('data', ...)]. *)
Definition on_stdout_data (chunk : buffer) (st : bridge) : list effect * bridge :=
  then_jobs (tryParseMessages (set_readBuffer (readBuffer st ++ chunk) st)).

(** [mcp.stderr.on('data', ...)]. *)
Definition on_stderr_data (chunk : buffer) (st : bridge) : list effect * bridge :=
  ([StderrWrite chunk], st).

(** [mcp.on('exit', ...)]; [code] is what the child exited with,
    [None] for the [null] of a child killed by a signal. *)
Definition on_exit (code : option Z) (st : bridge) : list effect * bridge :=
  ([LogExit code; ProcessExit 1], set_exited st).

(** The callback given to [setTimeout], lines 138 to 143. *)
Definition on_timeout (t : timer) (st : bridge) : list effect * bridge :=
  match pending st !! timer_key t with
  | Some _ =>
      ([Reject (timer_request t) "timeout"],
       settle (timer_request t) (Rejected "timeout")
              (set_pending (delete (timer_key t) (pending st)) st))
  | None => ([], st)
  end.

(** The middleware [auth]: [None] is [next()]. *)
Definition auth (authorization : option string) : option (nat * value) :=
  let a := default EmptyString authorization in
  if negb (String.prefix "Bearer " a) then Some (401, error_body "missing bearer token")
  else
    let token := String.substring 7 (String.length a - 7) a in
    if negb (String.eqb token BRIDGE_TOKEN) then Some (403, error_body "forbidden")
    else None.

(** [!payload || typeof payload !== 'object']: [undefined] and [null]
    are falsy, and a boolean, a number or a string has another
    [typeof], whether truthy or not. *)
Definition not_an_object (payload : option value) : bool :=
  match payload with
  | Some (Arr _) | Some (Obj _) => false
  | _ => true
  end.

(** The time a call may wait, the constant of line 143. *)
Definition TIMEOUT_MS : N := 250000.

(** The handler of [POST /rpc] after [auth], for the request numbered
    [r]; [body] is [req.body], [None] for [undefined]. *)
Definition rpc (r : nat) (body : option value) (st : bridge)
  : completion (list effect * bridge) :=
  if not_an_object body then Normal ([Respond r 400 (error_body "invalid JSON")], st)
  else
    match body with
    | None => Normal ([Respond r 400 (error_body "invalid JSON")], st)
    | Some payload =>
        jsonrpc ← prop "jsonrpc" payload;
        match jsonrpc with
        | Some (Str "2.0") =>
            id ← prop "id" payload;
            match id with
            | None | Some Null => Normal ([Respond r 400 (error_body "missing id")], st)
            | Some i =>
                idKey ← to_string Number_toString i;
                match pending st !! idKey with
                | Some _ => Normal ([Respond r 409 (error_body "duplicate id in flight")], st)
                | None =>
                    let st1 := set_pending (<[idKey := r]> (pending st)) st in
                    let st2 := set_timers (timers st1 ++
                                 [{| due := clock st + TIMEOUT_MS; timer_key := idKey;
                                     timer_request := r |}]) st1 in
                    Normal (writeMessage payload, st2)
                end
            end
        | _ => Normal ([Respond r 400 (error_body jsonrpc_message)], st)
        end
    end.

(** *** The event loop

    What can happen to the process.  Node runs one handler at a time,
    each to completion, then the continuations it has queued. *)
Inductive input : Type :=
| StdoutData (chunk : buffer)
| StderrData (chunk : buffer)
| ChildExit (code : option Z)
| GetHealth
| PostRpc (authorization : option string) (body : option value)
| Elapse (ms : N).

(** [app.post('/rpc', auth, async ...)].  An exception that leaves the
    async handler rejects the promise nobody awaits; nothing has been
    changed by then. *)
Definition on_post_rpc (authorization : option string) (body : option value) (st : bridge)
  : list effect * bridge :=
  let r := requests st in
  let st := next_request st in
  match auth authorization with
  | Some (status, b) => ([Respond r status b], st)
  | None =>
      match rpc r body st with
      | Normal res => res
      | Throw e => ([Unhandled e], st)
      end
  end.

(** One timer fires. *)
Definition fire (acc : list effect * bridge) (t : timer) : list effect * bridge :=
  let (out, st') := then_jobs (on_timeout t acc.2) in (acc.1 ++ out, st').

(** [ms] milliseconds pass: the timers that are due fire, oldest
    first (all have the same delay, so that is the order of their
    dates as well). *)
Definition on_elapse (ms : N) (st : bridge) : list effect * bridge :=
  let now := (clock st + ms)%N in
  let (ready, later) := List.partition (fun t => (due t <=? now)%N) (timers st) in
  fold_left fire ready ([], set_timers later (set_clock now st)).

(** After [process.exit] nothing runs any more. *)
Definition step (i : input) (st : bridge) : list effect * bridge :=
  if exited st then ([], st)
  else match i with
       | StdoutData chunk => on_stdout_data chunk st
       | StderrData chunk => on_stderr_data chunk st
       | ChildExit code => on_exit code st
       | GetHealth => ([Healthy], st)
       | PostRpc authorization body => then_jobs (on_post_rpc authorization body st)
       | Elapse ms => on_elapse ms st
       end.

Fixpoint run (inputs : list input) (st : bridge) : list effect * bridge :=
  match inputs with
  | [] => ([], st)
  | i :: inputs' =>
      let (out, st1) := step i st in
      let (out', st2) := run inputs' st1 in
      (out ++ out', st2)
  end.

(** *** Reading a trace *)

(** The message an effect hands on: to a caller, or to the log of
    unsolicited messages. *)
Definition delivered (e : effect) : option value :=
  match e with
  | Resolve _ msg | LogExtra msg => Some msg
  | _ => None
  end.

(** The responses sent to request [r]. *)
Definition responses_to (r : nat) (out : list effect) : list (nat * value) :=
  omap (fun e => match e with
                 | Respond r' status body => if decide (r' = r) then Some (status, body) else None
                 | _ => None
                 end) out.

End Bridge.

(** ** A run time to compute with

    An instance of [Runtime] on which the handlers can be evaluated:
    the integers for numbers, printed in decimal, and the part of JSON
    the examples need (no fractions or exponents in numbers, no
    [\u] escape in strings).  The theorems below hold for every run
    time; this one only serves the examples. *)

Module Reference.

Definition quote : byte := "034"%byte.
Definition backslash : byte := "092"%byte.

Definition print_Z (z : Z) : buffer :=
  (if (z <? 0)%Z then of_string "-" else []) ++ decimal (Z.abs_N z).

Definition print_string (s : string) : buffer :=
  [quote]
    ++ flat_map (fun b => if (code b =? 34)%N || (code b =? 92)%N then [backslash; b] else [b])
                (String.list_byte_of_string s)
    ++ [quote].

(** [JSON.stringify], without indentation. *)
Fixpoint stringify (v : json Z) : buffer :=
  match v with
  | Null => of_string "null"
  | Bool true => of_string "true"
  | Bool false => of_string "false"
  | Num z => print_Z z
  | Str s => print_string s
  | Arr items =>
      let fix go (l : list (json Z)) : buffer :=
        match l with
        | [] => []
        | [x] => stringify x
        | x :: l' => stringify x ++ of_string "," ++ go l'
        end in
      of_string "[" ++ go items ++ of_string "]"
  | Obj props =>
      let fix go (l : list (string * json Z)) : buffer :=
        match l with
        | [] => []
        | [(k, x)] => print_string k ++ of_string ":" ++ stringify x
        | (k, x) :: l' => print_string k ++ of_string ":" ++ stringify x ++ of_string "," ++ go l'
        end in
      of_string "{" ++ go props ++ of_string "}"
  end.

Definition is_blank (b : byte) : bool :=
  (code b =? 32)%N || (code b =? 9)%N || (code b =? 10)%N || (code b =? 13)%N.

Fixpoint skip_blanks (buf : buffer) : buffer :=
  match buf with
  | b :: buf' => if is_blank b then skip_blanks buf' else buf
  | [] => []
  end.

(** The rest of [buf] after the literal [lit]. *)
Definition expect (lit : string) (buf : buffer) : option buffer :=
  if starts_with (of_string lit) buf then Some (drop (String.length lit) buf) else None.

(** The characters of a string up to its closing quote. *)
Fixpoint parse_chars (buf : buffer) : option (buffer * buffer) :=
  match buf with
  | [] => None
  | b :: buf' =>
      if (code b =? 34)%N then Some ([], buf')
      else if (code b <? 32)%N then None
      else if (code b =? 92)%N then
        match buf' with
        | e :: buf'' =>
            let unescaped :=
              if (code e =? 34)%N || (code e =? 92)%N || (code e =? 47)%N then Some e
              else if (code e =? 110)%N then Some LF
              else if (code e =? 114)%N then Some CR
              else if (code e =? 116)%N then Some "009"%byte
              else None in
            match unescaped, parse_chars buf'' with
            | Some c, Some (cs, rest) => Some (c :: cs, rest)
            | _, _ => None
            end
        | [] => None
        end
      else match parse_chars buf' with
           | Some (cs, rest) => Some (b :: cs, rest)
           | None => None
           end
  end.

Definition parse_number (buf : buffer) : option (Z * buffer) :=
  let (negative, buf') :=
    match buf with
    | b :: t => if (code b =? 45)%N then (true, t) else (false, buf)
    | [] => (false, buf)
    end in
  match take_digits buf' with
  | [] => None
  | d :: ds =>
      if (code d =? 48)%N && negb (length ds =? 0) then None
      else
        let n := Z.of_N (parseInt (d :: ds)) in
        Some (if negative then (- n)%Z else n, drop (length (d :: ds)) buf')
  end.

Fixpoint parse_value (fuel : nat) (buf : buffer) : option (json Z * buffer) :=
  match fuel with
  | O => None
  | S fuel' =>
      match skip_blanks buf with
      | [] => None
      | b :: rest =>
          if (code b =? 110)%N then rest' ← expect "null" (b :: rest); Some (Null, rest')
          else if (code b =? 116)%N then rest' ← expect "true" (b :: rest); Some (Bool true, rest')
          else if (code b =? 102)%N then rest' ← expect "false" (b :: rest); Some (Bool false, rest')
          else if (code b =? 34)%N then
            '(cs, rest') ← parse_chars rest; Some (Str (String.string_of_list_byte cs), rest')
          else if (code b =? 91)%N then
            match skip_blanks rest with
            | c :: rest' =>
                if (code c =? 93)%N then Some (Arr [], rest')
                else '(items, rest'') ← parse_items fuel' (c :: rest'); Some (Arr items, rest'')
            | [] => None
            end
          else if (code b =? 123)%N then
            match skip_blanks rest with
            | c :: rest' =>
                if (code c =? 125)%N then Some (Obj [], rest')
                else '(props, rest'') ← parse_members fuel' (c :: rest'); Some (Obj props, rest'')
            | [] => None
            end
          else '(z, rest') ← parse_number (b :: rest); Some (Num z, rest')
      end
  end
with parse_items (fuel : nat) (buf : buffer) : option (list (json Z) * buffer) :=
  match fuel with
  | O => None
  | S fuel' =>
      '(x, rest) ← parse_value fuel' buf;
      match skip_blanks rest with
      | c :: rest' =>
          if (code c =? 93)%N then Some ([x], rest')
          else if (code c =? 44)%N then
            '(xs, rest'') ← parse_items fuel' rest'; Some (x :: xs, rest'')
          else None
      | [] => None
      end
  end
with parse_members (fuel : nat) (buf : buffer) : option (list (string * json Z) * buffer) :=
  match fuel with
  | O => None
  | S fuel' =>
      match skip_blanks buf with
      | q :: rest0 =>
          if (code q =? 34)%N then
            '(ks, rest1) ← parse_chars rest0;
            match skip_blanks rest1 with
            | colon :: rest2 =>
                if (code colon =? 58)%N then
                  '(x, rest) ← parse_value fuel' rest2;
                  let k := String.string_of_list_byte ks in
                  match skip_blanks rest with
                  | c :: rest' =>
                      if (code c =? 125)%N then Some ([(k, x)], rest')
                      else if (code c =? 44)%N then
                        '(xs, rest'') ← parse_members fuel' rest'; Some ((k, x) :: xs, rest'')
                      else None
                  | [] => None
                  end
                else None
            | [] => None
            end
          else None
      | [] => None
      end
  end.

(** [JSON.parse]: one value, and nothing but white space after it. *)
Definition parse (buf : buffer) : option (json Z) :=
  match parse_value (S (length buf)) buf with
  | Some (v, rest) => match skip_blanks rest with [] => Some v | _ :: _ => None end
  | None => None
  end.

#[export] Instance runtime : Runtime := {|
  number := Z;
  Number_toString := fun z => String.string_of_list_byte (print_Z z);
  JSON_stringify := stringify;
  JSON_parse := parse;
|}.

End Reference.

(** ** Vocabulary of the statements *)

(** No carriage return among the bytes. *)
Definition no_CR (buf : buffer) : Prop := Forall (fun b => b <> CR) buf.

(** What [writeMessage] writes before the separator. *)
Definition header_text (n : N) : buffer := of_string "Content-Length: " ++ decimal n.

(** A run of white space, as [\s*] sees it in the bytes of UTF-8. *)
Inductive white : buffer -> Prop :=
| white_nil : white []
| white_1 b rest : is_space1 b = true -> white rest -> white (b :: rest)
| white_2 b1 b2 rest : is_space2 b1 b2 = true -> white rest -> white (b1 :: b2 :: rest)
| white_3 b1 b2 b3 rest :
    is_space3 b1 b2 b3 = true -> white rest -> white (b1 :: b2 :: b3 :: rest).

(** What follows a run of digits: the end, or a byte that is no digit. *)
Definition no_digit_ahead (rest : buffer) : Prop :=
  match rest with
  | [] => True
  | b :: _ => is_digit b = false
  end.

(** The integers below [exact_limit] are JavaScript numbers one by
    one; from there on a number stands for several integers. *)
Definition exact_limit : N := 2 ^ 53.

Section Vocabulary.

Context `{Runtime}.

(** The codec of the run time gives [v] back. *)
Definition roundtrips (v : value) : Prop := JSON_parse (JSON_stringify v) = Some v.

(** The [try] block of [tryParseMessages] runs through on [msg]:
    [msg.id] can be read, and [String(msg.id)] can be taken when the
    guard [msg.id != null] lets it be evaluated. *)
Definition dispatchable (msg : value) : bool :=
  match prop "id" msg with
  | Throw _ => false
  | Normal None | Normal (Some Null) => true
  | Normal (Some i) =>
      match to_string Number_toString i with
      | Normal _ => true
      | Throw _ => false
      end
  end.

(** A frame around arbitrary payload bytes. *)
Definition frame (payload : buffer) : buffer := frame_header (length payload) ++ payload.

(** A request body that passes the checks of lines 121 to 129, with
    its [id]. *)
Definition well_formed_call (payload i : value) : Prop :=
  not_an_object (Some payload) = false
  /\ prop "jsonrpc" payload = Normal (Some (Str "2.0"))
  /\ prop "id" payload = Normal (Some i)
  /\ i <> Null.

(** The state after a registration under [idKey] for request [r]. *)
Definition registered (idKey : string) (r : nat) (st : bridge) : bridge :=
  set_timers (timers st ++ [{| due := clock st + TIMEOUT_MS; timer_key := idKey;
                               timer_request := r |}])
             (set_pending (<[idKey := r]> (pending st)) st).

(** An [id] that is a number or a string. *)
Definition number_or_string (id : value) : Prop :=
  match id with
  | Num _ | Str _ => True
  | _ => False
  end.

(** The header [Authorization: Bearer <token>]. *)
Definition bearer (token : string) : option string := Some ("Bearer " +:+ token).

Definition timeout_body : value :=
  Obj [("error"%string, Str "timeout or bridge error"); ("detail"%string, Str "timeout")].

(** The continuations queued for request [r]. *)
Definition count_jobs (r : nat) (js : list (nat * outcome)) : nat :=
  length (filter (fun j => j.1 = r) js).

(** The closures of request [r] are held by [pending] or by a timer,
    armed or, in [firing], taken off [timers] to run now. *)
Definition referenced (firing : list timer) (st : bridge) (r : nat) : Prop :=
  (exists key, pending st !! key = Some r)
  \/ (exists t, In t (firing ++ timers st) /\ timer_request t = r).

(** What the continuation of [await p] answers. *)
Definition promise_response (status : nat) (body : value) : Prop :=
  status = 200 \/ (status = 504 /\ body = timeout_body).

(** What the handler answers at once. *)
Definition immediate_status (status : nat) : Prop :=
  status = 400 \/ status = 401 \/ status = 403 \/ status = 409.

Definition promise_outcome (o : outcome) : Prop :=
  (exists msg, o = Fulfilled msg) \/ o = Rejected "timeout".

(** What links the state to the effects [out] produced so far.
    Every request that is referenced, settled or answered has been
    received.  A queued continuation belongs to a settled promise,
    and a settled promise has exactly one continuation, queued or
    already run.  An answer is that of a settled promise, or the only
    answer of a request that is not and will not be referenced. *)
Record consistent (firing : list timer) (st : bridge) (out : list effect) : Prop := {
  refs_lt : forall r, referenced firing st r -> r < requests st;
  settled_lt : forall r, r ∈ settled st -> r < requests st;
  responded_lt : forall r, responses_to r out <> [] -> r < requests st;
  jobs_settled : forall r o, In (r, o) (jobs st) -> r ∈ settled st /\ promise_outcome o;
  settled_once : forall r,
      r ∈ settled st -> length (responses_to r out) + count_jobs r (jobs st) = 1;
  responses_shape : forall r status body,
      In (status, body) (responses_to r out) ->
      (r ∈ settled st /\ promise_response status body)
      \/ ((r ∉ settled st) /\ ~ referenced firing st r /\ immediate_status status
           /\ responses_to r out = [(status, body)]);
}.

End Vocabulary.

(** ** More vocabulary *)

Section MoreVocabulary.

Context `{Runtime}.

(** The bytes written to the child's standard input, in order. *)
Definition stdin_bytes (out : list effect) : buffer :=
  List.concat (omap (fun e => match e with StdinWrite data => Some data | _ => None end) out).

(** A value other than [null] whose [id], if it has one, is [null], a
    boolean, a number or a string. *)
Definition plain_id (v : value) : Prop :=
  match v with
  | Null => False
  | Obj props =>
      match own_property "id" props with
      | Some (Arr _) | Some (Obj _) => False
      | _ => True
      end
  | _ => True
  end.

(** Every pending entry has the timer of its own call, armed or being
    fired. *)
Definition own_timers (firing : list timer) (st : bridge) : Prop :=
  forall key r,
    pending st !! key = Some r ->
    exists t, In t (firing ++ timers st) /\ timer_key t = key /\ timer_request t = r.

(** No armed timer is due later than [TIMEOUT_MS] from now. *)
Definition due_soon (st : bridge) : Prop :=
  forall t, In t (timers st) -> (due t <= clock st + TIMEOUT_MS)%N.

(** The call of request [r] is pending under [key], not settled and not
    answered, and no continuation is queued. *)
Definition still_waiting (key : string) (r : nat) (st : bridge) (out : list effect) : Prop :=
  pending st !! key = Some r /\ (r ∉ settled st) /\ jobs st = [] /\ responses_to r out = [].

End MoreVocabulary.

Section TimeVocabulary.

Context `{Runtime}.

(** The time that passes in a list of events. *)
Definition elapsed (inputs : list input) : N :=
  fold_right (fun i total => match i with Elapse ms => (ms + total)%N | _ => total end)
             0%N inputs.

(** [resolve] is called for request [r]. *)
Definition resolves (r : nat) (e : effect) : bool :=
  match e with
  | Resolve r' _ => Nat.eqb r' r
  | _ => false
  end.

(** Every armed timer is due later than now. *)
Definition due_later (st : bridge) : Prop :=
  forall t, In t (timers st) -> (clock st < due t)%N.

(** The armed timers of the requests received before request [n] are
    due at [limit] at the latest. *)
Definition due_by (n : nat) (limit : N) (st : bridge) : Prop :=
  forall t, In t (timers st) -> timer_request t < n -> (due t <= limit)%N.

(** The call whose timer is [tn] waits: its entry is pending under the
    key of [tn] and under no other, its promise is not settled, its
    timer is armed and not yet due, and no other armed timer has its
    key or its request. *)
Definition waiting_for (tn : timer) (st : bridge) : Prop :=
  pending st !! timer_key tn = Some (timer_request tn)
  /\ (forall key, pending st !! key = Some (timer_request tn) -> key = timer_key tn)
  /\ (timer_request tn ∉ settled st)
  /\ jobs st = []
  /\ In tn (timers st)
  /\ (forall t, In t (timers st) ->
                t = tn
                \/ (timer_key t <> timer_key tn /\ timer_request t <> timer_request tn))
  /\ timer_request tn < requests st
  /\ (clock st < due tn)%N.

(** The promise of request [r] is settled, and nothing is pending for
    it. *)
Definition done_with (r : nat) (st : bridge) : Prop :=
  r ∈ settled st /\ jobs st = [] /\ r < requests st
  /\ forall key, pending st !! key <> Some r.

End TimeVocabulary.

(** ** Start-up *)

Module Startup.

(** [process.env]. *)
Abbreviation environment := (gmap string string).

(** [!x] for a variable of the environment: unset, or set to the empty
    string. *)
Definition missing (x : option string) : bool :=
  match x with
  | None => true
  | Some s => String.eqb s EmptyString
  end.

(** How the start of [server.js] ends: [process.exit] after a message
    on the error stream, or the script goes on with the two values. *)
Inductive outcome : Type :=
| Exit (message : string) (status : Z)
| Started (PUBLIC_HOSTNAME BRIDGE_TOKEN : string).

(** Lines 6 to 16. *)
Definition check (env : environment) : outcome :=
  let PUBLIC_HOSTNAME := env !! "PUBLIC_HOSTNAME"%string in
  let BRIDGE_TOKEN := env !! "BRIDGE_TOKEN"%string in
  if missing PUBLIC_HOSTNAME then
    Exit "Missing PUBLIC_HOSTNAME env var (ex: my-app.fly.dev)" 1
  else if missing BRIDGE_TOKEN then
    Exit "Missing BRIDGE_TOKEN env var (strong random secret)" 1
  else Started (default EmptyString PUBLIC_HOSTNAME) (default EmptyString BRIDGE_TOKEN).

(** The [env] option of [spawn], lines 32 to 35. *)
Definition child_env (env : environment) : environment :=
  <["MCP_REMOTE_CONFIG_DIR"%string := "/data/.mcp-auth"%string]> env.

End Startup.


(** ** Data for the examples *)

Module Sample.

Import Reference.

Definition token : string := "secret".

(** A call with a string for [id], and the same with a number. *)
Definition call7 : value :=
  Obj [("jsonrpc"%string, Str "2.0"); ("id"%string, Str "7");
       ("method"%string, Str "tools/list")].

Definition call1 : value :=
  Obj [("jsonrpc"%string, Str "2.0"); ("id"%string, Num 1%Z);
       ("method"%string, Str "ping")].

(** Replies of the child, with a number for [id]. *)
Definition reply7 : value :=
  Obj [("jsonrpc"%string, Str "2.0"); ("id"%string, Num 7%Z); ("result"%string, Obj [])].

Definition reply1 : value :=
  Obj [("jsonrpc"%string, Str "2.0"); ("id"%string, Num 1%Z); ("result"%string, Obj [])].

(** A notification: no [id]. *)
Definition notice : value :=
  Obj [("jsonrpc"%string, Str "2.0"); ("method"%string, Str "notifications/progress")].

(** The bridge with [call7] pending, and with [call1] pending. *)
Definition waiting7 : bridge := (step token (PostRpc (bearer token) (Some call7)) init).2.
Definition waiting1 : bridge := (step token (PostRpc (bearer token) (Some call1)) init).2.

(** The frame of [reply7] cut in three. *)
Definition chunks : list buffer :=
  [take 9 (encode reply7); take 30 (drop 9 (encode reply7))].
Definition last_chunk : buffer := drop 39 (encode reply7).

(** A header that announces five bytes, and two of them. *)
Definition short_buffer : buffer := of_string "Content-Length: 5" ++ sep ++ of_string "{}".

(** A header block without Content-Length. *)
Definition garbage : buffer := of_string "X-Garbage: 1".

(** Five bytes that are not JSON. *)
Definition bad_json : buffer := of_string "{oops".

(** A call is answered, the same [id] is used again twenty seconds
    after the first call, and no reply comes for the second call. *)
Definition reused_id : list input :=
  [PostRpc (bearer token) (Some call1);
   Elapse 10000;
   StdoutData (encode reply1);
   Elapse 10000;
   PostRpc (bearer token) (Some call1);
   Elapse 230000;
   Elapse 20000;
   Elapse 1000000].

(** The same, with a reply to the second call 240 seconds after it. *)
Definition reused_id_late_reply : list input :=
  [PostRpc (bearer token) (Some call1);
   Elapse 10000;
   StdoutData (encode reply1);
   Elapse 10000;
   PostRpc (bearer token) (Some call1);
   Elapse 230000;
   Elapse 10000;
   StdoutData (encode reply1);
   Elapse 1000000].

(** A call is pending when the child exits. *)
Definition exit_while_waiting : list input :=
  [PostRpc (bearer token) (Some call7); ChildExit (Some 0%Z); Elapse 1000000;
   PostRpc (bearer token) (Some call1)].

End Sample.

(** ** More sample data *)

Module Scenario.

Import Reference Sample.

(** Both calls pending, [call7] as request 0 and [call1] as request 1. *)
Definition waiting_both : bridge :=
  (run token [PostRpc (bearer token) (Some call7); PostRpc (bearer token) (Some call1)] init).2.

(** Calls whose [id] is an object. *)
Definition call_object : value :=
  Obj [("jsonrpc"%string, Str "2.0"); ("id"%string, Obj []); ("method"%string, Str "ping")].

Definition call_other_object : value :=
  Obj [("jsonrpc"%string, Str "2.0"); ("id"%string, Obj [("n"%string, Num 2%Z)]);
       ("method"%string, Str "ping")].

Definition call_toString : value :=
  Obj [("jsonrpc"%string, Str "2.0"); ("id"%string, Obj [("toString"%string, Num 2%Z)]);
       ("method"%string, Str "ping")].

(** A header line that is not the length, in front of a frame. *)
Definition content_type : buffer := of_string "Content-Type: application/json" ++ [CR; LF].

(** Two calls and a second of waiting. *)
Definition two_calls : list input :=
  [PostRpc (bearer token) (Some call7); Elapse 1000; PostRpc (bearer token) (Some call1)].

(** 249.999 s in two waits, with the reply to [call7] between them. *)
Definition two_waits : list input :=
  [Elapse 100000; StdoutData (encode reply7); Elapse 149999].

(** 250 s in three waits, with the reply to [call7] between them. *)
Definition three_waits : list input :=
  [Elapse 100000; StdoutData (encode reply7); Elapse 100000; Elapse 50000].

(** An environment with all that the script asks for. *)
Definition env : Startup.environment :=
  {[ "PUBLIC_HOSTNAME"%string := "bridge.example"%string;
     "BRIDGE_TOKEN"%string := token;
     "PORT"%string := "8080"%string ]}.

End Scenario.


(** * Properties *)

(** ** Bytes and headers *)

Section BytesFacts.

Lemma byte_eqb_eq (a b : byte) : Byte.eqb a b = true <-> a = b.
Proof.
  split; [apply Byte.byte_dec_bl | apply Byte.byte_dec_lb].
Qed.

Lemma byte_eqb_neq (a b : byte) : a <> b -> Byte.eqb a b = false.
Proof.
  intros Hne. destruct (Byte.eqb a b) eqn:E; [|reflexivity].
  apply byte_eqb_eq in E. contradiction.
Qed.

Lemma starts_with_app (needle rest : buffer) : starts_with needle (needle ++ rest) = true.
Proof.
  induction needle as [|n needle IH]; simpl; [reflexivity|].
  rewrite IH, andb_true_r. apply byte_eqb_eq. reflexivity.
Qed.

Lemma starts_with_length (needle buf : buffer) :
  starts_with needle buf = true -> length needle <= length buf.
Proof.
  revert buf. induction needle as [|n needle IH]; intros [|b buf]; simpl; try lia; try discriminate.
  intros [_ Hs]%andb_true_iff. apply IH in Hs. lia.
Qed.

Lemma starts_with_prefix (needle buf rest : buffer) :
  starts_with needle buf = true -> starts_with needle (buf ++ rest) = true.
Proof.
  revert buf. induction needle as [|n needle IH]; intros [|b buf]; simpl; try discriminate; auto.
  intros [Hb Hs]%andb_true_iff. rewrite Hb. simpl. auto.
Qed.

Lemma starts_with_app_false (needle buf rest : buffer) :
  length needle <= length buf ->
  starts_with needle buf = false -> starts_with needle (buf ++ rest) = false.
Proof.
  revert buf. induction needle as [|n needle IH]; intros [|b buf]; simpl;
    try discriminate; try lia.
  intros Hlen. destruct (Byte.eqb n b); simpl; [|reflexivity].
  apply IH. lia.
Qed.

(** An occurrence leaves room for the needle. *)
Lemma indexOf_bound (needle buf : buffer) (i : nat) :
  indexOf needle buf = Some i -> i + length needle <= length buf.
Proof.
  revert i. induction buf as [|b buf IH]; intros i; simpl.
  - destruct (starts_with needle []) eqn:E; [|discriminate].
    intros [= <-]. apply starts_with_length in E. simpl in *. lia.
  - destruct (starts_with needle (b :: buf)) eqn:E.
    + intros [= <-]. apply starts_with_length in E. simpl in *. lia.
    + destruct (indexOf needle buf) as [j|]; simpl; [|discriminate].
      intros [= <-]. specialize (IH j eq_refl). lia.
Qed.

(** The first occurrence stays the first when bytes are appended. *)
Lemma indexOf_app (needle buf rest : buffer) (i : nat) :
  indexOf needle buf = Some i -> indexOf needle (buf ++ rest) = Some i.
Proof.
  revert i. induction buf as [|b buf IH]; intros i; simpl.
  - destruct (starts_with needle []) eqn:E; [|discriminate].
    intros [= <-]. destruct needle; [|simpl in E; discriminate].
    destruct rest; reflexivity.
  - destruct (starts_with needle (b :: buf)) eqn:E.
    + intros [= <-]. change (b :: buf ++ rest) with ((b :: buf) ++ rest).
      rewrite (starts_with_prefix _ _ rest E). reflexivity.
    + destruct (indexOf needle buf) as [j|] eqn:Ej; simpl; [|discriminate].
      intros [= <-].
      destruct (starts_with needle (b :: buf ++ rest)) eqn:E'.
      * exfalso.
        (* an occurrence at 0 that needs bytes of [rest] would make
           [buf] too short for the occurrence at [j] *)
        apply indexOf_bound in Ej.
        change (b :: buf ++ rest) with ((b :: buf) ++ rest) in E'.
        rewrite starts_with_app_false in E'; [discriminate| simpl; lia | exact E].
      * rewrite (IH j eq_refl). reflexivity.
Qed.

(** A text without carriage return, then the separator: that is where
    [indexOf] finds it. *)
Lemma indexOf_sep_after (text rest : buffer) :
  no_CR text -> indexOf sep (text ++ sep ++ rest) = Some (length text).
Proof.
  induction 1 as [|b text Hb _ IH]; simpl.
  - reflexivity.
  - rewrite (byte_eqb_neq CR b) by congruence. simpl.
    simpl in IH. rewrite IH. reflexivity.
Qed.

(** No separator before the whole of it has arrived. *)
Lemma indexOf_sep_partial (text : buffer) (k : nat) :
  no_CR text -> k < 4 -> indexOf sep (text ++ take k sep) = None.
Proof.
  intros Htext Hk. induction Htext as [|b text Hb _ IH]; simpl.
  - destruct k as [|[|[|[|k]]]]; try lia; vm_compute; reflexivity.
  - rewrite (byte_eqb_neq CR b) by congruence. simpl.
    simpl in IH. rewrite IH. reflexivity.
Qed.

End BytesFacts.

Section HeaderFacts.

Local Open Scope N_scope.

Lemma digit_byte_code (d : N) : d < 10 -> code (digit_byte d) = 48 + d.
Proof.
  intros Hd. unfold digit_byte, code.
  destruct (Byte.of_N (48 + d)) as [b|] eqn:E.
  - apply Byte.to_of_N in E. exact E.
  - apply Byte.of_N_None_iff in E. lia.
Qed.

Lemma digit_byte_is_digit (d : N) : d < 10 -> is_digit (digit_byte d) = true.
Proof.
  intros Hd. unfold is_digit. rewrite (digit_byte_code d Hd).
  apply andb_true_iff. split; apply N.leb_le; lia.
Qed.

Lemma digit_byte_value (d : N) : d < 10 -> digit_value (digit_byte d) = d.
Proof.
  intros Hd. unfold digit_value. rewrite (digit_byte_code d Hd). lia.
Qed.

Lemma parseInt_snoc (digits : buffer) (b : byte) :
  parseInt (digits ++ [b]) = 10 * parseInt digits + digit_value b.
Proof.
  unfold parseInt. rewrite fold_left_app. reflexivity.
Qed.

Lemma log2_div10 (n : N) : 10 <= n -> N.log2 (n / 10) < N.log2 n.
Proof.
  intros Hn.
  assert (Hpos : 0 < n / 10).
  { apply N.div_str_pos. lia. }
  apply N.log2_lt_pow2; [exact Hpos|].
  destruct (N.log2_spec n) as [_ Hup]; [lia|].
  rewrite N.pow_succ_r' in Hup.
  apply N.Div0.div_lt_upper_bound. lia.
Qed.

(** Enough fuel prints [n] in full: the digits read back as [n]. *)
Lemma decimal_fuel_spec (fuel : nat) (n : N) :
  (N.to_nat (N.log2 n) < fuel)%nat ->
  parseInt (decimal_fuel fuel n) = n
  /\ Forall (fun b => is_digit b = true) (decimal_fuel fuel n)
  /\ decimal_fuel fuel n <> [].
Proof.
  revert n. induction fuel as [|fuel IH]; intros n Hfuel; [lia|].
  simpl. destruct (n <? 10) eqn:E.
  - apply N.ltb_lt in E. repeat split.
    + unfold parseInt. simpl. rewrite digit_byte_value by exact E. lia.
    + constructor; [apply digit_byte_is_digit; exact E | constructor].
    + discriminate.
  - apply N.ltb_ge in E.
    assert (Hrec : (N.to_nat (N.log2 (n / 10)) < fuel)%nat).
    { pose proof (log2_div10 n E). lia. }
    destruct (IH (n / 10) Hrec) as (Hparse & Hdigits & _).
    assert (Hmod : n mod 10 < 10) by (apply N.mod_lt; lia).
    repeat split.
    + rewrite parseInt_snoc, Hparse, digit_byte_value by exact Hmod.
      symmetry. apply N.div_mod. lia.
    + apply Forall_app. split; [exact Hdigits|].
      constructor; [apply digit_byte_is_digit; exact Hmod | constructor].
    + intros Habs. apply app_eq_nil in Habs. destruct Habs as [_ Habs]. discriminate.
Qed.

Lemma decimal_spec (n : N) :
  parseInt (decimal n) = n
  /\ Forall (fun b => is_digit b = true) (decimal n)
  /\ decimal n <> [].
Proof.
  apply decimal_fuel_spec. lia.
Qed.

Lemma is_digit_not_CR (b : byte) : is_digit b = true -> b <> CR.
Proof.
  intros Hd ->. vm_compute in Hd. discriminate.
Qed.

Lemma take_digits_all (digits : buffer) :
  Forall (fun b => is_digit b = true) digits -> take_digits digits = digits.
Proof.
  induction 1 as [|b digits Hb _ IH]; simpl; [reflexivity|].
  rewrite Hb, IH. reflexivity.
Qed.

(** A digit is no white space, alone or as the first byte of a
    longer character. *)
Lemma skip_spaces_digit (b : byte) (rest : buffer) :
  is_digit b = true -> skip_spaces (b :: rest) = b :: rest.
Proof.
  unfold is_digit. intros [Hlo Hhi]%andb_true_iff.
  apply N.leb_le in Hlo. apply N.leb_le in Hhi.
  assert (H1 : is_space1 b = false).
  { unfold is_space1. apply orb_false_iff. split.
    - apply andb_false_iff. right. apply N.leb_gt. lia.
    - apply N.eqb_neq. lia. }
  assert (Hne : forall c, (c < 48 \/ 57 < c) -> (code b =? c) = false).
  { intros c Hc. apply N.eqb_neq. lia. }
  simpl. rewrite H1.
  destruct rest as [|b2 [|b3 rest]]; try reflexivity.
  - unfold is_space2. rewrite (Hne 194) by lia. reflexivity.
  - unfold is_space2, is_space3.
    rewrite (Hne 194), (Hne 225), (Hne 226), (Hne 227), (Hne 239) by lia.
    reflexivity.
Qed.

Lemma starts_with_ci_app (pat rest : buffer) : starts_with_ci pat (pat ++ rest) = true.
Proof.
  induction pat as [|p pat IH]; simpl; [reflexivity|].
  rewrite IH, andb_true_r. apply N.eqb_refl.
Qed.

(** The length [writeMessage] has printed is the length read. *)
Lemma content_length_header_text (n : N) : content_length (header_text n) = Some n.
Proof.
  destruct (decimal_spec n) as (Hparse & Hdigits & Hne).
  assert (Hm : match_here (header_text n) = Some (decimal n)).
  { unfold match_here, header_text.
    change (of_string "Content-Length: ") with (name ++ [" "%byte]).
    rewrite <- app_assoc, starts_with_ci_app.
    rewrite drop_app_length.
    change ([" "%byte] ++ decimal n) with (" "%byte :: decimal n).
    change (skip_spaces (" "%byte :: decimal n)) with (skip_spaces (decimal n)).
    destruct (decimal n) as [|d ds] eqn:E; [congruence|].
    rewrite skip_spaces_digit by (inversion Hdigits; assumption).
    rewrite take_digits_all by exact Hdigits. reflexivity. }
  unfold content_length.
  assert (Hr : regex_match (header_text n) = Some (decimal n)).
  { unfold header_text in *.
    change (of_string "Content-Length: ") with ("C"%byte :: of_string "ontent-Length: ") in *.
    simpl app in *. unfold regex_match; fold regex_match. rewrite Hm. reflexivity. }
  rewrite Hr. simpl. rewrite Hparse. reflexivity.
Qed.

Lemma header_text_no_CR (n : N) : no_CR (header_text n).
Proof.
  destruct (decimal_spec n) as (_ & Hdigits & _).
  apply Forall_app. split.
  - repeat constructor; discriminate.
  - eapply Forall_impl; [exact Hdigits|]. intros b. apply is_digit_not_CR.
Qed.

Lemma frame_header_eq (n : nat) : frame_header n = header_text (N.of_nat n) ++ sep.
Proof.
  unfold frame_header, header_text. rewrite <- app_assoc. reflexivity.
Qed.

Lemma skip_spaces_split (buf : buffer) :
  exists spaces, white spaces /\ buf = spaces ++ skip_spaces buf.
Proof.
  remember (length buf) as n eqn:Hn.
  revert buf Hn. induction n as [n IH] using lt_wf_ind. intros buf Hn.
  destruct buf as [|b1 t1]; [exists []; split; [constructor|reflexivity]|].
  simpl. destruct (is_space1 b1) eqn:E1.
  { destruct (IH (length t1) ltac:(subst n; simpl; lia) t1 eq_refl) as (ws & Hws & Heq).
    exists (b1 :: ws). split; [constructor; assumption|]. simpl. rewrite <- Heq. reflexivity. }
  destruct t1 as [|b2 t2]; [exists []; split; [constructor|reflexivity]|].
  destruct (is_space2 b1 b2) eqn:E2.
  { destruct (IH (length t2) ltac:(subst n; simpl; lia) t2 eq_refl) as (ws & Hws & Heq).
    exists (b1 :: b2 :: ws). split; [constructor; assumption|].
    simpl. rewrite <- Heq. reflexivity. }
  destruct t2 as [|b3 t3]; [exists []; split; [constructor|reflexivity]|].
  destruct (is_space3 b1 b2 b3) eqn:E3.
  { destruct (IH (length t3) ltac:(subst n; simpl; lia) t3 eq_refl) as (ws & Hws & Heq).
    exists (b1 :: b2 :: b3 :: ws). split; [constructor; assumption|].
    simpl. rewrite <- Heq. reflexivity. }
  exists []. split; [constructor|reflexivity].
Qed.

Lemma take_digits_split (buf : buffer) :
  exists rest, buf = take_digits buf ++ rest
               /\ Forall (fun b => is_digit b = true) (take_digits buf)
               /\ no_digit_ahead rest.
Proof.
  induction buf as [|b buf (rest & Heq & Hd & Hr)]; [exists []; repeat split; constructor|].
  simpl. destruct (is_digit b) eqn:E.
  - exists rest. repeat split; [simpl; rewrite <- Heq; reflexivity| |exact Hr].
    constructor; assumption.
  - exists (b :: buf). repeat split; [constructor|exact E].
Qed.

Lemma starts_with_ci_split (pat buf : buffer) :
  starts_with_ci pat buf = true ->
  exists written rest, buf = written ++ rest /\ map to_lower written = map to_lower pat
                       /\ rest = drop (length pat) buf.
Proof.
  revert buf. induction pat as [|p pat IH]; intros buf; simpl.
  - intros _. exists [], buf. auto.
  - destruct buf as [|b buf]; [discriminate|].
    intros [Hp Hrest]%andb_true_iff.
    destruct (IH buf Hrest) as (written & rest & Heq & Hfold & Hdrop).
    exists (b :: written), rest. repeat split.
    + simpl. rewrite <- Heq. reflexivity.
    + simpl. rewrite Hfold. f_equal. unfold same_letter in Hp.
      apply N.eqb_eq in Hp. symmetry. exact Hp.
    + exact Hdrop.
Qed.

(** Where the expression succeeds, it has read the name, white
    space and the longest run of digits. *)
Lemma match_here_split (buf digits : buffer) :
  match_here buf = Some digits ->
  exists written spaces rest,
    buf = written ++ spaces ++ digits ++ rest
    /\ map to_lower written = map to_lower name
    /\ white spaces
    /\ digits <> [] /\ Forall (fun b => is_digit b = true) digits
    /\ no_digit_ahead rest.
Proof.
  unfold match_here. destruct (starts_with_ci name buf) eqn:Ename; [|discriminate].
  destruct (starts_with_ci_split _ _ Ename) as (written & tail & Heq & Hfold & Hdrop).
  rewrite <- Hdrop.
  destruct (skip_spaces_split tail) as (spaces & Hws & Htail).
  destruct (take_digits_split (skip_spaces tail)) as (rest & Hdigits & Hall & Hrest).
  destruct (take_digits (skip_spaces tail)) as [|d ds] eqn:Ed; [discriminate|].
  intros [= <-]. exists written, spaces, rest.
  split; [rewrite Heq, Htail at 1; rewrite Hdigits at 1; reflexivity|].
  repeat split; auto.
Qed.

(** [match] returns the leftmost place at which the expression
    succeeds. *)
Lemma regex_match_leftmost (buf digits : buffer) :
  regex_match buf = Some digits ->
  exists k, (k <= length buf)%nat
            /\ match_here (drop k buf) = Some digits
            /\ forall j, (j < k)%nat -> match_here (drop j buf) = None.
Proof.
  induction buf as [|b buf IH].
  - simpl. discriminate.
  - unfold regex_match; fold regex_match.
    destruct (match_here (b :: buf)) as [ds|] eqn:E.
    + intros [= <-]. exists 0%nat. split; [lia|]. split; [exact E|]. intros j Hj. lia.
    + intros Hm. destruct (IH Hm) as (k & Hk & Hhere & Hleft).
      exists (S k). split; [simpl; lia|]. split; [exact Hhere|].
      intros [|j] Hj; [exact E|]. apply Hleft. lia.
Qed.

Lemma is_digit_digit_byte (b : byte) :
  is_digit b = true -> digit_value b < 10 /\ digit_byte (digit_value b) = b.
Proof.
  unfold is_digit. intros [Hlo Hhi]%andb_true_iff.
  apply N.leb_le in Hlo. apply N.leb_le in Hhi.
  unfold digit_value, digit_byte. split; [lia|].
  replace (48 + (code b - 48)) with (code b) by lia.
  unfold code. rewrite Byte.of_to_N. reflexivity.
Qed.

Lemma decimal_fuel_enough (fuel fuel' : nat) (n : N) :
  (N.to_nat (N.log2 n) < fuel)%nat -> (N.to_nat (N.log2 n) < fuel')%nat ->
  decimal_fuel fuel n = decimal_fuel fuel' n.
Proof.
  revert fuel' n. induction fuel as [|fuel IH]; intros fuel' n Hf Hf'; [lia|].
  destruct fuel' as [|fuel']; [lia|].
  simpl. destruct (n <? 10) eqn:E; [reflexivity|].
  apply N.ltb_ge in E. pose proof (log2_div10 n E).
  f_equal. apply IH; lia.
Qed.

Lemma decimal_small (n : N) : n < 10 -> decimal n = [digit_byte n].
Proof.
  intros Hn. unfold decimal. simpl. apply N.ltb_lt in Hn. rewrite Hn. reflexivity.
Qed.

Lemma decimal_step (n : N) :
  10 <= n -> decimal n = decimal (n / 10) ++ [digit_byte (n mod 10)].
Proof.
  intros Hn. unfold decimal at 1. simpl.
  assert (E : (n <? 10) = false) by (apply N.ltb_ge; exact Hn).
  rewrite E. f_equal. apply decimal_fuel_enough; [|lia].
  pose proof (log2_div10 n Hn). lia.
Qed.

(** A run of digits is the numeral of the number it is read as, after
    zeros. *)
Lemma digits_numeral (digits : buffer) :
  digits <> [] -> Forall (fun b => is_digit b = true) digits ->
  exists zeros, digits = repeat "0"%byte zeros ++ decimal (parseInt digits).
Proof.
  induction digits as [|d ds IH] using rev_ind; [congruence|].
  intros _ [Hds Hd]%Forall_app. inversion Hd as [|? ? Hdigit _]; subst.
  destruct (is_digit_digit_byte d Hdigit) as [Hlt Hbyte].
  rewrite parseInt_snoc.
  destruct ds as [|d0 ds'] using rev_ind.
  { exists 0%nat. simpl. change (parseInt []) with 0. rewrite N.mul_0_r, N.add_0_l.
    rewrite decimal_small by exact Hlt. rewrite Hbyte. reflexivity. }
  clear IHds'.
  destruct IH as [zeros Hnum];
    [intros Habs; apply app_eq_nil in Habs; destruct Habs; discriminate|exact Hds|].
  set (m := parseInt (ds' ++ [d0])) in *.
  destruct (N.eq_dec m 0) as [Hz|Hnz].
  - exists (S zeros). rewrite Hz in *. rewrite N.mul_0_r, N.add_0_l.
    rewrite decimal_small by exact Hlt. rewrite Hbyte, Hnum.
    rewrite decimal_small by lia.
    change (digit_byte 0) with "0"%byte.
    change (repeat "0"%byte (S zeros)) with ("0"%byte :: repeat "0"%byte zeros).
    rewrite repeat_cons. reflexivity.
  - exists zeros. rewrite decimal_step by lia.
    replace ((10 * m + digit_value d) / 10) with m.
    2:{ symmetry. rewrite N.mul_comm, N.div_add_l by lia.
        rewrite N.div_small by exact Hlt. lia. }
    replace ((10 * m + digit_value d) mod 10) with (digit_value d).
    2:{ symmetry. rewrite N.add_comm, N.mul_comm, N.Div0.mod_add.
        apply N.mod_small. exact Hlt. }
    rewrite Hbyte, Hnum at 1. rewrite app_assoc. reflexivity.
Qed.

End HeaderFacts.

(** ** The loop of [tryParseMessages] *)

Section LoopFacts.

Context `{Runtime}.

Lemma settle_readBuffer r o st : readBuffer (settle r o st) = readBuffer st.
Proof. unfold settle. destruct (decide (r ∈ settled st)); reflexivity. Qed.

Lemma settle_pending r o st : pending (settle r o st) = pending st.
Proof. unfold settle. destruct (decide (r ∈ settled st)); reflexivity. Qed.

Lemma settle_timers r o st : timers (settle r o st) = timers st.
Proof. unfold settle. destruct (decide (r ∈ settled st)); reflexivity. Qed.

Lemma settle_clock r o st : clock (settle r o st) = clock st.
Proof. unfold settle. destruct (decide (r ∈ settled st)); reflexivity. Qed.

Lemma settle_requests r o st : requests (settle r o st) = requests st.
Proof. unfold settle. destruct (decide (r ∈ settled st)); reflexivity. Qed.

Lemma settle_exited r o st : exited (settle r o st) = exited st.
Proof. unfold settle. destruct (decide (r ∈ settled st)); reflexivity. Qed.

(** The three ways out of the [try] statement. *)
Lemma try_message_cases jsonBuf st :
  (exists e, try_message jsonBuf st = ([LogParseError e], st))
  \/ (exists msg, JSON_parse jsonBuf = Some msg
                  /\ try_message jsonBuf st = ([LogExtra msg], st))
  \/ (exists msg key r,
         JSON_parse jsonBuf = Some msg /\ pending st !! key = Some r
         /\ try_message jsonBuf st =
            ([Resolve r msg],
             settle r (Fulfilled msg) (set_pending (delete key (pending st)) st))).
Proof.
  unfold try_message, on_message.
  destruct (JSON_parse jsonBuf) as [msg|]; simpl; [|left; eauto].
  destruct (prop "id" msg) as [[i|]|e]; simpl; [|right; left; eauto|left; eauto].
  destruct i; try (right; left; eauto; fail);
    (destruct (to_string _ _) as [key|e']; simpl; [|left; eauto];
     destruct (pending st !! key) as [r|] eqn:Ekey; [|right; left; eauto];
     right; right; eauto 10).
Qed.

(** The [try] statement leaves [readBuffer] alone. *)
Lemma try_message_readBuffer jsonBuf st :
  readBuffer (try_message jsonBuf st).2 = readBuffer st.
Proof.
  destruct (try_message_cases jsonBuf st)
    as [[e ->]|[(msg & _ & ->)|(msg & key & r & _ & _ & ->)]]; simpl; try reflexivity.
  rewrite settle_readBuffer. reflexivity.
Qed.

(** The loop does not depend on its fuel, once there is enough. *)
Lemma parse_loop_fuel (fuel fuel' : nat) (st : bridge) :
  length (readBuffer st) < fuel -> length (readBuffer st) < fuel' ->
  parse_loop fuel st = parse_loop fuel' st.
Proof.
  revert fuel' st. induction fuel as [|fuel IH]; intros [|fuel'] st Hf Hf'; try lia.
  simpl. destruct (indexOf sep (readBuffer st)) as [idx|] eqn:Eidx; [|reflexivity].
  pose proof (indexOf_bound _ _ _ Eidx) as Hidx. simpl in Hidx.
  destruct (content_length (slice 0 idx (readBuffer st))) as [len|].
  - destruct (N.of_nat (length (readBuffer st)) <? N.of_nat (idx + 4) + len)%N; [reflexivity|].
    destruct (try_message _ _) as [out st2] eqn:Etry.
    assert (Hbuf : length (readBuffer st2) < length (readBuffer st)).
    { replace st2 with (try_message (slice (idx + 4) (idx + 4 + N.to_nat len) (readBuffer st))
                          (set_readBuffer (slice_from (idx + 4 + N.to_nat len) (readBuffer st)) st)).2
        by (rewrite Etry; reflexivity).
      rewrite try_message_readBuffer. simpl. unfold slice_from. rewrite length_drop. lia. }
    rewrite (IH fuel' st2) by lia. reflexivity.
  - apply IH; simpl; unfold slice_from; rewrite length_drop; lia.
Qed.

(** [tryParseMessages] is the [while] loop of the source: one turn,
    then the loop again. *)
Lemma tryParseMessages_unfold (st : bridge) :
  tryParseMessages st =
  match indexOf sep (readBuffer st) with
  | None => ([], st)
  | Some idx =>
      match content_length (slice 0 idx (readBuffer st)) with
      | None => tryParseMessages (set_readBuffer (slice_from (idx + 4) (readBuffer st)) st)
      | Some len =>
          if (N.of_nat (length (readBuffer st)) <? N.of_nat (idx + 4) + len)%N then ([], st)
          else
            let r := try_message (slice (idx + 4) (idx + 4 + N.to_nat len) (readBuffer st))
                       (set_readBuffer (slice_from (idx + 4 + N.to_nat len) (readBuffer st)) st) in
            let r' := tryParseMessages r.2 in
            (r.1 ++ r'.1, r'.2)
      end
  end.
Proof.
  unfold tryParseMessages at 1. simpl.
  destruct (indexOf sep (readBuffer st)) as [idx|] eqn:Eidx; [|reflexivity].
  pose proof (indexOf_bound _ _ _ Eidx) as Hidx. simpl in Hidx.
  destruct (content_length (slice 0 idx (readBuffer st))) as [len|].
  - destruct (N.of_nat (length (readBuffer st)) <? N.of_nat (idx + 4) + len)%N; [reflexivity|].
    pose proof (try_message_readBuffer
                  (slice (idx + 4) (idx + 4 + N.to_nat len) (readBuffer st))
                  (set_readBuffer (slice_from (idx + 4 + N.to_nat len) (readBuffer st)) st)) as Hbuf.
    destruct (try_message _ _) as [out st2]. simpl in *.
    assert (Hlen : length (readBuffer st2) < length (readBuffer st)).
    { rewrite Hbuf. unfold slice_from. rewrite length_drop. lia. }
    unfold tryParseMessages.
    rewrite (parse_loop_fuel (length (readBuffer st)) (S (length (readBuffer st2)))) by lia.
    destruct (parse_loop _ st2). reflexivity.
  - unfold tryParseMessages. apply parse_loop_fuel; simpl; unfold slice_from;
      rewrite length_drop; lia.
Qed.

End LoopFacts.

(** ** Frames *)

Section FrameFacts.

Context `{Runtime}.

Lemma set_readBuffer_id buf st : readBuffer st = buf -> set_readBuffer buf st = st.
Proof. intros <-. destruct st; reflexivity. Qed.

Lemma set_jobs_id st : jobs st = [] -> set_jobs [] st = st.
Proof. intros Hj. destruct st; simpl in *; subst; reflexivity. Qed.

Lemma set_readBuffer_twice buf buf' st :
  set_readBuffer buf (set_readBuffer buf' st) = set_readBuffer buf st.
Proof. reflexivity. Qed.

(** Without a separator the loop leaves at once. *)
Lemma tryParseMessages_no_sep st :
  indexOf sep (readBuffer st) = None -> tryParseMessages st = ([], st).
Proof.
  intros Hidx. rewrite tryParseMessages_unfold, Hidx. reflexivity.
Qed.

(** A header that announces more than has arrived: the loop leaves,
    and nothing has changed. *)
Lemma tryParseMessages_incomplete st idx len :
  indexOf sep (readBuffer st) = Some idx ->
  content_length (slice 0 idx (readBuffer st)) = Some len ->
  (N.of_nat (length (readBuffer st)) < N.of_nat (idx + 4) + len)%N ->
  tryParseMessages st = ([], st).
Proof.
  intros Hidx Hlen Hshort. rewrite tryParseMessages_unfold, Hidx, Hlen.
  apply N.ltb_lt in Hshort. rewrite Hshort. reflexivity.
Qed.

(** A whole frame at the head of [readBuffer]: its payload goes
    through the [try] statement, and the loop goes on with what
    follows the frame. *)
Lemma tryParseMessages_frame st payload rest :
  readBuffer st = frame payload ++ rest ->
  tryParseMessages st =
  let r := try_message payload (set_readBuffer rest st) in
  let r' := tryParseMessages r.2 in
  (r.1 ++ r'.1, r'.2).
Proof.
  intros Hbuf. rewrite tryParseMessages_unfold.
  unfold frame in Hbuf. rewrite frame_header_eq in Hbuf.
  set (text := header_text (N.of_nat (length payload))) in *.
  assert (Hbuf' : readBuffer st = text ++ sep ++ payload ++ rest).
  { rewrite Hbuf, <- !app_assoc. reflexivity. }
  rewrite Hbuf'.
  rewrite (indexOf_sep_after text (payload ++ rest)) by apply header_text_no_CR.
  unfold slice at 1. rewrite drop_0, Nat.sub_0_r, take_app_length.
  unfold text at 1. rewrite content_length_header_text.
  assert (Hcmp : (N.of_nat (length (text ++ sep ++ payload ++ rest))
                  <? N.of_nat (length text + 4) + N.of_nat (length payload))%N = false).
  { apply N.ltb_ge. rewrite !length_app. change (length sep) with 4. lia. }
  rewrite Hcmp, Nat2N.id.
  assert (Hdrop : drop (length text + 4) (text ++ sep ++ payload ++ rest) = payload ++ rest).
  { rewrite drop_app_add'; reflexivity. }
  unfold slice, slice_from.
  replace (length text + 4 + length payload - (length text + 4)) with (length payload) by lia.
  rewrite Hdrop, take_app_length.
  replace (length text + 4 + length payload) with (length (text ++ sep ++ payload)).
  2:{ rewrite !length_app. change (length sep) with 4. lia. }
  replace (text ++ sep ++ payload ++ rest) with ((text ++ sep ++ payload) ++ rest).
  2:{ rewrite <- !app_assoc. reflexivity. }
  rewrite drop_app_length. reflexivity.
Qed.

(** A frame of which the last bytes are still missing: the loop
    leaves, and nothing has changed. *)
Lemma tryParseMessages_partial_frame st payload missing :
  missing <> [] -> readBuffer st ++ missing = frame payload ->
  tryParseMessages st = ([], st).
Proof.
  intros Hmissing Hframe.
  unfold frame in Hframe. rewrite frame_header_eq in Hframe.
  set (text := header_text (N.of_nat (length payload))) in *.
  assert (Htext : no_CR text) by apply header_text_no_CR.
  assert (Hlen : length (readBuffer st) + length missing
                 = length text + 4 + length payload).
  { rewrite <- length_app, Hframe, !length_app. change (length sep) with 4. lia. }
  assert (Hm : 0 < length missing) by (destruct missing; simpl; [congruence|lia]).
  assert (Hpre : readBuffer st = take (length (readBuffer st)) ((text ++ sep) ++ payload)).
  { rewrite <- Hframe, take_app_length. reflexivity. }
  destruct (le_lt_dec (length text + 4) (length (readBuffer st))) as [Hge|Hlt].
  - (* the separator has arrived, the payload has not *)
    rewrite take_app_ge in Hpre by (rewrite length_app; change (length sep) with 4; lia).
    rewrite <- app_assoc in Hpre.
    apply (tryParseMessages_incomplete st (length text) (N.of_nat (length payload))).
    + rewrite Hpre. apply indexOf_sep_after. exact Htext.
    + rewrite Hpre at 1. unfold slice. rewrite drop_0, Nat.sub_0_r, take_app_length.
      apply content_length_header_text.
    + lia.
  - (* not even the separator *)
    apply tryParseMessages_no_sep.
    rewrite take_app_le in Hpre by (rewrite length_app; change (length sep) with 4; lia).
    rewrite take_app in Hpre. rewrite Hpre.
    apply indexOf_sep_partial.
    + apply Forall_take. exact Htext.
    + lia.
Qed.

(** A message on which the [try] block runs through is handed on:
    one effect, which carries the message. *)
Lemma try_message_dispatchable jsonBuf msg st :
  JSON_parse jsonBuf = Some msg -> dispatchable msg = true ->
  exists e, (try_message jsonBuf st).1 = [e] /\ delivered e = Some msg.
Proof.
  intros Hparse Hd. unfold try_message, on_message, dispatchable in *.
  rewrite Hparse. simpl.
  destruct (prop "id" msg) as [[i|]|e]; simpl; [| eexists; split; reflexivity | discriminate].
  destruct i; try (eexists; split; reflexivity);
    (destruct (to_string _ _) as [key|e']; [|discriminate]; simpl;
     destruct (pending st !! key); eexists; split; reflexivity).
Qed.

(** [null] parses, and reading its [id] throws. *)
Lemma try_message_null jsonBuf st :
  JSON_parse jsonBuf = Some Null ->
  try_message jsonBuf st = ([LogParseError TypeError], st).
Proof.
  intros Hparse. unfold try_message, on_message. rewrite Hparse. reflexivity.
Qed.

Lemma try_message_syntax_error jsonBuf st :
  JSON_parse jsonBuf = None ->
  try_message jsonBuf st = ([LogParseError SyntaxError], st).
Proof.
  intros Hparse. unfold try_message, on_message. rewrite Hparse. reflexivity.
Qed.

Lemma encode_frame v : encode v = frame (JSON_stringify v).
Proof. reflexivity. Qed.

(** Frames of messages that the codec gives back and on which the
    [try] block runs through, one after the other in [readBuffer]:
    the loop hands the messages on in order, one effect each, and
    empties the buffer. *)
Lemma tryParseMessages_frames vs st :
  readBuffer st = List.concat (map encode vs) ->
  Forall (fun v => roundtrips v /\ dispatchable v = true) vs ->
  omap delivered (tryParseMessages st).1 = vs
  /\ length (tryParseMessages st).1 = length vs
  /\ readBuffer (tryParseMessages st).2 = [].
Proof.
  revert st. induction vs as [|v vs IH]; intros st Hbuf Hvs.
  - rewrite tryParseMessages_no_sep by (rewrite Hbuf; reflexivity).
    simpl. auto.
  - inversion Hvs as [|? ? [Hrt Hd] Hvs']; subst.
    change (List.concat (map encode (v :: vs)))
      with (frame (JSON_stringify v) ++ List.concat (map encode vs)) in Hbuf.
    rewrite (tryParseMessages_frame st _ _ Hbuf). simpl.
    destruct (try_message_dispatchable (JSON_stringify v) v
                (set_readBuffer (List.concat (map encode vs)) st) Hrt Hd) as (e & He & Hdel).
    pose proof (try_message_readBuffer (JSON_stringify v)
                  (set_readBuffer (List.concat (map encode vs)) st)) as Hrb.
    destruct (try_message (JSON_stringify v) _) as [out st2]. simpl in *. subst out.
    destruct (IH st2 Hrb Hvs') as (Hout & Hlen & Hrest).
    simpl. rewrite Hdel. fold (omap delivered (tryParseMessages st2).1).
    rewrite Hout, Hlen. auto.
Qed.

End FrameFacts.

(** ** The frame codec *)

Section Codec.

Context `{Runtime}.
Variable BRIDGE_TOKEN : string.

Lemma delivered_continuation js : omap delivered (map continuation js) = [].
Proof.
  induction js as [|[r [response|message]] js IH]; simpl; auto.
Qed.

Lemma then_jobs_delivered r : omap delivered (then_jobs r).1 = omap delivered r.1.
Proof.
  unfold then_jobs, run_jobs. simpl.
  rewrite omap_app, delivered_continuation, app_nil_r. reflexivity.
Qed.

Lemma then_jobs_readBuffer r : readBuffer (then_jobs r).2 = readBuffer r.2.
Proof. reflexivity. Qed.

Lemma then_jobs_nothing st : jobs st = [] -> then_jobs ([], st) = ([], st).
Proof.
  intros Hj. unfold then_jobs, run_jobs. simpl. rewrite Hj, set_jobs_id by exact Hj.
  reflexivity.
Qed.

(** One chunk that holds the frames of messages the codec gives back
    and on which the [try] block runs through: the messages are
    handed on in order and the buffer is empty again. *)
Lemma on_stdout_data_frames vs st :
  readBuffer st = [] ->
  Forall (fun v => roundtrips v /\ dispatchable v = true) vs ->
  omap delivered (on_stdout_data (List.concat (map encode vs)) st).1 = vs
  /\ readBuffer (on_stdout_data (List.concat (map encode vs)) st).2 = [].
Proof.
  intros Hbuf Hvs. unfold on_stdout_data.
  rewrite then_jobs_delivered, then_jobs_readBuffer, Hbuf. simpl.
  destruct (tryParseMessages_frames vs
              (set_readBuffer (List.concat (map encode vs)) st) eq_refl Hvs)
    as (Hout & _ & Hrest).
  auto.
Qed.

(** C1, at the input on which it fails.  [null] is a value
    [JSON.stringify] and [JSON.parse] give back, and its frame is
    consumed whole, but the value is not handed on: reading [msg.id]
    throws inside the [try], and the [catch] logs a parse error. *)
Theorem null_frame_logged_as_parse_error (st : bridge) :
  readBuffer st = [] -> jobs st = [] -> roundtrips Null ->
  on_stdout_data (encode Null) st = ([LogParseError TypeError], st)
  /\ omap delivered (on_stdout_data (encode Null) st).1 = [].
Proof.
  intros Hbuf Hjobs Hrt.
  assert (Hrun : on_stdout_data (encode Null) st = ([LogParseError TypeError], st)).
  { unfold on_stdout_data. rewrite Hbuf. simpl app.
    rewrite (tryParseMessages_frame _ (JSON_stringify Null) []).
    2:{ simpl. rewrite app_nil_r. reflexivity. }
    rewrite try_message_null by exact Hrt. simpl.
    unfold then_jobs, run_jobs. simpl. rewrite Hjobs. simpl.
    change (set_readBuffer [] (set_readBuffer (encode Null) st))
      with (set_readBuffer [] st).
    rewrite (set_readBuffer_id [] st Hbuf), (set_jobs_id st Hjobs). reflexivity. }
  rewrite Hrun. auto.
Qed.

(** Chunks that together are still short of a frame: nothing comes
    out, the bytes are kept. *)
Lemma run_partial_frame (chunks : list buffer) (st : bridge) payload missing :
  exited st = false -> jobs st = [] ->
  missing <> [] ->
  readBuffer st ++ List.concat chunks ++ missing = frame payload ->
  run BRIDGE_TOKEN (map StdoutData chunks) st
  = ([], set_readBuffer (readBuffer st ++ List.concat chunks) st).
Proof.
  revert st. induction chunks as [|c chunks IH]; intros st Hex Hjobs Hm Hframe.
  - simpl. rewrite app_nil_r, set_readBuffer_id; reflexivity.
  - simpl. unfold step. rewrite Hex. unfold on_stdout_data.
    simpl in Hframe.
    rewrite (tryParseMessages_partial_frame _ payload (List.concat chunks ++ missing)).
    + rewrite then_jobs_nothing by exact Hjobs.
      rewrite IH; try assumption.
      * simpl. rewrite <- app_assoc. reflexivity.
      * simpl. rewrite <- Hframe, <- !app_assoc. reflexivity.
    + intros Habs. apply app_eq_nil in Habs. destruct Habs as [_ Habs]. contradiction.
    + simpl. rewrite <- Hframe, <- !app_assoc. reflexivity.
Qed.

(** Partial delivery, as far as the code has it (C2).  A header with
    its separator and a valid Content-Length [len],
    followed by fewer than [len] bytes: the loop stops, hands nothing
    on, and keeps the whole buffer, header included.  So when the
    bytes of [encode v] arrive cut into chunks at any places, the
    chunks before the last (not empty) one produce nothing, and the
    last one produces what the frame produces when it arrives whole:
    [v], once, for a message that the codec gives back and on which
    the [try] block runs through. *)
Theorem partial_delivery :
  (forall (st : bridge) (idx : nat) (len : N),
      indexOf sep (readBuffer st) = Some idx ->
      content_length (slice 0 idx (readBuffer st)) = Some len ->
      (N.of_nat (length (readBuffer st)) < N.of_nat (idx + length sep) + len)%N ->
      tryParseMessages st = ([], st))
  /\ (forall (st : bridge) (v : value) (chunks : list buffer) (last : buffer),
         readBuffer st = [] -> jobs st = [] -> exited st = false ->
         last <> [] -> List.concat chunks ++ last = encode v ->
         run BRIDGE_TOKEN (map StdoutData chunks) st
         = ([], set_readBuffer (List.concat chunks) st)
         /\ step BRIDGE_TOKEN (StdoutData last) (set_readBuffer (List.concat chunks) st)
            = on_stdout_data (encode v) st
         /\ (roundtrips v -> dispatchable v = true ->
             omap delivered (on_stdout_data (encode v) st).1 = [v]
             /\ readBuffer (on_stdout_data (encode v) st).2 = [])).
Proof.
  split.
  - intros st idx len. apply tryParseMessages_incomplete.
  - intros st v chunks last Hbuf Hjobs Hex Hlast Hcat. repeat split.
    + rewrite (run_partial_frame chunks st (JSON_stringify v) last); try assumption.
      * rewrite Hbuf. reflexivity.
      * rewrite Hbuf. exact Hcat.
    + unfold step. simpl. rewrite Hex. unfold on_stdout_data. simpl.
      rewrite Hcat, Hbuf. reflexivity.
    + pose proof (on_stdout_data_frames [v] st Hbuf) as Hone.
      simpl in Hone. rewrite app_nil_r in Hone. apply Hone. auto.
    + pose proof (on_stdout_data_frames [v] st Hbuf) as Hone.
      simpl in Hone. rewrite app_nil_r in Hone. apply Hone. auto.
Qed.

(** Recovery after a block without length, as far as the code has it
    (C3).  When no Content-Length is found before the first separator,
    the loop drops the block with its separator and goes on as if
    the buffer had started after it: nothing is logged and nothing
    is thrown.  So a block without Content-Length, its separator and
    then the frame of a message yield that message and nothing
    else. *)
Theorem malformed_header_skipped :
  (forall (st : bridge) (idx : nat),
      indexOf sep (readBuffer st) = Some idx ->
      content_length (slice 0 idx (readBuffer st)) = None ->
      tryParseMessages st
      = tryParseMessages (set_readBuffer (slice_from (idx + length sep) (readBuffer st)) st))
  /\ (forall (st : bridge) (garbage : buffer) (v : value),
         readBuffer st = garbage ++ sep ++ encode v ->
         indexOf sep (garbage ++ sep) = Some (length garbage) ->
         content_length garbage = None ->
         roundtrips v -> dispatchable v = true ->
         omap delivered (tryParseMessages st).1 = [v]
         /\ length (tryParseMessages st).1 = 1
         /\ readBuffer (tryParseMessages st).2 = []).
Proof.
  assert (Hskip : forall (st : bridge) (idx : nat),
             indexOf sep (readBuffer st) = Some idx ->
             content_length (slice 0 idx (readBuffer st)) = None ->
             tryParseMessages st
             = tryParseMessages (set_readBuffer (slice_from (idx + length sep) (readBuffer st)) st)).
  { intros st idx Hidx Hnone. rewrite tryParseMessages_unfold at 1.
    rewrite Hidx, Hnone. reflexivity. }
  split; [exact Hskip|].
  intros st garbage v Hbuf Hfirst Hnone Hrt Hd.
  assert (Hidx : indexOf sep (readBuffer st) = Some (length garbage)).
  { rewrite Hbuf, app_assoc. apply indexOf_app. exact Hfirst. }
  rewrite (Hskip st (length garbage) Hidx).
  2:{ rewrite Hbuf. unfold slice. rewrite drop_0, Nat.sub_0_r, take_app_length. exact Hnone. }
  apply (tryParseMessages_frames [v]); [|auto].
  cbn [readBuffer set_readBuffer map List.concat]. unfold slice_from.
  rewrite Hbuf, app_assoc.
  replace (length garbage + length sep) with (length (garbage ++ sep))
    by (rewrite length_app; reflexivity).
  rewrite drop_app_length, app_nil_r. reflexivity.
Qed.

(** C4.  A whole frame whose payload [JSON.parse] rejects: the error
    is logged, caught inside the loop, the buffer moves past the
    frame, and the loop goes on with what follows.  So such a frame
    in front of the frame of a message does not keep that message
    from being handed on. *)
Theorem bad_json_frame_skipped :
  (forall (st : bridge) (idx : nat) (len : N),
      indexOf sep (readBuffer st) = Some idx ->
      content_length (slice 0 idx (readBuffer st)) = Some len ->
      (N.of_nat (idx + length sep) + len <= N.of_nat (length (readBuffer st)))%N ->
      let start := idx + length sep in
      let stop := start + N.to_nat len in
      JSON_parse (slice start stop (readBuffer st)) = None ->
      let rest := tryParseMessages (set_readBuffer (slice_from stop (readBuffer st)) st) in
      tryParseMessages st = (LogParseError SyntaxError :: rest.1, rest.2))
  /\ (forall (st : bridge) (bad : buffer) (v : value),
         readBuffer st = frame bad ++ encode v ->
         JSON_parse bad = None ->
         roundtrips v -> dispatchable v = true ->
         exists e,
           (tryParseMessages st).1 = [LogParseError SyntaxError; e]
           /\ delivered e = Some v
           /\ readBuffer (tryParseMessages st).2 = []).
Proof.
  split.
  - intros st idx len Hidx Hlen Hfull start stop Hbad rest.
    rewrite tryParseMessages_unfold, Hidx, Hlen.
    apply N.ltb_ge in Hfull. change (length sep) with 4 in *. rewrite Hfull.
    subst start stop rest. simpl.
    rewrite try_message_syntax_error by exact Hbad. reflexivity.
  - intros st bad v Hbuf Hbad Hrt Hd.
    rewrite (tryParseMessages_frame st bad (encode v) Hbuf). cbn zeta.
    rewrite try_message_syntax_error by exact Hbad. cbn [fst snd app].
    destruct (tryParseMessages_frames [v] (set_readBuffer (encode v) st))
      as (Hout & Hlen & Hrest).
    { simpl. rewrite app_nil_r. reflexivity. }
    { auto. }
    destruct (tryParseMessages (set_readBuffer (encode v) st)) as [[|e [|e' out]] st'];
      simpl in *; try discriminate.
    exists e. repeat split; [|exact Hrest].
    destruct (delivered e); [congruence|discriminate].
Qed.

Lemma take_digits_spec (buf : buffer) :
  Forall (fun b => is_digit b = true) (take_digits buf).
Proof.
  induction buf as [|b buf IH]; simpl; [constructor|].
  destruct (is_digit b) eqn:E; constructor; assumption.
Qed.

(** What the capture group of the expression holds. *)
Lemma regex_match_digits (buf digits : buffer) :
  regex_match buf = Some digits ->
  digits <> [] /\ Forall (fun b => is_digit b = true) digits.
Proof.
  assert (Hhere : forall l, match_here l = Some digits ->
                        digits <> [] /\ Forall (fun b => is_digit b = true) digits).
  { intros l. unfold match_here. destruct (starts_with_ci name l); [|discriminate].
    pose proof (take_digits_spec (skip_spaces (drop (length name) l))) as Hd.
    destruct (take_digits _) as [|d ds]; [discriminate|].
    intros [= <-]. split; [discriminate|exact Hd]. }
  induction buf as [|b buf IH].
  - intros Hm. vm_compute in Hm. discriminate.
  - simpl. destruct (match_here (b :: buf)) eqn:E; [intros [= <-]; eauto|exact IH].
Qed.

(** C9, as the code has it.  The length is a natural number read in
    base ten: at the leftmost place of the header text where the name,
    its letters in either case, is followed after any white space by a
    digit, the longest run of digits is the numeral of the length,
    after zeros if any; and the header that [writeMessage] prints for a
    length is read as that length.  (Up to 2^53, where JavaScript
    numbers are exact.)  There is no largest length: whatever length a
    header announces, as long as fewer bytes follow the separator the
    loop reports nothing and keeps the whole buffer. *)
Theorem content_length_decimal_and_unbounded :
  (forall (header : buffer) (len : N),
      content_length header = Some len -> (len <= exact_limit)%N ->
      exists before written spaces zeros rest,
        header = before ++ written ++ spaces ++ repeat "0"%byte zeros ++ decimal len ++ rest
        /\ map to_lower written = map to_lower name
        /\ white spaces
        /\ no_digit_ahead rest
        /\ forall k, (k < length before)%nat -> match_here (drop k header) = None)
  /\ (forall n : N, (n <= exact_limit)%N -> content_length (header_text n) = Some n)
  /\ (forall (st : bridge) (len : N) (partial : buffer),
         readBuffer st = header_text len ++ sep ++ partial ->
         (N.of_nat (length partial) < len)%N ->
         tryParseMessages st = ([], st)).
Proof.
  split; [|split].
  - intros header len. unfold content_length.
    destruct (regex_match header) as [digits|] eqn:E; [|discriminate].
    intros [= <-] _.
    destruct (regex_match_leftmost _ _ E) as (k & Hk & Hhere & Hleft).
    destruct (match_here_split _ _ Hhere)
      as (written & spaces & rest & Heq & Hfold & Hws & Hne & Hall & Hrest).
    destruct (digits_numeral digits Hne Hall) as [zeros Hnum].
    exists (take k header), written, spaces, zeros, rest.
    split.
    { rewrite <- (take_drop k header) at 1. rewrite Heq. rewrite Hnum at 1.
      rewrite <- !app_assoc. reflexivity. }
    repeat split; auto.
    intros j Hj. apply Hleft. rewrite length_take in Hj. lia.
  - intros n _. apply content_length_header_text.
  - intros st len partial Hbuf Hshort.
    apply (tryParseMessages_incomplete st (length (header_text len)) len).
    + rewrite Hbuf. apply indexOf_sep_after, header_text_no_CR.
    + rewrite Hbuf. unfold slice. rewrite drop_0, Nat.sub_0_r, take_app_length.
      apply content_length_header_text.
    + rewrite Hbuf, !length_app. change (length sep) with 4. lia.
Qed.

End Codec.

(** ** The table of pending calls *)

Section Table.

Context `{Runtime}.
Variable BRIDGE_TOKEN : string.

Local Abbreviation step := (step BRIDGE_TOKEN).
Local Abbreviation run := (run BRIDGE_TOKEN).

Lemma substring_all (s : string) : String.substring 0 (String.length s) s = s.
Proof. induction s as [|c s IH]; simpl; [reflexivity|]. rewrite IH. reflexivity. Qed.

(** The right bearer token passes [auth]. *)
Lemma auth_bearer : auth BRIDGE_TOKEN (bearer BRIDGE_TOKEN) = None.
Proof.
  unfold auth, bearer. simpl.
  change (EmptyString +:+ BRIDGE_TOKEN) with BRIDGE_TOKEN. simpl.
  rewrite Nat.sub_0_r, substring_all, String.eqb_refl.
  destruct BRIDGE_TOKEN; reflexivity.
Qed.

(** Past the checks of the body, [POST /rpc] is the look-up in
    [pending]. *)
Lemma rpc_well_formed r payload i st :
  well_formed_call payload i ->
  rpc r (Some payload) st =
  (idKey ← to_string Number_toString i;
   match pending st !! idKey with
   | Some _ => Normal ([Respond r 409 (error_body "duplicate id in flight")], st)
   | None => Normal (writeMessage payload, registered idKey r st)
   end).
Proof.
  intros (Hobj & Hj & Hid & Hnn). unfold rpc. rewrite Hobj, Hj. simpl.
  rewrite Hid. simpl. destruct i; [contradiction|reflexivity..].
Qed.

(** Past [JSON.parse] and the guard on [msg.id], the [try] block is
    the look-up in [pending]. *)
Lemma on_message_id jsonBuf msg i st :
  JSON_parse jsonBuf = Some msg -> prop "id" msg = Normal (Some i) -> i <> Null ->
  on_message jsonBuf st =
  (key ← to_string Number_toString i;
   match pending st !! key with
   | Some r => Normal ([Resolve r msg],
                       settle r (Fulfilled msg) (set_pending (delete key (pending st)) st))
   | None => Normal ([LogExtra msg], st)
   end).
Proof.
  intros Hparse Hid Hnn. unfold on_message. rewrite Hparse. simpl.
  rewrite Hid. simpl. destruct i; [contradiction|reflexivity..].
Qed.

(** What holds before the loop and is kept by its two moves, moving
    on in [readBuffer] and the [try] statement, holds after it. *)
Lemma parse_loop_preserves (P : bridge -> list effect -> Prop) :
  (forall st out buf, P st out -> P (set_readBuffer buf st) out) ->
  (forall st out jsonBuf,
      P st out -> P (try_message jsonBuf st).2 (out ++ (try_message jsonBuf st).1)) ->
  forall fuel st out, P st out -> P (parse_loop fuel st).2 (out ++ (parse_loop fuel st).1).
Proof.
  intros Hbuf Htry. induction fuel as [|fuel IH]; intros st out HP; simpl.
  - rewrite app_nil_r. exact HP.
  - destruct (indexOf sep (readBuffer st)) as [idx|]; simpl; [|rewrite app_nil_r; exact HP].
    destruct (content_length _) as [len|].
    + destruct (_ <? _)%N; simpl; [rewrite app_nil_r; exact HP|].
      pose proof (Htry _ out
                    (slice (idx + 4) (idx + 4 + N.to_nat len) (readBuffer st))
                    (Hbuf st out (slice_from (idx + 4 + N.to_nat len) (readBuffer st)) HP))
        as Hstep.
      destruct (try_message _ _) as [out1 st1]. simpl in Hstep.
      specialize (IH st1 (out ++ out1) Hstep).
      destruct (parse_loop fuel st1) as [out2 st2]. simpl in *.
      rewrite app_assoc. exact IH.
    + apply IH, Hbuf, HP.
Qed.

Lemma tryParseMessages_preserves (P : bridge -> list effect -> Prop) :
  (forall st out buf, P st out -> P (set_readBuffer buf st) out) ->
  (forall st out jsonBuf,
      P st out -> P (try_message jsonBuf st).2 (out ++ (try_message jsonBuf st).1)) ->
  forall st out, P st out -> P (tryParseMessages st).2 (out ++ (tryParseMessages st).1).
Proof.
  intros Hbuf Htry st out. apply parse_loop_preserves; assumption.
Qed.

Lemma fire_eq out st t :
  fire (out, st) t
  = (out ++ (then_jobs (on_timeout t st)).1, (then_jobs (on_timeout t st)).2).
Proof.
  unfold fire. simpl. destruct (then_jobs (on_timeout t st)). reflexivity.
Qed.

(** What is kept by every timer that fires is kept by the timers
    that fire in a row. *)
Lemma fold_fire_preserves (P : list timer -> bridge -> list effect -> Prop) :
  (forall t ts st out,
      P (t :: ts) st out ->
      P ts (then_jobs (on_timeout t st)).2 (out ++ (then_jobs (on_timeout t st)).1)) ->
  forall ready st out0 out,
    P ready st (out0 ++ out) ->
    P [] (fold_left fire ready (out, st)).2 (out0 ++ (fold_left fire ready (out, st)).1).
Proof.
  intros Hfire. induction ready as [|t ready IH]; intros st out0 out HP; [exact HP|].
  cbn [fold_left]. rewrite fire_eq.
  apply IH. rewrite app_assoc. apply Hfire. exact HP.
Qed.

(** An entry of [pending] after the [try] statement was there before. *)
Lemma try_message_pending jsonBuf st key r :
  pending (try_message jsonBuf st).2 !! key = Some r -> pending st !! key = Some r.
Proof.
  destruct (try_message_cases jsonBuf st)
    as [[e ->]|[(msg & _ & ->)|(msg & key' & r' & _ & _ & ->)]]; simpl; auto.
  rewrite settle_pending. simpl. intros [_ Hl]%lookup_delete_Some. exact Hl.
Qed.

Lemma tryParseMessages_pending st key r :
  pending (tryParseMessages st).2 !! key = Some r -> pending st !! key = Some r.
Proof.
  intros Hl.
  refine (tryParseMessages_preserves
            (fun st' _ => forall key r, pending st' !! key = Some r ->
                                        pending st !! key = Some r)
            _ _ st [] _ key r Hl).
  - intros st' out buf HP. exact HP.
  - intros st' out jsonBuf HP key' r' Hl'. apply HP.
    eapply try_message_pending. exact Hl'.
  - auto.
Qed.

Lemma on_timeout_pending t st key r :
  pending (on_timeout t st).2 !! key = Some r -> pending st !! key = Some r.
Proof.
  unfold on_timeout. destruct (pending st !! timer_key t); simpl; auto.
  rewrite settle_pending. simpl. intros [_ Hl]%lookup_delete_Some. exact Hl.
Qed.

Lemma on_elapse_pending ms st key r :
  pending (on_elapse ms st).2 !! key = Some r -> pending st !! key = Some r.
Proof.
  unfold on_elapse. destruct (List.partition _ _) as [ready later].
  intros Hl.
  refine (fold_fire_preserves
            (fun _ st' _ => forall key r, pending st' !! key = Some r ->
                                          pending st !! key = Some r)
            _ ready _ [] [] _ key r Hl).
  - intros t ts st' out HP key' r' Hl'. apply HP.
    eapply on_timeout_pending. exact Hl'.
  - auto.
Qed.

Lemma then_jobs_pending r : pending (then_jobs r).2 = pending r.2.
Proof. reflexivity. Qed.

Lemma then_jobs_nothing_more e st : jobs st = [] -> then_jobs ([e], st) = ([e], st).
Proof.
  intros Hj. unfold then_jobs, run_jobs. simpl. rewrite Hj, set_jobs_id by exact Hj.
  reflexivity.
Qed.

(** The ways out of the handler of [POST /rpc]: an exception, an
    answer at once, or a registration under a free key. *)
Lemma rpc_outcomes r body st :
  (exists e, rpc r body st = Throw e)
  \/ (exists status b,
         immediate_status status /\ rpc r body st = Normal ([Respond r status b], st))
  \/ (exists payload idKey,
         pending st !! idKey = None
         /\ rpc r body st = Normal (writeMessage payload, registered idKey r st)).
Proof.
  assert (Hanswer : forall status b,
             status = 400 \/ status = 409 ->
             (exists e, Normal ([Respond r status b], st) = Throw e)
             \/ (exists status' b',
                    immediate_status status'
                    /\ Normal ([Respond r status b], st) = Normal ([Respond r status' b'], st))
             \/ (exists payload idKey,
                    pending st !! idKey = None
                    /\ Normal ([Respond r status b], st)
                       = Normal (writeMessage payload, registered idKey r st))).
  { intros status b Hs. right. left. exists status, b.
    split; [unfold immediate_status; tauto|reflexivity]. }
  unfold rpc. destruct (not_an_object body); [apply Hanswer; auto|].
  destruct body as [payload|]; [|apply Hanswer; auto].
  destruct (prop "jsonrpc" payload) as [jsonrpc|e]; simpl; [|left; eauto].
  match goal with
  | |- context [mbind ?f (prop "id" payload)] => set (call := mbind f (prop "id" payload))
  end.
  assert (Hcall :
    (exists e, call = Throw e)
    \/ (exists status b, immediate_status status /\ call = Normal ([Respond r status b], st))
    \/ (exists payload' idKey,
           pending st !! idKey = None
           /\ call = Normal (writeMessage payload', registered idKey r st))).
  { subst call.
    destruct (prop "id" payload) as [[i|]|e]; simpl; [|apply Hanswer; auto|left; eauto].
    destruct i; try (apply Hanswer; auto; fail);
      (destruct (to_string _ _) as [idKey|e']; simpl; [|left; eauto];
       destruct (pending st !! idKey) eqn:Ekey; [apply Hanswer; auto|];
       right; right; eauto). }
  clearbody call.
  repeat match goal with
         | |- context [match ?x with _ => _ end] =>
             is_var x; destruct x; try (apply Hanswer; auto; fail)
         end.
  exact Hcall.
Qed.

(** A call with the right token and a well-formed body, as a step of
    the event loop: the look-up in [pending] decides. *)
Lemma step_post_rpc st payload i key :
  exited st = false -> jobs st = [] ->
  well_formed_call payload i -> to_string Number_toString i = Normal key ->
  step (PostRpc (bearer BRIDGE_TOKEN) (Some payload)) st =
  match pending st !! key with
  | Some _ => ([Respond (requests st) 409 (error_body "duplicate id in flight")],
               next_request st)
  | None => (writeMessage payload, registered key (requests st) (next_request st))
  end.
Proof.
  intros Hex Hjobs Hwf Hkey. unfold step, on_post_rpc. rewrite Hex, auth_bearer.
  rewrite (rpc_well_formed _ payload i _ Hwf), Hkey. simpl.
  unfold then_jobs, run_jobs.
  destruct (pending st !! key); simpl; rewrite Hjobs; simpl; rewrite ?app_nil_r;
    (rewrite set_jobs_id by exact Hjobs); reflexivity.
Qed.

(** The frame of a reply whose [id] prints as [key], as one chunk on
    an empty [readBuffer]: the look-up in [pending] decides. *)
Lemma on_stdout_data_reply st msg i key :
  readBuffer st = [] -> jobs st = [] ->
  roundtrips msg -> prop "id" msg = Normal (Some i) -> i <> Null ->
  to_string Number_toString i = Normal key ->
  on_stdout_data (encode msg) st =
  match pending st !! key with
  | Some r =>
      then_jobs ([Resolve r msg],
                 settle r (Fulfilled msg) (set_pending (delete key (pending st)) st))
  | None => ([LogExtra msg], st)
  end.
Proof.
  intros Hbuf Hjobs Hrt Hid Hnn Hkey. unfold on_stdout_data. rewrite Hbuf. simpl app.
  rewrite (tryParseMessages_frame _ (JSON_stringify msg) []).
  2:{ simpl. rewrite app_nil_r. reflexivity. }
  unfold try_message. rewrite (on_message_id _ msg i _ Hrt Hid Hnn), Hkey. simpl.
  change (set_readBuffer [] (set_readBuffer (encode msg) st)) with (set_readBuffer [] st).
  rewrite (set_readBuffer_id [] st Hbuf).
  destruct (pending st !! key) as [r|]; simpl.
  - rewrite tryParseMessages_no_sep
      by (rewrite settle_readBuffer; simpl; rewrite Hbuf; reflexivity).
    reflexivity.
  - rewrite tryParseMessages_no_sep by (rewrite Hbuf; reflexivity).
    simpl. apply then_jobs_nothing_more. exact Hjobs.
Qed.

(** C5.  No step of the event loop replaces the request an identifier
    is pending for.  A call whose [id] prints as a key that is
    pending is answered 409 and changes nothing but the count of
    requests; with a key that is not pending the call is registered
    under it and its frame written.  The reply that resolves an entry
    removes it, and so does the timer that finds it, so that the
    identifier can be registered again. *)
Theorem one_entry_per_identifier :
  (forall (i : input) (st : bridge) (key : string) (r r' : nat),
      pending st !! key = Some r -> pending (step i st).2 !! key = Some r' -> r' = r)
  /\ (forall (st : bridge) (payload id : value) (key : string),
         exited st = false -> jobs st = [] ->
         well_formed_call payload id -> to_string Number_toString id = Normal key ->
         (forall r0, pending st !! key = Some r0 ->
                     step (PostRpc (bearer BRIDGE_TOKEN) (Some payload)) st
                     = ([Respond (requests st) 409 (error_body "duplicate id in flight")],
                        next_request st))
         /\ (pending st !! key = None ->
             (step (PostRpc (bearer BRIDGE_TOKEN) (Some payload)) st).1 = writeMessage payload
             /\ pending (step (PostRpc (bearer BRIDGE_TOKEN) (Some payload)) st).2 !! key
                = Some (requests st)))
  /\ (forall (st : bridge) (msg id : value) (key : string) (r0 : nat),
         readBuffer st = [] -> jobs st = [] ->
         roundtrips msg -> prop "id" msg = Normal (Some id) -> id <> Null ->
         to_string Number_toString id = Normal key ->
         pending st !! key = Some r0 ->
         In (Resolve r0 msg) (on_stdout_data (encode msg) st).1
         /\ pending (on_stdout_data (encode msg) st).2 !! key = None)
  /\ (forall (st : bridge) (t : timer),
         pending (on_timeout t st).2 !! timer_key t = None).
Proof.
  split; [|split; [|split]].
  - intros i st key r r' Hr Hr'. unfold step in Hr'.
    destruct (exited st); [simpl in Hr'; congruence|].
    destruct i as [chunk|chunk|code| |authorization body|ms]; cbv beta iota in Hr'.
    + unfold on_stdout_data in Hr'. rewrite then_jobs_pending in Hr'.
      apply tryParseMessages_pending in Hr'. simpl in Hr'. congruence.
    + simpl in Hr'. congruence.
    + simpl in Hr'. congruence.
    + simpl in Hr'. congruence.
    + rewrite then_jobs_pending in Hr'. unfold on_post_rpc in Hr'.
      destruct (auth BRIDGE_TOKEN authorization) as [[status b]|]; [simpl in Hr'; congruence|].
      destruct (rpc_outcomes (requests st) body (next_request st))
        as [[e Hrpc]|[(status & b & _ & Hrpc)|(payload & idKey & Hfree & Hrpc)]];
        rewrite Hrpc in Hr'; simpl in Hr'; try congruence.
      destruct (decide (idKey = key)) as [->|Hne].
      * simpl in Hfree. congruence.
      * rewrite lookup_insert_ne in Hr' by exact Hne. congruence.
    + apply on_elapse_pending in Hr'. congruence.
  - intros st payload id key Hex Hjobs Hwf Hkey. split.
    + intros r0 Hr0. rewrite (step_post_rpc st payload id key Hex Hjobs Hwf Hkey), Hr0.
      reflexivity.
    + intros Hfree. rewrite (step_post_rpc st payload id key Hex Hjobs Hwf Hkey), Hfree.
      simpl. split; [reflexivity|]. apply lookup_insert_eq.
  - intros st msg id key r0 Hbuf Hjobs Hrt Hid Hnn Hkey Hr0.
    rewrite (on_stdout_data_reply st msg id key Hbuf Hjobs Hrt Hid Hnn Hkey), Hr0.
    split.
    + unfold then_jobs, run_jobs. simpl. left. reflexivity.
    + rewrite then_jobs_pending. cbn [snd]. rewrite settle_pending.
      simpl. apply lookup_delete_eq.
  - intros st t. unfold on_timeout.
    destruct (pending st !! timer_key t) eqn:E; simpl; [|exact E].
    rewrite settle_pending. simpl. apply lookup_delete_eq.
Qed.

(** The continuation of a promise that was not settled before. *)
Lemma then_jobs_settle e r o st :
  jobs st = [] -> r ∉ settled st ->
  (then_jobs ([e], settle r o st)).1 = [e; continuation (r, o)]
  /\ jobs (then_jobs ([e], settle r o st)).2 = []
  /\ r ∈ settled (then_jobs ([e], settle r o st)).2.
Proof.
  intros Hjobs Hfresh. unfold then_jobs, run_jobs, settle.
  destruct (decide (r ∈ settled st)) as [Hin|_]; [contradiction|].
  simpl. rewrite Hjobs. simpl. repeat split.
  apply elem_of_union. left. apply elem_of_singleton. reflexivity.
Qed.

(** C6.  The key of an identifier is its string: a string stands for
    itself and a number for its numeral.  So an entry pending under
    the key [key] is resolved by a message whose [id] is a number
    that prints as [key], and a call registered with the string
    [key] for [id] gets the reply whose [id] is that number, with
    status 200.  With a number or a string for [id], neither
    [POST /rpc] nor the [try] block throws. *)
Theorem identifiers_compare_as_strings :
  (forall s : string, to_string Number_toString (Str s) = Normal s)
  /\ (forall n : number, to_string Number_toString (Num n) = Normal (Number_toString n))
  /\ (forall (st : bridge) (msg : value) (n : number) (key : string) (r : nat),
         readBuffer st = [] -> jobs st = [] ->
         roundtrips msg -> prop "id" msg = Normal (Some (Num n)) ->
         Number_toString n = key ->
         pending st !! key = Some r ->
         In (Resolve r msg) (on_stdout_data (encode msg) st).1
         /\ pending (on_stdout_data (encode msg) st).2 !! key = None)
  /\ (forall (st : bridge) (payload msg : value) (n : number) (key : string),
         exited st = false -> readBuffer st = [] -> jobs st = [] ->
         requests st ∉ settled st ->
         well_formed_call payload (Str key) -> pending st !! key = None ->
         roundtrips msg -> prop "id" msg = Normal (Some (Num n)) ->
         Number_toString n = key ->
         (run [PostRpc (bearer BRIDGE_TOKEN) (Some payload); StdoutData (encode msg)] st).1
         = writeMessage payload
             ++ [Resolve (requests st) msg; Respond (requests st) 200 msg])
  /\ (forall (r : nat) (payload id : value) (st : bridge),
         well_formed_call payload id -> number_or_string id ->
         exists res, rpc r (Some payload) st = Normal res)
  /\ (forall (jsonBuf : buffer) (msg id : value) (st : bridge),
         JSON_parse jsonBuf = Some msg -> prop "id" msg = Normal (Some id) ->
         number_or_string id ->
         exists res, on_message jsonBuf st = Normal res).
Proof.
  split; [reflexivity|]. split; [reflexivity|].
  split; [|split; [|split]].
  - intros st msg n key r Hbuf Hjobs Hrt Hid Hkey Hr.
    rewrite (on_stdout_data_reply st msg (Num n) key Hbuf Hjobs Hrt Hid)
      by (try discriminate; rewrite <- Hkey; reflexivity).
    rewrite Hr. split.
    + unfold then_jobs, run_jobs. simpl. left. reflexivity.
    + rewrite then_jobs_pending. cbn [snd]. rewrite settle_pending.
      simpl. apply lookup_delete_eq.
  - intros st payload msg n key Hex Hbuf Hjobs Hfresh Hwf Hfree Hrt Hid Hkey.
    cbn [run].
    rewrite (step_post_rpc st payload (Str key) key Hex Hjobs Hwf eq_refl), Hfree.
    set (st1 := registered key (requests st) (next_request st)).
    unfold step. change (exited st1) with (exited st). rewrite Hex.
    rewrite (on_stdout_data_reply st1 msg (Num n) key Hbuf Hjobs Hrt Hid)
      by (try discriminate; rewrite <- Hkey; reflexivity).
    assert (Hl : pending st1 !! key = Some (requests st)) by apply lookup_insert_eq.
    rewrite Hl.
    destruct (then_jobs_settle (Resolve (requests st) msg) (requests st) (Fulfilled msg)
                (set_pending (delete key (pending st1)) st1) Hjobs Hfresh) as (Hout & _).
    destruct (then_jobs _) as [out st2]. simpl in Hout. subst out.
    simpl. rewrite ?app_nil_r. reflexivity.
  - intros r payload id st Hwf Hid.
    rewrite (rpc_well_formed r payload id st Hwf).
    destruct id; try contradiction; simpl;
      match goal with |- context [pending st !! ?k] => destruct (pending st !! k) end;
      eauto.
  - intros jsonBuf msg id st Hparse Hid Hns.
    rewrite (on_message_id jsonBuf msg id st Hparse Hid)
      by (destruct id; try contradiction; discriminate).
    destruct id; try contradiction; simpl;
      match goal with |- context [pending st !! ?k] => destruct (pending st !! k) end;
      eauto.
Qed.

(** After [process.exit] no input has any effect. *)
Lemma run_exited inputs st : exited st = true -> run inputs st = ([], st).
Proof.
  intros Hex. induction inputs as [|i inputs IH]; simpl; [reflexivity|].
  unfold step. rewrite Hex, IH. reflexivity.
Qed.

(** C8, as the code has it.  When the child exits, with whatever
    code, the bridge logs the code and exits itself with status 1.
    No [reject] is called and no response is sent: the pending
    entries and their promises are left as they are.  From then on
    nothing runs, so no call is accepted. *)
Theorem child_exit_stops_the_bridge (st : bridge) (code : option Z) :
  exited st = false ->
  step (ChildExit code) st = ([LogExit code; ProcessExit 1], set_exited st)
  /\ pending (step (ChildExit code) st).2 = pending st
  /\ settled (step (ChildExit code) st).2 = settled st
  /\ (forall inputs, run inputs (step (ChildExit code) st).2
                     = ([], (step (ChildExit code) st).2)).
Proof.
  intros Hex. unfold step. rewrite Hex. simpl. repeat split.
  intros inputs. apply run_exited. reflexivity.
Qed.

(** A timer that finds the entry of its own call: the call is
    rejected, its request answered 504 with the detail [timeout], and
    the entry removed, so that a reply that comes later is logged as
    an extra. *)
Lemma timeout_of_own_entry (st : bridge) (t : timer) :
  jobs st = [] ->
  pending st !! timer_key t = Some (timer_request t) ->
  timer_request t ∉ settled st ->
  (then_jobs (on_timeout t st)).1
  = [Reject (timer_request t) "timeout"; Respond (timer_request t) 504 timeout_body]
  /\ pending (then_jobs (on_timeout t st)).2 !! timer_key t = None.
Proof.
  intros Hjobs Hown Hfresh. unfold on_timeout. rewrite Hown. split.
  - apply (then_jobs_settle _ _ (Rejected "timeout")); assumption.
  - rewrite then_jobs_pending. cbn [snd]. rewrite settle_pending.
    simpl. apply lookup_delete_eq.
Qed.

End Table.

(** ** The state and the answers sent *)

Section Consistency.

Context `{Runtime}.
Variable BRIDGE_TOKEN : string.

Lemma responses_to_app r out out' :
  responses_to r (out ++ out') = responses_to r out ++ responses_to r out'.
Proof. unfold responses_to. apply omap_app. Qed.

Lemma count_jobs_app r js js' : count_jobs r (js ++ js') = count_jobs r js + count_jobs r js'.
Proof. unfold count_jobs. rewrite filter_app, length_app. reflexivity. Qed.

Lemma count_jobs_zero r js : (forall o, ~ In (r, o) js) -> count_jobs r js = 0.
Proof.
  unfold count_jobs. induction js as [|[r' o] js IH]; intros Hno; [reflexivity|].
  rewrite filter_cons. destruct (decide ((r', o).1 = r)) as [Heq|Hne]; simpl in *.
  - subst r'. exfalso. apply (Hno o). left. reflexivity.
  - apply IH. intros o' Hin. apply (Hno o'). right. exact Hin.
Qed.

Lemma responses_to_jobs_length r js :
  length (responses_to r (map continuation js)) = count_jobs r js.
Proof.
  unfold count_jobs, responses_to.
  induction js as [|[r' o] js IH]; [reflexivity|].
  rewrite filter_cons. simpl.
  destruct o as [response|message]; simpl;
    destruct (decide (r' = r)); simpl; rewrite <- IH; reflexivity.
Qed.

Lemma responses_to_jobs_In r js status body :
  In (status, body) (responses_to r (map continuation js)) ->
  exists o, In (r, o) js /\ continuation (r, o) = Respond r status body.
Proof.
  unfold responses_to. induction js as [|[r' o] js IH]; simpl; [contradiction|].
  destruct o as [response|message]; simpl;
    destruct (decide (r' = r)) as [->|Hne]; simpl;
    try (intros [[= <- <-]|Hin]; [eexists; split; [left; reflexivity|reflexivity]|]);
    try intros Hin;
    destruct (IH Hin) as (o & Ho & Hc); exists o; split; auto.
Qed.

(** Fewer references, more requests received: still consistent. *)
Lemma consistent_weaken firing firing' st st' out :
  consistent firing st out ->
  (forall r, referenced firing' st' r -> referenced firing st r) ->
  settled st' = settled st -> jobs st' = jobs st -> requests st <= requests st' ->
  consistent firing' st' out.
Proof.
  intros [H1 H2 H3 H4 H5 H6] Hrefs Hs Hj Hr. constructor; rewrite ?Hs, ?Hj.
  - intros r Href. apply Hrefs, H1 in Href. lia.
  - intros r Hin. apply H2 in Hin. lia.
  - intros r Hne. apply H3 in Hne. lia.
  - exact H4.
  - exact H5.
  - intros r status body Hin.
    destruct (H6 r status body Hin) as [Hl|(Hns & Hnr & Him & Heq)]; [left; exact Hl|].
    right. repeat split; auto.
Qed.

(** Effects that answer nobody. *)
Lemma consistent_quiet firing st out out' :
  consistent firing st out -> (forall r, responses_to r out' = []) ->
  consistent firing st (out ++ out').
Proof.
  intros [H1 H2 H3 H4 H5 H6] Hq.
  constructor; try assumption; intros r; rewrite responses_to_app, Hq, app_nil_r; auto.
Qed.

(** [resolve] or [reject] of a request that is referenced. *)
Lemma consistent_settle firing st out r o :
  consistent firing st out -> referenced firing st r -> promise_outcome o ->
  consistent firing (settle r o st) out.
Proof.
  intros Hc Href Ho. unfold settle.
  destruct (decide (r ∈ settled st)) as [Hin|Hfresh]; [exact Hc|].
  destruct Hc as [H1 H2 H3 H4 H5 H6].
  assert (Hnojob : count_jobs r (jobs st) = 0).
  { apply count_jobs_zero. intros o' Hj. apply H4 in Hj. tauto. }
  assert (Hnoresp : responses_to r out = []).
  { destruct (responses_to r out) as [|[status body] l] eqn:E; [reflexivity|].
    destruct (H6 r status body) as [[Hs _]|(_ & Hnr & _)]; [rewrite E; left; reflexivity| |];
      contradiction. }
  constructor; simpl.
  - exact H1.
  - intros r' [->%elem_of_singleton|Hin]%elem_of_union; [apply H1; exact Href|apply H2; exact Hin].
  - exact H3.
  - intros r' o' [Hin|[[= <- <-]|[]]]%in_app_iff.
    + destruct (H4 r' o' Hin) as [Hs Hp].
      split; [apply elem_of_union; right; exact Hs|exact Hp].
    + split; [apply elem_of_union; left; apply elem_of_singleton; reflexivity|exact Ho].
  - intros r' Hin. rewrite count_jobs_app.
    destruct (decide (r' = r)) as [->|Hne].
    + rewrite Hnoresp, Hnojob. unfold count_jobs. simpl.
      rewrite filter_cons. simpl. destruct (decide (r = r)); [reflexivity|congruence].
    + assert (Hold : r' ∈ settled st).
      { apply elem_of_union in Hin. destruct Hin as [Hin|Hin]; [|exact Hin].
        apply elem_of_singleton in Hin. contradiction. }
      rewrite <- (H5 r' Hold). unfold count_jobs at 2. simpl.
      rewrite filter_cons. simpl. destruct (decide (r = r')); [congruence|]. simpl. lia.
  - intros r' status body Hin.
    destruct (H6 r' status body Hin) as [[Hs Hp]|(Hns & Hnr & Him & Heq)].
    + left. split; [apply elem_of_union; right; exact Hs|exact Hp].
    + right. repeat split; auto.
      intros [->%elem_of_singleton|Hin']%elem_of_union; contradiction.
Qed.

Lemma settle_set_pending r o p st :
  settle r o (set_pending p st) = set_pending p (settle r o st).
Proof. unfold settle. simpl. destruct (decide (r ∈ settled st)); reflexivity. Qed.

(** The queued continuations run. *)
Lemma consistent_run_jobs firing st out :
  consistent firing st out ->
  consistent firing (set_jobs [] st) (out ++ map continuation (jobs st)).
Proof.
  intros [H1 H2 H3 H4 H5 H6]. constructor; simpl.
  - exact H1.
  - exact H2.
  - intros r. rewrite responses_to_app. intros Hne.
    destruct (responses_to r out) as [|x l] eqn:E.
    + destruct (responses_to r (map continuation (jobs st))) as [|[status body] l'] eqn:E';
        [contradiction|].
      destruct (responses_to_jobs_In r (jobs st) status body) as (o & Ho & _);
        [rewrite E'; left; reflexivity|].
      apply H2. apply (H4 r o Ho).
    + apply H3. rewrite E. discriminate.
  - contradiction.
  - intros r Hin. rewrite responses_to_app, length_app, responses_to_jobs_length.
    change (count_jobs r []) with 0. specialize (H5 r Hin). lia.
  - intros r status body. rewrite responses_to_app. intros [Hin|Hin]%in_app_iff.
    + destruct (H6 r status body Hin) as [Hl|(Hns & Hnr & Him & Heq)]; [left; exact Hl|].
      right. repeat split; auto.
      assert (Hnone : responses_to r (map continuation (jobs st)) = []).
      { apply length_zero_iff_nil. rewrite responses_to_jobs_length.
        apply count_jobs_zero. intros o Ho. apply H4 in Ho. tauto. }
      rewrite Hnone, app_nil_r. exact Heq.
    + destruct (responses_to_jobs_In r (jobs st) status body Hin) as (o & Ho & Hcont).
      destruct (H4 r o Ho) as [Hs Hp]. left. split; [exact Hs|].
      destruct Hp as [[msg ->]| ->]; simpl in Hcont; injection Hcont as <- <-.
      * left. reflexivity.
      * right. split; reflexivity.
Qed.

(** The handler answers the request being received at once. *)
Lemma consistent_respond firing st out status body :
  consistent firing st out -> immediate_status status ->
  consistent firing (next_request st) (out ++ [Respond (requests st) status body]).
Proof.
  intros [H1 H2 H3 H4 H5 H6] Him.
  assert (Hresp : forall r,
             responses_to r (out ++ [Respond (requests st) status body])
             = responses_to r out
                 ++ (if decide (requests st = r) then [(status, body)] else [])).
  { intros r. rewrite responses_to_app. f_equal. unfold responses_to. simpl.
    destruct (decide (requests st = r)); reflexivity. }
  assert (Hnew : responses_to (requests st) out = []).
  { destruct (responses_to (requests st) out) eqn:E; [reflexivity|].
    assert (requests st < requests st) by (apply H3; rewrite E; discriminate). lia. }
  constructor; simpl.
  - intros r Href. apply H1 in Href. lia.
  - intros r Hin. apply H2 in Hin. lia.
  - intros r. rewrite Hresp. destruct (decide (requests st = r)) as [<-|Hne]; [lia|].
    rewrite app_nil_r. intros Hne'. apply H3 in Hne'. lia.
  - exact H4.
  - intros r Hin. rewrite Hresp.
    destruct (decide (requests st = r)) as [<-|Hne]; [apply H2 in Hin; lia|].
    rewrite app_nil_r. apply H5. exact Hin.
  - intros r status' body'. rewrite Hresp.
    destruct (decide (requests st = r)) as [<-|Hne].
    + rewrite Hnew. simpl. intros [[= <- <-]|[]]. right. repeat split; auto.
      * intros Hin. apply H2 in Hin. lia.
      * intros Href. apply H1 in Href. lia.
    + rewrite app_nil_r. apply H6.
Qed.

(** The handler registers the request being received under a free key. *)
Lemma consistent_register firing st out key payload :
  consistent firing st out -> pending st !! key = None ->
  consistent firing (registered key (requests st) (next_request st))
             (out ++ writeMessage payload).
Proof.
  intros Hc Hfree. apply consistent_quiet; [|reflexivity].
  assert (Hrefs : forall r, referenced firing (registered key (requests st) (next_request st)) r ->
                            r = requests st \/ referenced firing st r).
  { intros r [[k Hk]|(t & Ht & Hr)]; simpl in *.
    - destruct (decide (key = k)) as [->|Hne].
      + rewrite lookup_insert_eq in Hk. left. congruence.
      + rewrite lookup_insert_ne in Hk by exact Hne. right. left. eauto.
    - rewrite app_assoc in Ht. apply in_app_iff in Ht. destruct Ht as [Ht|[<-|[]]].
      + right. right. eauto.
      + left. simpl in Hr. congruence. }
  destruct Hc as [H1 H2 H3 H4 H5 H6]. constructor; simpl.
  - intros r Href. destruct (Hrefs r Href) as [->|Hold]; [lia|]. apply H1 in Hold. lia.
  - intros r Hin. apply H2 in Hin. lia.
  - intros r Hne. apply H3 in Hne. lia.
  - exact H4.
  - exact H5.
  - intros r status body Hin.
    destruct (H6 r status body Hin) as [Hl|(Hns & Hnr & Him & Heq)]; [left; exact Hl|].
    right. repeat split; auto.
    intros Href. destruct (Hrefs r Href) as [->|Hold]; [|contradiction].
    assert (requests st < requests st) by (apply H3; rewrite Heq; discriminate). lia.
Qed.

Lemma consistent_try_message firing st out jsonBuf :
  consistent firing st out ->
  consistent firing (try_message jsonBuf st).2 (out ++ (try_message jsonBuf st).1).
Proof.
  intros Hc.
  destruct (try_message_cases jsonBuf st)
    as [[e ->]|[(msg & _ & ->)|(msg & key & r & _ & Hkey & ->)]]; simpl.
  - apply consistent_quiet; [exact Hc|reflexivity].
  - apply consistent_quiet; [exact Hc|reflexivity].
  - apply consistent_quiet; [|reflexivity].
    rewrite settle_set_pending.
    apply (consistent_weaken firing firing (settle r (Fulfilled msg) st)); try reflexivity.
    + apply consistent_settle; [exact Hc|left; eauto|left; eauto].
    + intros r' [[k Hk]|Ht].
      * left. exists k. rewrite settle_pending.
        simpl in Hk. apply lookup_delete_Some in Hk. tauto.
      * right. exact Ht.
Qed.

Lemma consistent_tryParseMessages firing st out :
  consistent firing st out ->
  consistent firing (tryParseMessages st).2 (out ++ (tryParseMessages st).1).
Proof.
  apply (tryParseMessages_preserves (consistent firing)).
  - intros st' out' buf Hc.
    apply (consistent_weaken firing firing st'); auto.
  - intros st' out' jsonBuf. apply consistent_try_message.
Qed.

Lemma consistent_then_jobs firing out r :
  consistent firing r.2 (out ++ r.1) ->
  consistent firing (then_jobs r).2 (out ++ (then_jobs r).1).
Proof.
  intros Hc. unfold then_jobs, run_jobs. simpl. rewrite app_assoc.
  apply consistent_run_jobs. exact Hc.
Qed.

(** A timer fires: it is no longer to be fired. *)
Lemma consistent_on_timeout t firing st out :
  consistent (t :: firing) st out ->
  consistent firing (then_jobs (on_timeout t st)).2
             (out ++ (then_jobs (on_timeout t st)).1).
Proof.
  intros Hc. apply consistent_then_jobs. unfold on_timeout.
  destruct (pending st !! timer_key t) as [r|] eqn:Ekey; simpl.
  - apply consistent_quiet; [|reflexivity].
    rewrite settle_set_pending.
    apply (consistent_weaken (t :: firing) firing
             (settle (timer_request t) (Rejected "timeout") st)); try reflexivity.
    + apply consistent_settle; [exact Hc| |right; reflexivity].
      right. exists t. split; [left; reflexivity|reflexivity].
    + intros r' [[k Hk]|(t' & Ht' & Hr')].
      * left. exists k. rewrite settle_pending.
        simpl in Hk. apply lookup_delete_Some in Hk. tauto.
      * right. exists t'. split; [|exact Hr'].
        simpl in Ht'. rewrite settle_timers in Ht'. rewrite settle_timers.
        right. exact Ht'.
  - rewrite app_nil_r.
    apply (consistent_weaken (t :: firing) firing st); auto.
    intros r' [Hk|(t' & Ht' & Hr')]; [left; exact Hk|].
    right. exists t'. split; [right; exact Ht'|exact Hr'].
Qed.

Lemma consistent_on_elapse ms st out :
  consistent [] st out -> consistent [] (on_elapse ms st).2 (out ++ (on_elapse ms st).1).
Proof.
  intros Hc. unfold on_elapse.
  destruct (List.partition _ (timers st)) as [ready later] eqn:Epart.
  apply (fold_fire_preserves (fun firing st' out' => consistent firing st' out')).
  - intros t ts st' out'. apply consistent_on_timeout.
  - rewrite app_nil_r.
    apply (consistent_weaken [] ready st); auto.
    intros r [Hk|(t & Ht & Hr)]; [left; exact Hk|].
    right. exists t. split; [|exact Hr]. simpl in *.
    apply in_app_iff in Ht.
    apply (elements_in_partition _ _ Epart). exact Ht.
Qed.

Lemma consistent_on_post_rpc authorization body st out :
  consistent [] st out ->
  consistent [] (on_post_rpc BRIDGE_TOKEN authorization body st).2
             (out ++ (on_post_rpc BRIDGE_TOKEN authorization body st).1).
Proof.
  intros Hc. unfold on_post_rpc.
  assert (Hauth : forall status b,
             auth BRIDGE_TOKEN authorization = Some (status, b) -> immediate_status status).
  { unfold auth, immediate_status. intros status b.
    destruct (negb (String.prefix _ _)); [intros [= <- <-]; auto|].
    destruct (negb (_ =? _)%string); [intros [= <- <-]; auto|discriminate]. }
  destruct (auth BRIDGE_TOKEN authorization) as [[status b]|] eqn:Eauth.
  - simpl. apply consistent_respond; [exact Hc|]. apply (Hauth status b eq_refl).
  - destruct (rpc_outcomes (requests st) body (next_request st))
      as [[e ->]|[(status & b & Him & ->)|(payload & idKey & Hfree & ->)]]; simpl.
    + apply consistent_quiet; [|reflexivity].
      apply (consistent_weaken [] [] st); auto. simpl. lia.
    + apply consistent_respond; assumption.
    + apply consistent_register; assumption.
Qed.

(** Every step of the event loop keeps the state and the answers
    consistent. *)
Lemma consistent_step i st out :
  consistent [] st out -> consistent [] (step BRIDGE_TOKEN i st).2
                                     (out ++ (step BRIDGE_TOKEN i st).1).
Proof.
  intros Hc. unfold step.
  destruct (exited st); [simpl; rewrite app_nil_r; exact Hc|].
  destruct i as [chunk|chunk|code| |authorization body|ms].
  - unfold on_stdout_data. apply consistent_then_jobs, consistent_tryParseMessages.
    apply (consistent_weaken [] [] st); auto.
  - simpl. apply consistent_quiet; [exact Hc|reflexivity].
  - simpl. apply consistent_quiet; [|reflexivity].
    apply (consistent_weaken [] [] st); auto.
  - simpl. apply consistent_quiet; [exact Hc|reflexivity].
  - apply consistent_then_jobs, consistent_on_post_rpc. exact Hc.
  - apply consistent_on_elapse. exact Hc.
Qed.

Lemma jobs_step i st : jobs st = [] -> jobs (step BRIDGE_TOKEN i st).2 = [].
Proof.
  intros Hj. unfold step. destruct (exited st); [exact Hj|].
  destruct i as [chunk|chunk|code| |authorization body|ms]; try reflexivity; try exact Hj.
  unfold on_elapse. destruct (List.partition _ (timers st)) as [ready later].
  apply (fold_fire_preserves (fun _ st' _ => jobs st' = []) (fun _ _ _ _ _ => eq_refl)
           ready _ [] []).
  exact Hj.
Qed.

Lemma run_app inputs inputs' st :
  run BRIDGE_TOKEN (inputs ++ inputs') st
  = ((run BRIDGE_TOKEN inputs st).1
       ++ (run BRIDGE_TOKEN inputs' (run BRIDGE_TOKEN inputs st).2).1,
     (run BRIDGE_TOKEN inputs' (run BRIDGE_TOKEN inputs st).2).2).
Proof.
  revert st. induction inputs as [|i inputs IH]; intros st; simpl.
  - destruct (run BRIDGE_TOKEN inputs' st). reflexivity.
  - destruct (step BRIDGE_TOKEN i st) as [out1 st1]. rewrite IH.
    destruct (run BRIDGE_TOKEN inputs st1) as [out2 st2]. simpl.
    destruct (run BRIDGE_TOKEN inputs' st2) as [out3 st3]. simpl.
    rewrite app_assoc. reflexivity.
Qed.

Lemma consistent_run inputs st out :
  consistent [] st out -> jobs st = [] ->
  consistent [] (run BRIDGE_TOKEN inputs st).2 (out ++ (run BRIDGE_TOKEN inputs st).1)
  /\ jobs (run BRIDGE_TOKEN inputs st).2 = [].
Proof.
  revert st out. induction inputs as [|i inputs IH]; intros st out Hc Hj; simpl.
  - rewrite app_nil_r. auto.
  - pose proof (consistent_step i st out Hc) as Hc1.
    pose proof (jobs_step i st Hj) as Hj1.
    destruct (step BRIDGE_TOKEN i st) as [out1 st1]. simpl in *.
    destruct (IH st1 (out ++ out1) Hc1 Hj1) as [Hc2 Hj2].
    destruct (run BRIDGE_TOKEN inputs st1) as [out2 st2]. simpl in *.
    rewrite app_assoc. auto.
Qed.

Lemma consistent_init : consistent [] init [].
Proof.
  constructor.
  - intros r [[k Hk]|(t & [] & _)].
    change (pending init) with (∅ : gmap string nat) in Hk.
    rewrite lookup_empty in Hk. discriminate.
  - intros r Hin. change (settled init) with (∅ : gset nat) in Hin.
    apply not_elem_of_empty in Hin. contradiction.
  - intros r Hne. contradiction.
  - intros r o [].
  - intros r Hin. change (settled init) with (∅ : gset nat) in Hin.
    apply not_elem_of_empty in Hin. contradiction.
  - intros r status body [].
Qed.

(** At most one answer per request: none, or the one the invariant
    describes. *)
Lemma consistent_answers firing st out r :
  consistent firing st out -> jobs st = [] ->
  responses_to r out = []
  \/ exists status body,
      responses_to r out = [(status, body)]
      /\ ((r ∈ settled st /\ promise_response status body)
          \/ ((r ∉ settled st) /\ immediate_status status)).
Proof.
  intros [H1 H2 H3 H4 H5 H6] Hj.
  destruct (responses_to r out) as [|[status body] l] eqn:E; [left; reflexivity|].
  right. exists status, body.
  destruct (H6 r status body) as [[Hs Hp]|(Hns & _ & Him & Heq)].
  - rewrite E. left. reflexivity.
  - specialize (H5 r Hs). rewrite E, Hj in H5. simpl in H5.
    destruct l; [|simpl in H5; lia]. auto.
  - rewrite E in Heq. rewrite Heq. auto.
Qed.

(** C10.  Whatever happens to the bridge from its start, a request
    is answered at most once: never, or once by the continuation of
    its promise, with the reply (200) or with the timeout (504), or
    once at once by the handler when no promise was made.  Once its
    promise is settled nothing that happens later answers it again,
    be it a timer or one more reply with the same [id].  Both paths
    look the key up first and delete it: a timer that does not find
    its key does nothing, and [resolve] or [reject] is only called
    when the key was found, and the key is gone afterwards. *)
Theorem each_call_fulfilled_at_most_once :
  (forall (inputs : list input) (r : nat),
      responses_to r (run BRIDGE_TOKEN inputs init).1 = []
      \/ exists status body,
          responses_to r (run BRIDGE_TOKEN inputs init).1 = [(status, body)]
          /\ ((r ∈ settled (run BRIDGE_TOKEN inputs init).2 /\ promise_response status body)
              \/ ((r ∉ settled (run BRIDGE_TOKEN inputs init).2) /\ immediate_status status)))
  /\ (forall (inputs : list input) (i : input) (r : nat),
         r ∈ settled (run BRIDGE_TOKEN inputs init).2 ->
         responses_to r (step BRIDGE_TOKEN i (run BRIDGE_TOKEN inputs init).2).1 = [])
  /\ (forall (st : bridge) (t : timer),
         pending st !! timer_key t = None -> on_timeout t st = ([], st))
  /\ (forall (st : bridge) (jsonBuf : buffer) (r : nat) (msg : value),
         In (Resolve r msg) (try_message jsonBuf st).1 ->
         exists key, pending st !! key = Some r
                     /\ pending (try_message jsonBuf st).2 !! key = None)
  /\ (forall (st : bridge) (t : timer) (r : nat) (message : string),
         In (Reject r message) (on_timeout t st).1 ->
         r = timer_request t
         /\ is_Some (pending st !! timer_key t)
         /\ pending (on_timeout t st).2 !! timer_key t = None).
Proof.
  split; [|split; [|split; [|split]]].
  - intros inputs r.
    destruct (consistent_run inputs init [] consistent_init eq_refl) as [Hc Hj].
    apply (consistent_answers [] _ _ r Hc Hj).
  - intros inputs i r Hs.
    destruct (consistent_run inputs init [] consistent_init eq_refl) as [Hc Hj].
    simpl in Hc.
    pose proof (settled_once _ _ _ Hc r Hs) as Honce. rewrite Hj in Honce.
    change (count_jobs r []) with 0 in Honce.
    pose proof (consistent_step i _ _ Hc) as Hc'.
    pose proof (jobs_step i _ Hj) as Hj'.
    destruct (consistent_answers [] _ _ r Hc' Hj') as [Hnone|(status & body & Hone & _)].
    + rewrite responses_to_app in Hnone. apply app_eq_nil in Hnone. tauto.
    + rewrite responses_to_app in Hone.
      apply (f_equal (@length _)) in Hone. rewrite length_app in Hone.
      simpl in Hone, Honce. apply length_zero_iff_nil. lia.
  - intros st t Hnone. unfold on_timeout. rewrite Hnone. reflexivity.
  - intros st jsonBuf r msg Hin.
    destruct (try_message_cases jsonBuf st)
      as [[e Heq]|[(msg' & _ & Heq)|(msg' & key & r' & _ & Hkey & Heq)]];
      rewrite Heq in Hin |- *; simpl in Hin.
    + destruct Hin as [Hin|[]]. discriminate.
    + destruct Hin as [Hin|[]]. discriminate.
    + destruct Hin as [[= <- <-]|[]]. exists key. split; [exact Hkey|].
      simpl. rewrite settle_pending. simpl. apply lookup_delete_eq.
  - intros st t r message. unfold on_timeout.
    destruct (pending st !! timer_key t) as [r0|] eqn:Ekey; simpl; [|contradiction].
    intros [[= <- <-]|[]]. repeat split; [eauto|].
    rewrite settle_pending. simpl. apply lookup_delete_eq.
Qed.

End Consistency.

(** ** The frame of [null], in chunks and after a block without length *)

Section NullFrames.

Context `{Runtime}.
Variable BRIDGE_TOKEN : string.

(** The frame of [null], alone in [readBuffer]: consumed, and logged
    as a parse error. *)
Lemma tryParseMessages_null_frame (st : bridge) :
  readBuffer st = encode Null -> roundtrips Null ->
  tryParseMessages st = ([LogParseError TypeError], set_readBuffer [] st).
Proof.
  intros Hbuf Hrt.
  rewrite (tryParseMessages_frame st (JSON_stringify Null) []).
  2:{ rewrite Hbuf, app_nil_r. apply encode_frame. }
  rewrite try_message_null by exact Hrt. cbn [fst snd].
  rewrite tryParseMessages_no_sep by reflexivity. reflexivity.
Qed.

(** C2, at the input on which it fails.  The bytes of [encode null]
    arrive cut into chunks at any places.  The chunks before the last
    are kept and produce nothing, as they should; the last one
    completes the frame, which is consumed, but the value is not
    handed on: reading [msg.id] throws inside the [try] and the
    [catch] logs a parse error. *)
Theorem null_frame_lost_in_chunks (st : bridge) (chunks : list buffer) (last : buffer) :
  readBuffer st = [] -> jobs st = [] -> exited st = false -> roundtrips Null ->
  last <> [] -> List.concat chunks ++ last = encode Null ->
  run BRIDGE_TOKEN (map StdoutData chunks) st = ([], set_readBuffer (List.concat chunks) st)
  /\ run BRIDGE_TOKEN (map StdoutData chunks ++ [StdoutData last]) st
     = ([LogParseError TypeError], st)
  /\ omap delivered (run BRIDGE_TOKEN (map StdoutData chunks ++ [StdoutData last]) st).1 = [].
Proof.
  intros Hbuf Hjobs Hex Hrt Hlast Hcat.
  assert (Hfirst : run BRIDGE_TOKEN (map StdoutData chunks) st
                   = ([], set_readBuffer (List.concat chunks) st)).
  { rewrite (run_partial_frame BRIDGE_TOKEN chunks st (JSON_stringify Null) last);
      try assumption.
    - rewrite Hbuf. reflexivity.
    - rewrite Hbuf, <- encode_frame. exact Hcat. }
  assert (Hall : run BRIDGE_TOKEN (map StdoutData chunks ++ [StdoutData last]) st
                 = ([LogParseError TypeError], st)).
  { rewrite run_app, Hfirst. cbn [fst snd app run].
    unfold step. cbn [exited set_readBuffer]. rewrite Hex.
    unfold on_stdout_data. cbn [readBuffer set_readBuffer].
    rewrite set_readBuffer_twice.
    rewrite tryParseMessages_null_frame by (try exact Hrt; rewrite <- Hcat; reflexivity).
    rewrite set_readBuffer_twice, (set_readBuffer_id [] st Hbuf).
    unfold then_jobs, run_jobs. cbn [fst snd]. rewrite Hjobs, (set_jobs_id st Hjobs).
    reflexivity. }
  split; [exact Hfirst|]. split; [exact Hall|]. rewrite Hall. reflexivity.
Qed.

(** C3, at the input on which it fails.  A block without
    Content-Length, its separator and then the frame of [null]: the
    block is dropped and the frame is consumed, but its value is not
    handed on; the [catch] logs a parse error. *)
Theorem null_frame_lost_after_garbage (st : bridge) (garbage : buffer) :
  readBuffer st = garbage ++ sep ++ encode Null ->
  indexOf sep (garbage ++ sep) = Some (length garbage) ->
  content_length garbage = None ->
  roundtrips Null ->
  tryParseMessages st = ([LogParseError TypeError], set_readBuffer [] st)
  /\ omap delivered (tryParseMessages st).1 = [].
Proof.
  intros Hbuf Hfirst Hnone Hrt.
  assert (Hidx : indexOf sep (readBuffer st) = Some (length garbage)).
  { rewrite Hbuf, app_assoc. apply indexOf_app. exact Hfirst. }
  assert (Hrun : tryParseMessages st = ([LogParseError TypeError], set_readBuffer [] st)).
  { rewrite tryParseMessages_unfold, Hidx.
    assert (Hhead : slice 0 (length garbage) (readBuffer st) = garbage).
    { rewrite Hbuf. unfold slice. rewrite drop_0, Nat.sub_0_r. apply take_app_length. }
    rewrite Hhead, Hnone.
    assert (Hrest : slice_from (length garbage + 4) (readBuffer st) = encode Null).
    { unfold slice_from. rewrite Hbuf, app_assoc.
      replace (length garbage + 4) with (length (garbage ++ sep))
        by (rewrite length_app; reflexivity).
      apply drop_app_length. }
    rewrite Hrest.
    rewrite tryParseMessages_null_frame by (try exact Hrt; reflexivity).
    rewrite set_readBuffer_twice. reflexivity. }
  rewrite Hrun. auto.
Qed.

End NullFrames.

(** ** More on the loop of [tryParseMessages] *)

Section Stream.

Context `{Runtime}.

Lemma settle_set_readBuffer r o buf st :
  settle r o (set_readBuffer buf st) = set_readBuffer buf (settle r o st).
Proof. unfold settle. simpl. destruct (decide (r ∈ settled st)); reflexivity. Qed.

(** The [try] statement does not look at [readBuffer]. *)
Lemma try_message_set_readBuffer jsonBuf buf st :
  try_message jsonBuf (set_readBuffer buf st)
  = ((try_message jsonBuf st).1, set_readBuffer buf (try_message jsonBuf st).2).
Proof.
  unfold try_message, on_message.
  destruct (JSON_parse jsonBuf) as [msg|]; simpl; [|reflexivity].
  destruct (prop "id" msg) as [[i|]|e]; simpl; try reflexivity.
  destruct i; try reflexivity;
    (destruct (to_string _ _) as [key|e']; simpl; [|reflexivity];
     destruct (pending st !! key) as [r|]; simpl; [|reflexivity];
     rewrite <- settle_set_readBuffer; reflexivity).
Qed.

Lemma pair_eta {A B} (p : A * B) : (p.1, p.2) = p.
Proof. destruct p; reflexivity. Qed.

(** The loop on [received ++ more], cut where [received] ends. *)
Lemma tryParseMessages_app (st : bridge) (received more : buffer) :
  tryParseMessages (set_readBuffer (received ++ more) st)
  = ((tryParseMessages (set_readBuffer received st)).1
       ++ (tryParseMessages
             (set_readBuffer
                (readBuffer (tryParseMessages (set_readBuffer received st)).2 ++ more)
                (tryParseMessages (set_readBuffer received st)).2)).1,
     (tryParseMessages
        (set_readBuffer
           (readBuffer (tryParseMessages (set_readBuffer received st)).2 ++ more)
           (tryParseMessages (set_readBuffer received st)).2)).2).
Proof.
  remember (S (length received)) as n eqn:Hn.
  assert (Hlen : length received < n) by lia. clear Hn.
  revert st received Hlen.
  induction n as [|n IH]; intros st received Hlen; [lia|].
  rewrite (tryParseMessages_unfold (set_readBuffer received st)).
  cbn [readBuffer set_readBuffer].
  destruct (indexOf sep received) as [idx|] eqn:Eidx.
  2:{ cbn [fst snd app readBuffer set_readBuffer].
      change (set_readBuffer (received ++ more) (set_readBuffer received st))
        with (set_readBuffer (received ++ more) st).
      symmetry. apply pair_eta. }
  pose proof (indexOf_bound _ _ _ Eidx) as Hidx. change (length sep) with 4 in Hidx.
  rewrite (tryParseMessages_unfold (set_readBuffer (received ++ more) st)).
  cbn [readBuffer set_readBuffer].
  rewrite (indexOf_app _ _ more _ Eidx).
  assert (Hhead : slice 0 idx (received ++ more) = slice 0 idx received).
  { unfold slice. rewrite !drop_0, Nat.sub_0_r. apply take_app_le. lia. }
  rewrite Hhead.
  destruct (content_length (slice 0 idx received)) as [len|] eqn:Elen.
  - destruct (N.of_nat (length received) <? N.of_nat (idx + 4) + len)%N eqn:Eshort.
    + (* the frame is not whole in [received] *)
      cbn [fst snd app readBuffer set_readBuffer].
      change (set_readBuffer (received ++ more) (set_readBuffer received st))
        with (set_readBuffer (received ++ more) st).
      rewrite pair_eta.
      rewrite (tryParseMessages_unfold (set_readBuffer (received ++ more) st)).
      cbn [readBuffer set_readBuffer].
      rewrite (indexOf_app _ _ more _ Eidx), Hhead, Elen. reflexivity.
    + apply N.ltb_ge in Eshort.
      assert (Hlong : (N.of_nat (length (received ++ more))
                       <? N.of_nat (idx + 4) + len)%N = false).
      { apply N.ltb_ge. rewrite length_app. lia. }
      rewrite Hlong.
      assert (Hjson : slice (idx + 4) (idx + 4 + N.to_nat len) (received ++ more)
                      = slice (idx + 4) (idx + 4 + N.to_nat len) received).
      { unfold slice. rewrite drop_app_le by lia.
        apply take_app_le. rewrite length_drop. lia. }
      assert (Hrest : slice_from (idx + 4 + N.to_nat len) (received ++ more)
                      = slice_from (idx + 4 + N.to_nat len) received ++ more).
      { unfold slice_from. apply drop_app_le. lia. }
      rewrite Hjson, Hrest.
      set (jsonBuf := slice (idx + 4) (idx + 4 + N.to_nat len) received).
      set (rest := slice_from (idx + 4 + N.to_nat len) received).
      change (set_readBuffer (rest ++ more) (set_readBuffer (received ++ more) st))
        with (set_readBuffer (rest ++ more) st).
      change (set_readBuffer rest (set_readBuffer received st))
        with (set_readBuffer rest st).
      rewrite !try_message_set_readBuffer.
      cbn [fst snd].
      assert (Hshorter : length rest < n).
      { subst rest. unfold slice_from. rewrite length_drop. lia. }
      rewrite (IH (try_message jsonBuf st).2 rest Hshorter).
      cbn [fst snd]. rewrite app_assoc. reflexivity.
  - (* no Content-Length: the block is dropped *)
    change (set_readBuffer (slice_from (idx + 4) received) (set_readBuffer received st))
      with (set_readBuffer (slice_from (idx + 4) received) st).
    change (set_readBuffer (slice_from (idx + 4) (received ++ more))
              (set_readBuffer (received ++ more) st))
      with (set_readBuffer (slice_from (idx + 4) (received ++ more)) st).
    assert (Hrest : slice_from (idx + 4) (received ++ more)
                    = slice_from (idx + 4) received ++ more).
    { unfold slice_from. apply drop_app_le. lia. }
    rewrite Hrest. apply IH.
    unfold slice_from. rewrite length_drop. lia.
Qed.

(** X2.  The loop reads a stream: what it does with the bytes [received]
    followed by the bytes [more] is what it does with [received], and
    then, once [more] has been appended to what it left in
    [readBuffer], with that.  No message is lost, doubled or reordered
    by the places at which the stream is cut. *)
Theorem tryParseMessages_append (st : bridge) (received more : buffer) :
  tryParseMessages (set_readBuffer (received ++ more) st)
  = ((tryParseMessages (set_readBuffer received st)).1
       ++ (tryParseMessages
             (set_readBuffer
                (readBuffer (tryParseMessages (set_readBuffer received st)).2 ++ more)
                (tryParseMessages (set_readBuffer received st)).2)).1,
     (tryParseMessages
        (set_readBuffer
           (readBuffer (tryParseMessages (set_readBuffer received st)).2 ++ more)
           (tryParseMessages (set_readBuffer received st)).2)).2).
Proof. exact (tryParseMessages_app st received more). Qed.

(** X3.  When the loop has returned, nothing in [readBuffer] is ready:
    the loop run once more hands nothing on and changes nothing. *)
Theorem tryParseMessages_settled (st : bridge) :
  tryParseMessages (tryParseMessages st).2 = ([], (tryParseMessages st).2).
Proof.
  pose proof (tryParseMessages_app st (readBuffer st) []) as Happ.
  rewrite !app_nil_r in Happ.
  rewrite (set_readBuffer_id (readBuffer st) st eq_refl) in Happ.
  rewrite (set_readBuffer_id _ (tryParseMessages st).2 eq_refl) in Happ.
  destruct (tryParseMessages st) as [out st1]. cbn [fst snd] in *.
  destruct (tryParseMessages st1) as [out' st2]. cbn [fst snd] in *.
  injection Happ as Hout Hst. subst st2.
  assert (Hnil : out' = []).
  { apply (f_equal (@length _)) in Hout. rewrite length_app in Hout.
    apply length_zero_iff_nil. lia. }
  rewrite Hnil. reflexivity.
Qed.

(** The loop only takes bytes off the front of [readBuffer]. *)
Lemma tryParseMessages_suffix (st : bridge) :
  exists consumed, readBuffer st = consumed ++ readBuffer (tryParseMessages st).2.
Proof.
  unfold tryParseMessages. generalize (S (length (readBuffer st))) as fuel.
  intros fuel. revert st. induction fuel as [|fuel IH]; intros st; simpl.
  - exists []. reflexivity.
  - destruct (indexOf sep (readBuffer st)) as [idx|]; [|exists []; reflexivity].
    destruct (content_length _) as [len|].
    + destruct (_ <? _)%N; [exists []; reflexivity|].
      pose proof (try_message_readBuffer
                    (slice (idx + 4) (idx + 4 + N.to_nat len) (readBuffer st))
                    (set_readBuffer (slice_from (idx + 4 + N.to_nat len) (readBuffer st)) st))
        as Hbuf.
      destruct (try_message _ _) as [out1 st1]. cbn [fst snd] in Hbuf.
      destruct (IH st1) as [consumed Hc].
      destruct (parse_loop fuel st1) as [out2 st2]. cbn [fst snd] in *.
      exists (take (idx + 4 + N.to_nat len) (readBuffer st) ++ consumed).
      rewrite <- app_assoc, <- Hc, Hbuf. cbn [readBuffer set_readBuffer].
      unfold slice_from. symmetry. apply take_drop.
    + destruct (IH (set_readBuffer (slice_from (idx + 4) (readBuffer st)) st))
        as [consumed Hc].
      exists (take (idx + 4) (readBuffer st) ++ consumed).
      rewrite <- app_assoc, <- Hc. cbn [readBuffer set_readBuffer].
      unfold slice_from. symmetry. apply take_drop.
Qed.

(** The loop leaves the timers, the clock, the count of requests and
    [exited] alone, and takes nothing out of [settled]. *)
Lemma tryParseMessages_rest (st : bridge) :
  timers (tryParseMessages st).2 = timers st
  /\ clock (tryParseMessages st).2 = clock st
  /\ requests (tryParseMessages st).2 = requests st
  /\ exited (tryParseMessages st).2 = exited st
  /\ settled st ⊆ settled (tryParseMessages st).2.
Proof.
  pose proof (tryParseMessages_preserves
                (fun st' _ => timers st' = timers st /\ clock st' = clock st
                              /\ requests st' = requests st /\ exited st' = exited st
                              /\ settled st ⊆ settled st')) as Hkeep.
  apply (Hkeep ltac:(auto)) with (out := []); [|auto].
  intros st' out jsonBuf (Ht & Hc & Hr & He & Hs).
  destruct (try_message_cases jsonBuf st')
    as [[e ->]|[(msg & _ & ->)|(msg & key & r & _ & _ & ->)]]; cbn [fst snd]; auto.
  rewrite settle_timers, settle_clock, settle_requests, settle_exited.
  cbn [timers clock requests exited set_pending]. repeat split; auto.
  unfold settle. destruct (decide (r ∈ settled _)); cbn [settled set_pending]; [exact Hs|].
  intros x Hx. apply elem_of_union. right. exact (Hs x Hx).
Qed.

(** X4.  The loop only takes bytes off the front of [readBuffer], and
    of the rest of the state it touches nothing but [pending], from
    which it only removes, and the promises it settles. *)
Theorem tryParseMessages_frame_conditions (st : bridge) :
  (exists consumed, readBuffer st = consumed ++ readBuffer (tryParseMessages st).2)
  /\ timers (tryParseMessages st).2 = timers st
  /\ clock (tryParseMessages st).2 = clock st
  /\ requests (tryParseMessages st).2 = requests st
  /\ exited (tryParseMessages st).2 = exited st
  /\ (forall key r, pending (tryParseMessages st).2 !! key = Some r ->
                    pending st !! key = Some r)
  /\ settled st ⊆ settled (tryParseMessages st).2.
Proof.
  destruct (tryParseMessages_rest st) as (Ht & Hc & Hr & He & Hs).
  split; [apply tryParseMessages_suffix|].
  repeat split; auto. apply tryParseMessages_pending.
Qed.

End Stream.

(** ** More on headers *)

Section HeaderBlocks.

Context `{Runtime}.

Lemma starts_with_ci_fold (pat written rest : buffer) :
  map to_lower written = map to_lower pat ->
  starts_with_ci pat (written ++ rest) = true.
Proof.
  revert written. induction pat as [|p pat IH]; intros [|w written]; simpl;
    try discriminate; auto.
  intros [= Hw Hrest]. unfold same_letter. rewrite Hw, N.eqb_refl. simpl. auto.
Qed.

Lemma skip_spaces_app (spaces rest : buffer) :
  Forall (fun b => is_space1 b = true) spaces ->
  skip_spaces (spaces ++ rest) = skip_spaces rest.
Proof.
  induction 1 as [|b spaces Hb _ IH]; [reflexivity|].
  simpl. rewrite Hb. exact IH.
Qed.

Lemma take_digits_app (digits rest : buffer) :
  Forall (fun b => is_digit b = true) digits ->
  match rest with [] => True | b :: _ => is_digit b = false end ->
  take_digits (digits ++ rest) = digits.
Proof.
  intros Hd Hrest. induction Hd as [|b digits Hb _ IH]; simpl.
  - destruct rest as [|b rest]; [reflexivity|]. simpl. rewrite Hrest. reflexivity.
  - rewrite Hb, IH. reflexivity.
Qed.

Lemma parseInt_zeros (zeros : nat) (digits : buffer) :
  parseInt (repeat "0"%byte zeros ++ digits) = parseInt digits.
Proof.
  unfold parseInt. rewrite fold_left_app. f_equal.
  induction zeros as [|zeros IH]; [reflexivity|]. simpl. exact IH.
Qed.

(** X5.  The header name is recognised in any mix of upper and lower
    case, any run of ASCII white space (none, or even a line break) may
    stand between the colon and the number, leading zeros do not count,
    and what follows the last digit is ignored: the length read is the
    number written, for every number up to 2^53, where JavaScript
    numbers are exact. *)
Theorem content_length_tolerant (written spaces rest : buffer) (zeros : nat) (n : N) :
  (n <= exact_limit)%N ->
  map to_lower written = map to_lower name ->
  Forall (fun b => is_space1 b = true) spaces ->
  no_digit_ahead rest ->
  content_length (written ++ spaces ++ repeat "0"%byte zeros ++ decimal n ++ rest) = Some n.
Proof.
  intros _ Hname Hspaces Hrest.
  destruct (decimal_spec n) as (Hparse & Hdigits & Hne).
  set (digits := repeat "0"%byte zeros ++ decimal n).
  assert (Hall : Forall (fun b => is_digit b = true) digits).
  { apply Forall_app. split; [|exact Hdigits].
    clear. induction zeros as [|zeros IH]; simpl; constructor; auto. }
  assert (Hsome : digits <> []).
  { subst digits. intros Habs. apply app_eq_nil in Habs. tauto. }
  assert (Hlen : length written = length name).
  { apply (f_equal (@length _)) in Hname. rewrite !length_map in Hname. exact Hname. }
  assert (Hhere : match_here (written ++ spaces ++ digits ++ rest) = Some digits).
  { unfold match_here. rewrite (starts_with_ci_fold name written _ Hname).
    rewrite <- Hlen, drop_app_length, (skip_spaces_app spaces _ Hspaces).
    destruct digits as [|d ds] eqn:Ed; [congruence|].
    change ((d :: ds) ++ rest) with (d :: (ds ++ rest)).
    rewrite skip_spaces_digit by (inversion Hall; assumption).
    change (d :: (ds ++ rest)) with ((d :: ds) ++ rest).
    rewrite (take_digits_app (d :: ds) rest Hall Hrest). reflexivity. }
  unfold content_length.
  replace (written ++ spaces ++ repeat "0"%byte zeros ++ decimal n ++ rest)
    with (written ++ spaces ++ digits ++ rest)
    by (subst digits; rewrite <- !app_assoc; reflexivity).
  assert (Hmatch : regex_match (written ++ spaces ++ digits ++ rest) = Some digits).
  { destruct (written ++ spaces ++ digits ++ rest) as [|b l] eqn:E.
    - vm_compute in Hhere. discriminate.
    - simpl. rewrite Hhere. reflexivity. }
  rewrite Hmatch. simpl. subst digits. rewrite parseInt_zeros, Hparse. reflexivity.
Qed.

(** Bytes in front of which no match of the expression begins do not
    change what it finds. *)
Lemma regex_match_skip (before buf : buffer) :
  (forall k, k < length before -> match_here (drop k (before ++ buf)) = None) ->
  regex_match (before ++ buf) = regex_match buf.
Proof.
  induction before as [|b before IH]; intros Hnone; [reflexivity|].
  simpl. pose proof (Hnone 0 ltac:(simpl; lia)) as H0. simpl in H0. rewrite H0.
  apply IH. intros k Hk. apply (Hnone (S k)). simpl. lia.
Qed.

(** X6.  A frame is found behind other header lines, or behind any
    bytes that the child has written before it, as long as no match of
    the expression begins in them and the first separator is the one of
    the frame: the bytes in front are dropped with the header, and the
    payload, whatever its bytes, goes through the [try] statement. *)
Theorem frame_after_other_headers (st : bridge) (before payload rest : buffer) :
  readBuffer st = before ++ frame payload ++ rest ->
  (forall k, k < length before ->
             match_here (drop k (before ++ header_text (N.of_nat (length payload)))) = None) ->
  indexOf sep (before ++ header_text (N.of_nat (length payload)) ++ sep)
  = Some (length (before ++ header_text (N.of_nat (length payload)))) ->
  tryParseMessages st
  = ((try_message payload (set_readBuffer rest st)).1
       ++ (tryParseMessages (try_message payload (set_readBuffer rest st)).2).1,
     (tryParseMessages (try_message payload (set_readBuffer rest st)).2).2).
Proof.
  intros Hbuf Hnone Hsep. rewrite tryParseMessages_unfold.
  unfold frame in Hbuf. rewrite frame_header_eq in Hbuf.
  set (text := header_text (N.of_nat (length payload))) in *.
  assert (Hbuf' : readBuffer st = ((before ++ text) ++ sep) ++ payload ++ rest).
  { rewrite Hbuf, <- !app_assoc. reflexivity. }
  rewrite Hbuf'.
  assert (Hidx : indexOf sep (((before ++ text) ++ sep) ++ payload ++ rest)
                 = Some (length (before ++ text))).
  { apply indexOf_app. rewrite <- app_assoc. exact Hsep. }
  rewrite Hidx.
  assert (Hhead : slice 0 (length (before ++ text)) (((before ++ text) ++ sep) ++ payload ++ rest)
                  = before ++ text).
  { unfold slice. rewrite drop_0, Nat.sub_0_r.
    rewrite <- (app_assoc (before ++ text) sep (payload ++ rest)). apply take_app_length. }
  rewrite Hhead.
  assert (Hlen : content_length (before ++ text) = Some (N.of_nat (length payload))).
  { unfold content_length. rewrite (regex_match_skip before text Hnone).
    apply content_length_header_text. }
  rewrite Hlen.
  assert (Hcmp : (N.of_nat (length (((before ++ text) ++ sep) ++ payload ++ rest))
                  <? N.of_nat (length (before ++ text) + 4) + N.of_nat (length payload))%N
                 = false).
  { apply N.ltb_ge. rewrite !length_app. change (length sep) with 4. lia. }
  rewrite Hcmp, Nat2N.id.
  assert (Hdrop : drop (length (before ++ text) + 4) (((before ++ text) ++ sep) ++ payload ++ rest)
                  = payload ++ rest).
  { replace (length (before ++ text) + 4) with (length ((before ++ text) ++ sep))
      by (rewrite (length_app _ sep); reflexivity).
    apply drop_app_length. }
  unfold slice, slice_from.
  replace (length (before ++ text) + 4 + length payload - (length (before ++ text) + 4))
    with (length payload) by lia.
  rewrite Hdrop, take_app_length.
  replace (length (before ++ text) + 4 + length payload)
    with (length (((before ++ text) ++ sep) ++ payload)).
  2:{ rewrite !length_app. change (length sep) with 4. lia. }
  rewrite (app_assoc _ payload rest), drop_app_length. reflexivity.
Qed.

End HeaderBlocks.

(** ** More on messages and calls *)

Section Calls.

Context `{Runtime}.
Variable BRIDGE_TOKEN : string.

Local Abbreviation step := (step BRIDGE_TOKEN).
Local Abbreviation run := (run BRIDGE_TOKEN).

Lemma plain_id_dispatchable (v : value) : plain_id v -> dispatchable v = true.
Proof.
  unfold plain_id, dispatchable. destruct v as [|b|n|s|items|props]; simpl; try tauto.
  destruct (own_property "id" props) as [[|b|n|s|items|props']|]; simpl; try tauto.
  destruct b; reflexivity.
Qed.

(** X1.  The round trip of the frame codec: the frames of any number of
    values, written one after the other and read as one chunk, hand on
    exactly these values, in order and one effect each, and leave
    [readBuffer] empty.  This holds for every value that the JSON codec
    gives back and on which the [try] block runs through, so for every
    value but [null] whose [id] is no array and no object. *)
Theorem messages_round_trip :
  (forall (st : bridge) (vs : list value),
      Forall (fun v => roundtrips v /\ dispatchable v = true) vs ->
      omap delivered (tryParseMessages (set_readBuffer (List.concat (map encode vs)) st)).1 = vs
      /\ length (tryParseMessages (set_readBuffer (List.concat (map encode vs)) st)).1
         = length vs
      /\ readBuffer (tryParseMessages (set_readBuffer (List.concat (map encode vs)) st)).2 = [])
  /\ (forall v : value, plain_id v -> dispatchable v = true).
Proof.
  split; [|exact plain_id_dispatchable].
  intros st vs Hvs. apply tryParseMessages_frames; [reflexivity|exact Hvs].
Qed.

(** X7.  A message without [id], or with [null] for [id], is logged as
    an extra and changes nothing, whatever is pending (a call with the
    string [null] for [id] is not resolved by it). *)
Theorem notification_changes_nothing (st : bridge) (msg : value) :
  readBuffer st = [] -> jobs st = [] -> roundtrips msg ->
  prop "id" msg = Normal None \/ prop "id" msg = Normal (Some Null) ->
  on_stdout_data (encode msg) st = ([LogExtra msg], st).
Proof.
  intros Hbuf Hjobs Hrt Hid. unfold on_stdout_data. rewrite Hbuf. simpl app.
  rewrite (tryParseMessages_frame _ (JSON_stringify msg) []).
  2:{ simpl. rewrite app_nil_r. reflexivity. }
  assert (Htry : forall st', try_message (JSON_stringify msg) st' = ([LogExtra msg], st')).
  { intros st'. unfold try_message, on_message. rewrite Hrt. simpl.
    destruct Hid as [-> | ->]; reflexivity. }
  rewrite Htry. cbn [fst snd].
  change (set_readBuffer [] (set_readBuffer (encode msg) st)) with (set_readBuffer [] st).
  rewrite (set_readBuffer_id [] st Hbuf).
  rewrite tryParseMessages_no_sep by (rewrite Hbuf; reflexivity).
  apply then_jobs_nothing_more. exact Hjobs.
Qed.

(** X8.  Replies may come in any order: a reply resolves the call that
    is pending under its key and no other.  The request of that call is
    answered 200 with the reply, its entry is deleted, and the other
    entries, the timers and the clock are as before. *)
Theorem reply_resolves_only_its_call (st : bridge) (msg id : value) (key : string) (r : nat) :
  readBuffer st = [] -> jobs st = [] ->
  roundtrips msg -> prop "id" msg = Normal (Some id) -> id <> Null ->
  to_string Number_toString id = Normal key ->
  pending st !! key = Some r -> r ∉ settled st ->
  (on_stdout_data (encode msg) st).1 = [Resolve r msg; Respond r 200 msg]
  /\ pending (on_stdout_data (encode msg) st).2 = delete key (pending st)
  /\ (forall key', key' <> key ->
                   pending (on_stdout_data (encode msg) st).2 !! key' = pending st !! key')
  /\ timers (on_stdout_data (encode msg) st).2 = timers st
  /\ clock (on_stdout_data (encode msg) st).2 = clock st.
Proof.
  intros Hbuf Hjobs Hrt Hid Hnn Hkey Hr Hfresh.
  rewrite (on_stdout_data_reply st msg id key Hbuf Hjobs Hrt Hid Hnn Hkey), Hr.
  destruct (then_jobs_settle (Resolve r msg) r (Fulfilled msg)
              (set_pending (delete key (pending st)) st) Hjobs Hfresh) as (Hout & _).
  split; [exact Hout|].
  assert (Hp : pending (then_jobs ([Resolve r msg],
                  settle r (Fulfilled msg) (set_pending (delete key (pending st)) st))).2
               = delete key (pending st)).
  { rewrite then_jobs_pending. cbn [snd]. rewrite settle_pending. reflexivity. }
  split; [exact Hp|]. split.
  - intros key' Hne. rewrite Hp. apply lookup_delete_ne. congruence.
  - unfold then_jobs, run_jobs. cbn [fst snd timers clock set_jobs].
    rewrite settle_timers, settle_clock. split; reflexivity.
Qed.

(** X9.  Identifiers that are objects all print as the same key: while
    a call whose [id] is an object is pending, a call whose [id] is
    any other object is answered 409. *)
Theorem object_ids_share_one_key (st : bridge) (payload payload' : value)
        (props props' : list (string * value)) :
  exited st = false -> jobs st = [] ->
  well_formed_call payload (Obj props) -> well_formed_call payload' (Obj props') ->
  own_property "toString" props = None -> own_property "toString" props' = None ->
  pending st !! "[object Object]"%string = None ->
  (run [PostRpc (bearer BRIDGE_TOKEN) (Some payload);
        PostRpc (bearer BRIDGE_TOKEN) (Some payload')] st).1
  = writeMessage payload
      ++ [Respond (S (requests st)) 409 (error_body "duplicate id in flight")].
Proof.
  intros Hex Hjobs Hwf Hwf' Hts Hts' Hfree.
  assert (Hkey : forall p, own_property "toString" p = None ->
                           to_string Number_toString (Obj p) = Normal "[object Object]"%string).
  { intros p Hp. simpl. rewrite Hp. reflexivity. }
  cbn [run].
  rewrite (step_post_rpc BRIDGE_TOKEN st payload (Obj props) _ Hex Hjobs Hwf (Hkey _ Hts)), Hfree.
  set (st1 := registered "[object Object]" (requests st) (next_request st)).
  rewrite (step_post_rpc BRIDGE_TOKEN st1 payload' (Obj props') _ Hex Hjobs Hwf' (Hkey _ Hts')).
  assert (Hl : pending st1 !! "[object Object]"%string = Some (requests st))
    by apply lookup_insert_eq.
  rewrite Hl. cbn [fst snd app]. reflexivity.
Qed.

(** X10.  A call whose [id] is an object with an own property
    [toString] makes [String(payload.id)] throw outside any [try]: the
    handler ends there.  It sends no answer, registers nothing and
    writes nothing to the child. *)
Theorem id_with_toString_throws (st : bridge) (payload x : value)
        (props : list (string * value)) :
  exited st = false -> jobs st = [] ->
  well_formed_call payload (Obj props) ->
  own_property "toString" props = Some x ->
  step (PostRpc (bearer BRIDGE_TOKEN) (Some payload)) st
  = ([Unhandled TypeError], next_request st).
Proof.
  intros Hex Hjobs Hwf Hts. unfold step, on_post_rpc. rewrite Hex, auth_bearer.
  rewrite (rpc_well_formed _ payload (Obj props) _ Hwf). simpl. rewrite Hts. simpl.
  unfold then_jobs, run_jobs. simpl. rewrite Hjobs. simpl.
  f_equal. destruct st; simpl in *; subst; reflexivity.
Qed.

Lemma prefix_split (p s : string) :
  String.prefix p s = true ->
  s = p +:+ String.substring (String.length p) (String.length s - String.length p) s.
Proof.
  revert s. induction p as [|a p IH]; intros s.
  - intros _. simpl. rewrite Nat.sub_0_r, substring_all. reflexivity.
  - destruct s as [|b s]; simpl; [discriminate|].
    destruct (Ascii.ascii_dec a b) as [->|]; [|discriminate].
    intros Hp. change (String b p +:+ ?x) with (String b (p +:+ x)).
    f_equal. apply IH. exact Hp.
Qed.

Lemma prefix_app (p s : string) : String.prefix p (p +:+ s) = true.
Proof.
  induction p as [|a p IH]; simpl; [destruct s; reflexivity|].
  destruct (Ascii.ascii_dec a a); [exact IH|congruence].
Qed.

(** [auth] lets nothing through but the token. *)
Lemma auth_none (authorization : option string) :
  auth BRIDGE_TOKEN authorization = None -> authorization = bearer BRIDGE_TOKEN.
Proof.
  unfold auth, bearer.
  destruct (String.prefix "Bearer " (default EmptyString authorization)) eqn:Ep;
    [|discriminate].
  simpl.
  destruct (String.eqb _ BRIDGE_TOKEN) eqn:Et; [|discriminate].
  intros _. apply String.eqb_eq in Et. apply prefix_split in Ep.
  change (String.length "Bearer ") with 7 in Ep. rewrite Et in Ep.
  destruct authorization as [a|]; simpl in Ep; [congruence|].
  discriminate.
Qed.

(** X11.  [auth] lets a request through exactly when its header is
    [Bearer ] followed by the token, letter for letter.  A header that
    does not begin with [Bearer ], or no header, is answered 401, and
    any other token 403. *)
Theorem auth_accepts_only_the_token (authorization : option string) :
  (auth BRIDGE_TOKEN authorization = None <-> authorization = bearer BRIDGE_TOKEN)
  /\ (String.prefix "Bearer " (default EmptyString authorization) = false ->
      auth BRIDGE_TOKEN authorization = Some (401, error_body "missing bearer token"))
  /\ (String.prefix "Bearer " (default EmptyString authorization) = true ->
      authorization <> bearer BRIDGE_TOKEN ->
      auth BRIDGE_TOKEN authorization = Some (403, error_body "forbidden")).
Proof.
  assert (Hiff : auth BRIDGE_TOKEN authorization = None <-> authorization = bearer BRIDGE_TOKEN).
  { split; [apply auth_none|intros ->; apply auth_bearer]. }
  split; [exact Hiff|]. split.
  - intros Ep. unfold auth. rewrite Ep. reflexivity.
  - intros Ep Hne. unfold auth. rewrite Ep. simpl.
    destruct (String.eqb _ BRIDGE_TOKEN) eqn:Et; [|reflexivity].
    exfalso. apply Hne, Hiff. unfold auth. rewrite Ep. simpl. rewrite Et. reflexivity.
Qed.

(** The handler of [POST /rpc], with the body it registers. *)
Lemma rpc_outcomes_body r body st :
  (exists e, rpc r body st = Throw e)
  \/ (exists status b,
         immediate_status status /\ rpc r body st = Normal ([Respond r status b], st))
  \/ (exists payload idKey,
         body = Some payload /\ pending st !! idKey = None
         /\ rpc r body st = Normal (writeMessage payload, registered idKey r st)).
Proof.
  assert (Hanswer : forall status b,
             status = 400 \/ status = 409 ->
             (exists e, Normal ([Respond r status b], st) = Throw e)
             \/ (exists status' b',
                    immediate_status status'
                    /\ Normal ([Respond r status b], st) = Normal ([Respond r status' b'], st))
             \/ (exists payload idKey,
                    body = Some payload /\ pending st !! idKey = None
                    /\ Normal ([Respond r status b], st)
                       = Normal (writeMessage payload, registered idKey r st))).
  { intros status b Hs. right. left. exists status, b.
    split; [unfold immediate_status; tauto|reflexivity]. }
  unfold rpc. destruct (not_an_object body); [apply Hanswer; auto|].
  destruct body as [payload|]; [|apply Hanswer; auto].
  destruct (prop "jsonrpc" payload) as [jsonrpc|e]; simpl; [|left; eauto].
  match goal with
  | |- context [mbind ?f (prop "id" payload)] => set (call := mbind f (prop "id" payload))
  end.
  assert (Hcall :
    (exists e, call = Throw e)
    \/ (exists status b, immediate_status status /\ call = Normal ([Respond r status b], st))
    \/ (exists payload' idKey,
           Some payload = Some payload' /\ pending st !! idKey = None
           /\ call = Normal (writeMessage payload', registered idKey r st))).
  { subst call.
    destruct (prop "id" payload) as [[i|]|e]; simpl; [|apply Hanswer; auto|left; eauto].
    destruct i; try (apply Hanswer; auto; fail);
      (destruct (to_string _ _) as [idKey|e']; simpl; [|left; eauto];
       destruct (pending st !! idKey) eqn:Ekey; [apply Hanswer; auto|];
       right; right; exists payload, idKey; auto). }
  clearbody call.
  repeat match goal with
         | |- context [match ?x with _ => _ end] =>
             is_var x; destruct x; try (apply Hanswer; auto; fail)
         end.
  exact Hcall.
Qed.

(** X12.  What a [POST /rpc] can do.  Either the request is answered
    at once with 400, 401, 403 or 409, or the handler throws; then
    nothing is written to the child and nothing changes but the count
    of requests.  Or the request carries the right token, and then the
    frame of its body is written to the child and the call registered
    under a key that was free. *)
Theorem post_rpc_outcomes (st : bridge) (authorization : option string)
        (body : option value) :
  exited st = false -> jobs st = [] ->
  (exists status b,
      immediate_status status
      /\ step (PostRpc authorization body) st
         = ([Respond (requests st) status b], next_request st))
  \/ (exists e, step (PostRpc authorization body) st = ([Unhandled e], next_request st))
  \/ (exists payload key,
         authorization = bearer BRIDGE_TOKEN /\ body = Some payload
         /\ pending st !! key = None
         /\ step (PostRpc authorization body) st
            = (writeMessage payload, registered key (requests st) (next_request st))).
Proof.
  intros Hex Hjobs.
  assert (Hdone : forall out st', jobs st' = [] -> then_jobs (out, st') = (out, st')).
  { intros out st' Hj. unfold then_jobs, run_jobs. cbn [fst snd]. rewrite Hj.
    rewrite (set_jobs_id st' Hj), app_nil_r. reflexivity. }
  unfold step, on_post_rpc. rewrite Hex.
  destruct (auth BRIDGE_TOKEN authorization) as [[status b]|] eqn:Eauth.
  - left. exists status, b. split; [|apply Hdone; exact Hjobs].
    revert Eauth. unfold auth, immediate_status.
    destruct (negb (String.prefix _ _)); [intros [= <- <-]; auto|].
    destruct (negb (_ =? _)%string); [intros [= <- <-]; auto|discriminate].
  - apply auth_none in Eauth.
    destruct (rpc_outcomes_body (requests st) body (next_request st))
      as [[e ->]|[(status & b & Him & ->)|(payload & key & Hbody & Hfree & ->)]].
    + right. left. exists e. apply Hdone. exact Hjobs.
    + left. exists status, b. split; [exact Him|]. apply Hdone. exact Hjobs.
    + right. right. exists payload, key.
      split; [exact Eauth|]. split; [exact Hbody|]. split; [exact Hfree|].
      apply Hdone. exact Hjobs.
Qed.

Lemma stdin_bytes_app out out' : stdin_bytes (out ++ out') = stdin_bytes out ++ stdin_bytes out'.
Proof. unfold stdin_bytes. rewrite omap_app, concat_app. reflexivity. Qed.

Lemma stdin_bytes_writeMessage payload : stdin_bytes (writeMessage payload) = encode payload.
Proof. unfold stdin_bytes, writeMessage, encode. simpl. rewrite app_nil_r. reflexivity. Qed.

Lemma stdin_bytes_jobs js : stdin_bytes (map continuation js) = [].
Proof.
  unfold stdin_bytes. induction js as [|[r [response|message]] js IH]; simpl; auto.
Qed.

Lemma stdin_bytes_then_jobs r : stdin_bytes (then_jobs r).1 = stdin_bytes r.1.
Proof.
  unfold then_jobs, run_jobs. cbn [fst snd].
  rewrite stdin_bytes_app, stdin_bytes_jobs, app_nil_r. reflexivity.
Qed.

Lemma stdin_bytes_tryParseMessages st : stdin_bytes (tryParseMessages st).1 = [].
Proof.
  refine (tryParseMessages_preserves (fun _ out => stdin_bytes out = []) _ _ st [] _).
  - auto.
  - intros st' out jsonBuf Hout. rewrite stdin_bytes_app, Hout.
    destruct (try_message_cases jsonBuf st')
      as [[e ->]|[(msg & _ & ->)|(msg & key & r & _ & _ & ->)]]; reflexivity.
  - reflexivity.
Qed.

Lemma stdin_bytes_on_elapse ms st : stdin_bytes (on_elapse ms st).1 = [].
Proof.
  unfold on_elapse. destruct (List.partition _ _) as [ready later].
  refine (fold_fire_preserves (fun _ _ out => stdin_bytes out = []) _ ready _ [] [] _).
  - intros t ts st' out Hout. rewrite stdin_bytes_app, Hout, stdin_bytes_then_jobs.
    unfold on_timeout. destruct (pending st' !! timer_key t); reflexivity.
  - reflexivity.
Qed.

(** X13.  Whatever happens to the bridge, the bytes it writes to the
    child are whole frames, one after the other: the two writes of one
    call are never parted by another write, and nothing else is ever
    written. *)
Theorem stdin_is_a_sequence_of_frames (inputs : list input) (st : bridge) :
  exists payloads : list value,
    stdin_bytes (run inputs st).1 = List.concat (map encode payloads).
Proof.
  revert st. induction inputs as [|i inputs IH]; intros st; [exists []; reflexivity|].
  cbn [run].
  assert (Hstep : exists payloads, stdin_bytes (step i st).1 = List.concat (map encode payloads)).
  { unfold step. destruct (exited st); [exists []; reflexivity|].
    destruct i as [chunk|chunk|code| |authorization body|ms].
    - exists []. unfold on_stdout_data.
      rewrite stdin_bytes_then_jobs. apply stdin_bytes_tryParseMessages.
    - exists []. reflexivity.
    - exists []. reflexivity.
    - exists []. reflexivity.
    - rewrite stdin_bytes_then_jobs. unfold on_post_rpc.
      destruct (auth BRIDGE_TOKEN authorization) as [[status b]|]; [exists []; reflexivity|].
      destruct (rpc_outcomes (requests st) body (next_request st))
        as [[e ->]|[(status & b & _ & ->)|(payload & key & _ & ->)]].
      + exists []. reflexivity.
      + exists []. reflexivity.
      + exists [payload]. cbn [fst]. rewrite stdin_bytes_writeMessage.
        simpl. rewrite app_nil_r. reflexivity.
    - exists []. apply stdin_bytes_on_elapse. }
  destruct Hstep as [first Hfirst].
  destruct (step i st) as [out1 st1]. cbn [fst] in Hfirst.
  destruct (IH st1) as [others Hothers].
  destruct (run inputs st1) as [out2 st2]. cbn [fst] in *.
  exists (first ++ others).
  rewrite stdin_bytes_app, Hfirst, Hothers, map_app, concat_app. reflexivity.
Qed.

End Calls.

(** ** More on the timers *)

Section Timers.

Context `{Runtime}.
Variable BRIDGE_TOKEN : string.

Local Abbreviation step := (step BRIDGE_TOKEN).
Local Abbreviation run := (run BRIDGE_TOKEN).

Lemma then_jobs_timers r : timers (then_jobs r).2 = timers r.2.
Proof. reflexivity. Qed.

Lemma then_jobs_clock r : clock (then_jobs r).2 = clock r.2.
Proof. reflexivity. Qed.

Lemma then_jobs_requests r : requests (then_jobs r).2 = requests r.2.
Proof. reflexivity. Qed.

Lemma then_jobs_settled r : settled (then_jobs r).2 = settled r.2.
Proof. reflexivity. Qed.

Lemma then_jobs_jobs r : jobs (then_jobs r).2 = [].
Proof. reflexivity. Qed.

Lemma on_timeout_timers t st : timers (on_timeout t st).2 = timers st.
Proof.
  unfold on_timeout. destruct (pending st !! timer_key t); [|reflexivity].
  cbn [snd]. rewrite settle_timers. reflexivity.
Qed.

Lemma on_timeout_clock t st : clock (on_timeout t st).2 = clock st.
Proof.
  unfold on_timeout. destruct (pending st !! timer_key t); [|reflexivity].
  cbn [snd]. rewrite settle_clock. reflexivity.
Qed.

Lemma on_timeout_requests t st : requests (on_timeout t st).2 = requests st.
Proof.
  unfold on_timeout. destruct (pending st !! timer_key t); [|reflexivity].
  cbn [snd]. rewrite settle_requests. reflexivity.
Qed.

(** After its callback the key of a timer is not pending. *)
Lemma on_timeout_key t st : pending (on_timeout t st).2 !! timer_key t = None.
Proof.
  unfold on_timeout. destruct (pending st !! timer_key t) eqn:E; [|exact E].
  cbn [snd]. rewrite settle_pending. apply lookup_delete_eq.
Qed.

(** A timer that fires leaves every entry with the timer of its call. *)
Lemma own_timers_fire t firing st :
  own_timers (t :: firing) st -> own_timers firing (then_jobs (on_timeout t st)).2.
Proof.
  intros Hown key r Hl. rewrite then_jobs_pending in Hl.
  rewrite then_jobs_timers, on_timeout_timers.
  pose proof (on_timeout_pending t st key r Hl) as Hbefore.
  destruct (Hown key r Hbefore) as (t' & [<-|Hin] & Hk & Hr).
  - rewrite <- Hk, on_timeout_key in Hl. discriminate.
  - exists t'. auto.
Qed.

Lemma fold_fire_timers ready out st :
  timers (fold_left fire ready (out, st)).2 = timers st
  /\ clock (fold_left fire ready (out, st)).2 = clock st
  /\ requests (fold_left fire ready (out, st)).2 = requests st.
Proof.
  refine (fold_fire_preserves
            (fun _ st' _ => timers st' = timers st /\ clock st' = clock st
                            /\ requests st' = requests st)
            _ ready st [] out _); [|auto].
  intros t ts st' out' (Ht & Hc & Hr).
  rewrite then_jobs_timers, then_jobs_clock, then_jobs_requests,
    on_timeout_timers, on_timeout_clock, on_timeout_requests. auto.
Qed.

(** The timers armed after a wait are those that are due later. *)
Lemma on_elapse_timers ms st t :
  In t (timers (on_elapse ms st).2) <-> In t (timers st) /\ (clock st + ms < due t)%N.
Proof.
  unfold on_elapse. rewrite List.partition_as_filter.
  destruct (fold_fire_timers
              (List.filter (fun t => (due t <=? clock st + ms)%N) (timers st)) []
              (set_timers (List.filter (fun x => negb (due x <=? clock st + ms)%N) (timers st))
                          (set_clock (clock st + ms) st))) as (Ht & _).
  rewrite Ht. cbn [timers set_timers]. rewrite List.filter_In.
  rewrite negb_true_iff, N.leb_gt. reflexivity.
Qed.

Lemma on_elapse_clock ms st :
  clock (on_elapse ms st).2 = (clock st + ms)%N
  /\ requests (on_elapse ms st).2 = requests st.
Proof.
  unfold on_elapse. destruct (List.partition _ (timers st)) as [ready later].
  destruct (fold_fire_timers ready [] (set_timers later (set_clock (clock st + ms) st)))
    as (_ & Hc & Hr).
  rewrite Hc, Hr. auto.
Qed.

Lemma own_timers_on_elapse ms st :
  own_timers [] st -> own_timers [] (on_elapse ms st).2.
Proof.
  intros Hown. unfold on_elapse.
  destruct (List.partition _ (timers st)) as [ready later] eqn:Epart.
  refine (fold_fire_preserves (fun firing st' _ => own_timers firing st')
            _ ready _ [] [] _).
  - intros t ts st' out. apply own_timers_fire.
  - intros key r Hl. destruct (Hown key r Hl) as (t & Hin & Hk & Hr).
    exists t. split; [|auto]. cbn [timers set_timers set_clock app] in *.
    apply in_app_iff. apply (elements_in_partition _ _ Epart). exact Hin.
Qed.

Lemma responses_to_tryParseMessages r st : responses_to r (tryParseMessages st).1 = [].
Proof.
  refine (tryParseMessages_preserves (fun _ out => responses_to r out = []) _ _ st [] _).
  - auto.
  - intros st' out jsonBuf Hout. rewrite responses_to_app, Hout.
    destruct (try_message_cases jsonBuf st')
      as [[e ->]|[(msg & _ & ->)|(msg & key & r' & _ & _ & ->)]]; reflexivity.
  - reflexivity.
Qed.

Lemma responses_to_then_jobs r res :
  responses_to r res.1 = [] ->
  responses_to r (then_jobs res).1 = responses_to r (map continuation (jobs res.2)).
Proof.
  intros Hnone. unfold then_jobs, run_jobs. cbn [fst snd].
  rewrite responses_to_app, Hnone. reflexivity.
Qed.

(** What a [POST /rpc] does to a bridge that runs, with no
    continuation queued: one effect that is no answer to another
    request, or a registration under a key that was free. *)
Lemma step_post_rpc_cases authorization body st :
  exited st = false -> jobs st = [] ->
  (exists e, step (PostRpc authorization body) st = ([e], next_request st)
             /\ (forall r, r <> requests st -> responses_to r [e] = [])
             /\ (forall r msg, e <> Resolve r msg))
  \/ (exists payload key,
         pending st !! key = None
         /\ step (PostRpc authorization body) st
            = (writeMessage payload, registered key (requests st) (next_request st))).
Proof.
  intros Hex Hjobs.
  assert (Hdone : forall out st', jobs st' = [] -> then_jobs (out, st') = (out, st')).
  { intros out st' Hj. unfold then_jobs, run_jobs. cbn [fst snd]. rewrite Hj.
    rewrite (set_jobs_id st' Hj), app_nil_r. reflexivity. }
  assert (Hresp : forall status b r, r <> requests st ->
                                     responses_to r [Respond (requests st) status b] = []).
  { intros status b r Hr. unfold responses_to. simpl.
    destruct (decide (requests st = r)); [congruence|reflexivity]. }
  unfold step, on_post_rpc. rewrite Hex.
  destruct (auth BRIDGE_TOKEN authorization) as [[status b]|].
  { left. eexists. split; [apply Hdone; exact Hjobs|]. split; [apply Hresp|discriminate]. }
  destruct (rpc_outcomes (requests st) body (next_request st))
    as [[e ->]|[(status & b & _ & ->)|(payload & key & Hfree & ->)]].
  - left. eexists. split; [apply Hdone; exact Hjobs|]. split; [reflexivity|discriminate].
  - left. eexists. split; [apply Hdone; exact Hjobs|]. split; [apply Hresp|discriminate].
  - right. exists payload, key. split; [exact Hfree|]. apply Hdone. exact Hjobs.
Qed.

(** *** What holds of the timers in every state *)

Lemma timers_step i st :
  own_timers [] st /\ due_soon st /\ due_later st ->
  own_timers [] (step i st).2 /\ due_soon (step i st).2 /\ due_later (step i st).2.
Proof.
  intros (Hown & Hdue & Hlater). unfold step. destruct (exited st); [auto|].
  destruct i as [chunk|chunk|code| |authorization body|ms]; auto.
  - unfold on_stdout_data.
    destruct (tryParseMessages_rest (set_readBuffer (readBuffer st ++ chunk) st))
      as (Ht & Hc & _).
    pose proof (tryParseMessages_pending (set_readBuffer (readBuffer st ++ chunk) st)) as Hp.
    split; [|split].
    + intros key r Hl. rewrite then_jobs_pending in Hl. apply Hp in Hl.
      rewrite then_jobs_timers, Ht. apply (Hown key r Hl).
    + intros t. rewrite then_jobs_timers, then_jobs_clock, Ht, Hc. apply Hdue.
    + intros t. rewrite then_jobs_timers, then_jobs_clock, Ht, Hc. apply Hlater.
  - change (own_timers [] (on_post_rpc BRIDGE_TOKEN authorization body st).2
            /\ due_soon (on_post_rpc BRIDGE_TOKEN authorization body st).2
            /\ due_later (on_post_rpc BRIDGE_TOKEN authorization body st).2).
    unfold on_post_rpc.
    destruct (auth BRIDGE_TOKEN authorization) as [[status b]|]; [auto|].
    destruct (rpc_outcomes (requests st) body (next_request st))
      as [[e ->]|[(status & b & _ & ->)|(payload & key & Hfree & ->)]]; [auto|auto|].
    cbn [snd]. split; [|split].
    + intros key' r. cbn [pending timers registered set_timers set_pending next_request app].
      destruct (decide (key = key')) as [<-|Hne].
      * rewrite lookup_insert_eq. intros [= <-].
        eexists. split; [apply in_app_iff; right; left; reflexivity|]. auto.
      * rewrite lookup_insert_ne by exact Hne. intros Hl.
        destruct (Hown key' r Hl) as (t & Hin & Hk & Hr).
        exists t. split; [apply in_app_iff; left; exact Hin|]. auto.
    + intros t. cbn [timers clock registered set_timers set_pending next_request].
      intros [Hin|[<-|[]]]%in_app_iff; [apply Hdue; exact Hin|]. cbn [due]. lia.
    + intros t. cbn [timers clock registered set_timers set_pending next_request].
      intros [Hin|[<-|[]]]%in_app_iff; [apply Hlater; exact Hin|]. cbn [due].
      unfold TIMEOUT_MS. lia.
  - split; [apply own_timers_on_elapse; exact Hown|]. split.
    + intros t [Hin _]%on_elapse_timers.
      destruct (on_elapse_clock ms st) as [-> _]. apply Hdue in Hin. lia.
    + intros t [_ Hin]%on_elapse_timers.
      destruct (on_elapse_clock ms st) as [-> _]. exact Hin.
Qed.

Lemma timers_run inputs st :
  own_timers [] st /\ due_soon st /\ due_later st ->
  own_timers [] (run inputs st).2 /\ due_soon (run inputs st).2 /\ due_later (run inputs st).2.
Proof.
  revert st. induction inputs as [|i inputs IH]; intros st Hinv; [exact Hinv|].
  cbn [run]. pose proof (timers_step i st Hinv) as Hstep.
  destruct (step i st) as [out1 st1]. cbn [snd] in Hstep.
  specialize (IH st1 Hstep). destruct (run inputs st1) as [out2 st2]. exact IH.
Qed.

Lemma timers_init : own_timers [] init /\ due_soon init /\ due_later init.
Proof.
  split; [|split].
  - intros key r Hl. change (pending init) with (∅ : gmap string nat) in Hl.
    rewrite lookup_empty in Hl. discriminate.
  - intros t [].
  - intros t [].
Qed.

(** *** Time over several events *)

(** The clock of a bridge that runs shows the time that has passed. *)
Lemma step_clock i st :
  exited st = false -> clock (step i st).2 = (clock st + elapsed [i])%N.
Proof.
  intros Hex. unfold step. rewrite Hex.
  destruct i as [chunk|chunk|code| |authorization body|ms]; cbn [elapsed fold_right];
    rewrite ?N.add_0_r; try reflexivity.
  - unfold on_stdout_data. rewrite then_jobs_clock.
    destruct (tryParseMessages_rest (set_readBuffer (readBuffer st ++ chunk) st))
      as (_ & Hc & _).
    rewrite Hc. reflexivity.
  - rewrite then_jobs_clock. unfold on_post_rpc.
    destruct (auth BRIDGE_TOKEN authorization) as [[status b]|]; [reflexivity|].
    destruct (rpc_outcomes (requests st) body (next_request st))
      as [[e ->]|[(status & b & _ & ->)|(payload & key & Hfree & ->)]]; reflexivity.
  - apply on_elapse_clock.
Qed.

Lemma run_step_exited i inputs st :
  exited (run (i :: inputs) st).2 = false -> exited st = false.
Proof.
  destruct (exited st) eqn:Hex; [|reflexivity].
  rewrite (run_exited BRIDGE_TOKEN (i :: inputs) st Hex). cbn [snd]. congruence.
Qed.

Lemma run_cons i inputs st :
  run (i :: inputs) st
  = ((step i st).1 ++ (run inputs (step i st).2).1, (run inputs (step i st).2).2).
Proof.
  cbn [run]. destruct (step i st) as [out1 st1]. cbn [fst snd].
  destruct (run inputs st1) as [out2 st2]. reflexivity.
Qed.

Lemma elapsed_cons (i : input) (inputs : list input) :
  elapsed (i :: inputs) = (elapsed [i] + elapsed inputs)%N.
Proof. unfold elapsed. destruct i; simpl; lia. Qed.

Lemma run_clock inputs st :
  exited (run inputs st).2 = false -> clock (run inputs st).2 = (clock st + elapsed inputs)%N.
Proof.
  revert st. induction inputs as [|i inputs IH]; intros st Hex.
  - cbn. lia.
  - pose proof (run_step_exited i inputs st Hex) as Hst.
    rewrite run_cons in *. cbn [snd] in *.
    rewrite (IH _ Hex), (step_clock i st Hst), (elapsed_cons i inputs). lia.
Qed.

(** The timers of earlier requests are never armed anew. *)
Lemma due_by_step n limit i st :
  n <= requests st -> due_by n limit st ->
  n <= requests (step i st).2 /\ due_by n limit (step i st).2.
Proof.
  intros Hn Hby. unfold step. destruct (exited st); [auto|].
  destruct i as [chunk|chunk|code| |authorization body|ms]; auto.
  - unfold on_stdout_data.
    destruct (tryParseMessages_rest (set_readBuffer (readBuffer st ++ chunk) st))
      as (Ht & _ & Hr & _).
    split.
    + rewrite then_jobs_requests, Hr. exact Hn.
    + intros t. rewrite then_jobs_timers, Ht. apply Hby.
  - change (n <= requests (on_post_rpc BRIDGE_TOKEN authorization body st).2
            /\ due_by n limit (on_post_rpc BRIDGE_TOKEN authorization body st).2).
    unfold on_post_rpc.
    destruct (auth BRIDGE_TOKEN authorization) as [[status b]|].
    { split; [cbn; lia|exact Hby]. }
    destruct (rpc_outcomes (requests st) body (next_request st))
      as [[e ->]|[(status & b & _ & ->)|(payload & key & Hfree & ->)]];
      try (split; [cbn; lia|exact Hby]).
    cbn [snd]. split; [cbn; lia|].
    intros t. cbn [timers registered set_timers set_pending next_request].
    intros [Hin|[<-|[]]]%in_app_iff; [apply Hby; exact Hin|].
    cbn [timer_request requests next_request]. lia.
  - destruct (on_elapse_clock ms st) as [_ Hr]. split; [rewrite Hr; exact Hn|].
    intros t [Hin _]%on_elapse_timers. apply Hby. exact Hin.
Qed.

Lemma due_by_run n limit inputs st :
  n <= requests st -> due_by n limit st -> due_by n limit (run inputs st).2.
Proof.
  revert st. induction inputs as [|i inputs IH]; intros st Hn Hby; [exact Hby|].
  rewrite run_cons. cbn [snd].
  destruct (due_by_step n limit i st Hn Hby) as [Hn' Hby']. apply IH; assumption.
Qed.

(** X14.  The table does not leak.  At any moment every pending entry
    has the timer of its own call still armed, due within 250 s and
    not yet due.  So over any events in which 250 s pass in all, in one
    wait or in several, with calls and replies between them, no entry
    and no timer outlives them: what is pending or armed afterwards
    belongs to a request received in the meantime, and if none was,
    nothing is left. *)
Theorem pending_entries_expire :
  (forall inputs : list input,
      own_timers [] (run inputs init).2 /\ due_soon (run inputs init).2
      /\ due_later (run inputs init).2)
  /\ (forall inputs more : list input,
         exited (run more (run inputs init).2).2 = false ->
         (TIMEOUT_MS <= elapsed more)%N ->
         (forall key r, pending (run more (run inputs init).2).2 !! key = Some r ->
                        requests (run inputs init).2 <= r)
         /\ (forall t, In t (timers (run more (run inputs init).2).2) ->
                       requests (run inputs init).2 <= timer_request t)
         /\ (requests (run more (run inputs init).2).2 = requests (run inputs init).2 ->
             pending (run more (run inputs init).2).2 = ∅
             /\ timers (run more (run inputs init).2).2 = [])).
Proof.
  split; [intros inputs; apply timers_run, timers_init|].
  intros inputs more Hex Hms.
  destruct (timers_run inputs init timers_init) as (_ & Hdue & _).
  set (st := (run inputs init).2) in *.
  destruct (timers_run more st (timers_run inputs init timers_init)) as (Hown' & _ & Hlater').
  assert (Hby : due_by (requests st) (clock st + TIMEOUT_MS) (run more st).2).
  { apply due_by_run; [lia|]. intros t Hin _. apply Hdue. exact Hin. }
  pose proof (run_clock more st Hex) as Hclock.
  assert (Htimers : forall t, In t (timers (run more st).2) ->
                              requests st <= timer_request t).
  { intros t Hin. destruct (le_lt_dec (requests st) (timer_request t)) as [|Hold]; [assumption|].
    pose proof (Hby t Hin Hold). pose proof (Hlater' t Hin). lia. }
  assert (Hpending : forall key r, pending (run more st).2 !! key = Some r ->
                                   requests st <= r).
  { intros key r Hl. destruct (Hown' key r Hl) as (t & Hin & _ & <-).
    apply Htimers. exact Hin. }
  split; [exact Hpending|]. split; [exact Htimers|].
  intros Hsame.
  destruct (consistent_run BRIDGE_TOKEN (inputs ++ more) init [] consistent_init eq_refl)
    as [Hc _].
  rewrite run_app in Hc. cbn [fst snd app] in Hc. fold st in Hc.
  assert (Hnone : timers (run more st).2 = []).
  { assert (Hno : forall t, ~ In t (timers (run more st).2)).
    { intros t Hin. pose proof (Htimers t Hin).
      assert (timer_request t < requests (run more st).2); [|lia].
      apply (refs_lt _ _ _ Hc). right. exists t. auto. }
    destruct (timers (run more st).2) as [|t ts]; [reflexivity|].
    destruct (Hno t). left. reflexivity. }
  split; [|exact Hnone].
  apply map_empty. intros key.
  destruct (pending (run more st).2 !! key) as [r|] eqn:El; [|reflexivity].
  destruct (Hown' key r El) as (t & Hin & _). rewrite Hnone in Hin. destruct Hin.
Qed.

(** *** One call, until it is answered *)

Lemma responses_to_no_jobs r js :
  (forall o, ~ In (r, o) js) -> responses_to r (map continuation js) = [].
Proof.
  intros Hno. apply length_zero_iff_nil.
  rewrite responses_to_jobs_length. apply count_jobs_zero. exact Hno.
Qed.

(** The timer of another call, with another key, leaves it so. *)
Lemma still_waiting_fire key r t st out :
  timer_key t <> key -> timer_request t <> r ->
  still_waiting key r st out ->
  still_waiting key r (then_jobs (on_timeout t st)).2 (out ++ (then_jobs (on_timeout t st)).1).
Proof.
  intros Hk Hr (Hl & Hs & Hj & Ho). unfold still_waiting, on_timeout.
  destruct (pending st !! timer_key t) as [r0|] eqn:E.
  - unfold then_jobs, run_jobs, settle. cbn [fst snd].
    destruct (decide (timer_request t ∈ settled (set_pending _ st))) as [Hin|Hnew];
      cbn [fst snd jobs pending settled set_jobs set_pending]; rewrite Hj.
    + rewrite lookup_delete_ne by exact Hk.
      rewrite responses_to_app, Ho. auto.
    + rewrite lookup_delete_ne by exact Hk.
      rewrite responses_to_app, Ho. repeat split; auto.
      * intros [Hin%elem_of_singleton|Hin]%elem_of_union; [congruence|contradiction].
      * unfold responses_to. simpl.
        destruct (decide (timer_request t = r)); [contradiction|reflexivity].
  - unfold then_jobs, run_jobs. cbn [fst snd jobs pending settled set_jobs]. rewrite Hj.
    rewrite !app_nil_r. auto.
Qed.

Lemma still_waiting_fold key r ready st out :
  (forall t, In t ready -> timer_key t <> key /\ timer_request t <> r) ->
  still_waiting key r st out ->
  still_waiting key r (fold_left fire ready (out, st)).2 (fold_left fire ready (out, st)).1.
Proof.
  intros Hready Hw.
  refine (proj2 (fold_fire_preserves
            (fun firing st' out' =>
               (forall t, In t firing -> timer_key t <> key /\ timer_request t <> r)
               /\ still_waiting key r st' out')
            _ ready st [] out _)).
  2:{ split; [exact Hready|exact Hw]. }
  intros t ts st' out' [Hts Hw']. split.
  - intros t' Hin. apply Hts. right. exact Hin.
  - destruct (Hts t (or_introl eq_refl)) as [Hk Hr].
    apply still_waiting_fire; assumption.
Qed.

(** While no reply resolves it, a waiting call goes through the loop
    of [tryParseMessages] untouched. *)
Lemma waiting_tryParseMessages key r st :
  pending st !! key = Some r -> (r ∉ settled st) -> jobs st = [] ->
  (forall msg, ~ In (Resolve r msg) (tryParseMessages st).1) ->
  pending (tryParseMessages st).2 !! key = Some r
  /\ (r ∉ settled (tryParseMessages st).2)
  /\ (forall o, ~ In (r, o) (jobs (tryParseMessages st).2)).
Proof.
  intros Hl Hs Hj Hno.
  refine (tryParseMessages_preserves
            (fun st' out => (forall msg, ~ In (Resolve r msg) out) ->
                            pending st' !! key = Some r /\ (r ∉ settled st')
                            /\ (forall o, ~ In (r, o) (jobs st')))
            _ _ st [] _ Hno).
  - auto.
  - intros st' out jsonBuf IH Hno'.
    destruct IH as (Hl' & Hs' & Hj').
    { intros msg Hin. apply (Hno' msg). apply in_or_app. left. exact Hin. }
    destruct (try_message_cases jsonBuf st')
      as [[e Heq]|[(msg & _ & Heq)|(msg & key0 & r0 & _ & Hl0 & Heq)]];
      rewrite Heq in *; cbn [fst snd] in *; auto.
    assert (Hr0 : r0 <> r).
    { intros ->. apply (Hno' msg). apply in_or_app. right. left. reflexivity. }
    assert (Hk0 : key0 <> key) by congruence.
    rewrite settle_pending. cbn [pending set_pending].
    rewrite lookup_delete_ne by exact Hk0. split; [exact Hl'|].
    unfold settle. destruct (decide (r0 ∈ settled _)); cbn [settled jobs set_pending];
      [auto|].
    split.
    + intros [Hin%elem_of_singleton|Hin]%elem_of_union; [congruence|contradiction].
    + intros o [Hin|[[= Heq' _]|[]]]%in_app_iff; [exact (Hj' o Hin)|congruence].
  - intros _. rewrite Hj. auto.
Qed.

(** Once a promise is settled and its entry gone, the loop of
    [tryParseMessages] does nothing for its request. *)
Lemma done_tryParseMessages r st :
  r ∈ settled st -> jobs st = [] -> (forall key, pending st !! key <> Some r) ->
  r ∈ settled (tryParseMessages st).2
  /\ (forall o, ~ In (r, o) (jobs (tryParseMessages st).2))
  /\ (forall key, pending (tryParseMessages st).2 !! key <> Some r).
Proof.
  intros Hs Hj Hp.
  refine (tryParseMessages_preserves
            (fun st' _ => r ∈ settled st' /\ (forall o, ~ In (r, o) (jobs st'))
                          /\ (forall key, pending st' !! key <> Some r))
            _ _ st [] _).
  - auto.
  - intros st' out jsonBuf (Hs' & Hj' & Hp').
    destruct (try_message_cases jsonBuf st')
      as [[e ->]|[(msg & _ & ->)|(msg & key0 & r0 & _ & Hl0 & ->)]]; cbn [fst snd]; auto.
    assert (Hr0 : r0 <> r) by (intros ->; exact (Hp' key0 Hl0)).
    rewrite settle_pending. cbn [pending set_pending].
    unfold settle. destruct (decide (r0 ∈ settled _)); cbn [settled jobs set_pending].
    + split; [exact Hs'|]. split; [exact Hj'|].
      intros key [_ Hk]%lookup_delete_Some. exact (Hp' key Hk).
    + split; [apply elem_of_union; right; exact Hs'|]. split.
      * intros o [Hin|[[= Heq' _]|[]]]%in_app_iff; [exact (Hj' o Hin)|congruence].
      * intros key [_ Hk]%lookup_delete_Some. exact (Hp' key Hk).
  - rewrite Hj. auto.
Qed.

(** Nor does a timer that fires. *)
Lemma done_fire r t st :
  r ∈ settled st -> jobs st = [] -> (forall key, pending st !! key <> Some r) ->
  r ∈ settled (then_jobs (on_timeout t st)).2
  /\ (forall key, pending (then_jobs (on_timeout t st)).2 !! key <> Some r)
  /\ responses_to r (then_jobs (on_timeout t st)).1 = [].
Proof.
  intros Hs Hj Hp. rewrite then_jobs_pending, then_jobs_settled.
  unfold then_jobs, run_jobs, on_timeout.
  destruct (pending st !! timer_key t) as [r0|] eqn:E; cbn [fst snd].
  - rewrite settle_pending. cbn [pending set_pending].
    assert (Hp' : forall key, delete (timer_key t) (pending st) !! key <> Some r).
    { intros key [_ Hk]%lookup_delete_Some. exact (Hp key Hk). }
    unfold settle. destruct (decide (timer_request t ∈ settled _)) as [Hin|Hnew];
      cbn [settled jobs set_pending] in *; rewrite Hj.
    + repeat split; auto.
    + assert (Hne : timer_request t <> r) by (intros Heq; rewrite Heq in Hnew; contradiction).
      split; [apply elem_of_union; right; exact Hs|]. split; [exact Hp'|].
      unfold responses_to. simpl.
      destruct (decide (timer_request t = r)); [contradiction|reflexivity].
  - rewrite Hj. auto.
Qed.

Lemma done_with_step r i st :
  done_with r st ->
  done_with r (step i st).2 /\ responses_to r (step i st).1 = [].
Proof.
  intros (Hs & Hj & Hr & Hp). unfold step. destruct (exited st) eqn:Hex.
  { split; [repeat split; assumption|reflexivity]. }
  destruct i as [chunk|chunk|code| |authorization body|ms].
  - unfold on_stdout_data.
    set (st0 := set_readBuffer (readBuffer st ++ chunk) st).
    destruct (tryParseMessages_rest st0) as (_ & _ & Hrq & _).
    destruct (done_tryParseMessages r st0 Hs Hj Hp) as (Hs' & Hj' & Hp').
    split.
    + unfold done_with.
      rewrite then_jobs_settled, then_jobs_jobs, then_jobs_requests, then_jobs_pending, Hrq.
      auto.
    + rewrite responses_to_then_jobs by apply responses_to_tryParseMessages.
      apply responses_to_no_jobs. exact Hj'.
  - split; [repeat split; assumption|reflexivity].
  - split; [repeat split; assumption|reflexivity].
  - split; [repeat split; assumption|reflexivity].
  - pose proof (step_post_rpc_cases authorization body st Hex Hj) as Hcases.
    unfold step in Hcases. rewrite Hex in Hcases.
    destruct Hcases as [(e & -> & Hresp & _)|(payload & key & Hfree & ->)]; cbn [fst snd].
    + split; [|apply Hresp; lia].
      unfold done_with. cbn [settled jobs requests pending next_request].
      split; [exact Hs|]. split; [exact Hj|]. split; [lia|exact Hp].
    + split; [|reflexivity].
      unfold done_with.
      cbn [settled jobs requests pending registered set_timers set_pending next_request].
      split; [exact Hs|]. split; [exact Hj|]. split; [lia|].
      intros key'. destruct (decide (key = key')) as [<-|Hne].
      * rewrite lookup_insert_eq. intros [= Heq]. lia.
      * rewrite lookup_insert_ne by exact Hne. apply Hp.
  - unfold on_elapse. destruct (List.partition _ (timers st)) as [ready later].
    set (st0 := set_timers later (set_clock (clock st + ms) st)).
    destruct (fold_fire_timers ready [] st0) as (_ & _ & Hrq).
    assert (Hfold : (r ∈ settled (fold_left fire ready ([], st0)).2
                     /\ jobs (fold_left fire ready ([], st0)).2 = []
                     /\ (forall key, pending (fold_left fire ready ([], st0)).2 !! key
                                     <> Some r))
                    /\ responses_to r (fold_left fire ready ([], st0)).1 = []).
    { refine (fold_fire_preserves
                (fun _ st' out' =>
                   (r ∈ settled st' /\ jobs st' = []
                    /\ (forall key, pending st' !! key <> Some r))
                   /\ responses_to r out' = [])
                _ ready st0 [] [] _).
      - intros t ts st' out' [(Hs' & Hj' & Hp') Ho'].
        destruct (done_fire r t st' Hs' Hj' Hp') as (Hs2 & Hp2 & Ho2).
        rewrite responses_to_app, Ho', Ho2, then_jobs_jobs. auto.
      - cbn. auto. }
    destruct Hfold as [(Hs' & Hj' & Hp') Ho'].
    split; [|exact Ho'].
    unfold done_with. rewrite Hrq. auto.
Qed.

Lemma done_with_run r inputs st :
  done_with r st ->
  done_with r (run inputs st).2 /\ responses_to r (run inputs st).1 = [].
Proof.
  revert st. induction inputs as [|i inputs IH]; intros st Hd; [auto|].
  rewrite run_cons. cbn [fst snd].
  destruct (done_with_step r i st Hd) as [Hd' Ho].
  destruct (IH _ Hd') as [Hd2 Ho2].
  rewrite responses_to_app, Ho, Ho2. auto.
Qed.

(** The timers that are due fire, the one of the waiting call among
    them: its request is answered 504 and its entry is gone. *)
Lemma waiting_fold_fires tn ready st :
  (forall t, In t ready ->
             t = tn \/ (timer_key t <> timer_key tn /\ timer_request t <> timer_request tn)) ->
  In tn ready ->
  still_waiting (timer_key tn) (timer_request tn) st [] ->
  (forall key, pending st !! key = Some (timer_request tn) -> key = timer_key tn) ->
  timer_request tn ∈ settled (fold_left fire ready ([], st)).2
  /\ jobs (fold_left fire ready ([], st)).2 = []
  /\ (forall key, pending (fold_left fire ready ([], st)).2 !! key <> Some (timer_request tn))
  /\ responses_to (timer_request tn) (fold_left fire ready ([], st)).1
     = [(504, timeout_body)].
Proof.
  intros Hready Hin Hw Huniq.
  pose (others := fun firing : list timer =>
          forall t, In t firing ->
                    t = tn
                    \/ (timer_key t <> timer_key tn /\ timer_request t <> timer_request tn)).
  pose (waits := fun (firing : list timer) (st' : bridge) (out' : list effect) =>
          still_waiting (timer_key tn) (timer_request tn) st' out'
          /\ (forall k, pending st' !! k = Some (timer_request tn) -> k = timer_key tn)
          /\ In tn firing).
  pose (fired := fun (st' : bridge) (out' : list effect) =>
          timer_request tn ∈ settled st' /\ jobs st' = []
          /\ (forall k, pending st' !! k <> Some (timer_request tn))
          /\ responses_to (timer_request tn) out' = [(504, timeout_body)]).
  assert (Hfold : others []
                  /\ (waits [] (fold_left fire ready ([], st)).2
                            (fold_left fire ready ([], st)).1
                      \/ fired (fold_left fire ready ([], st)).2
                               (fold_left fire ready ([], st)).1)).
  { refine (fold_fire_preserves
              (fun firing st' out' =>
                 others firing /\ (waits firing st' out' \/ fired st' out'))
              _ ready st [] [] _);
      [|split; [exact Hready|left; split; [exact Hw|split; [exact Huniq|exact Hin]]]].
    intros t ts st' out' [Hts Hphase].
    split; [intros t' Hin'; apply Hts; right; exact Hin'|].
    destruct Hphase as [(Hw' & Huniq' & Hin')|(Hs' & Hj' & Hp' & Ho')].
    - destruct (Hts t (or_introl eq_refl)) as [->|[Hk Hr]].
      + (* the timer of the call *)
        right. destruct Hw' as (Hl' & Hs' & Hj' & Ho').
        destruct (timeout_of_own_entry st' tn Hj' Hl' Hs') as [Hout Hgone].
        unfold fired. rewrite responses_to_app, Ho', Hout, then_jobs_jobs.
        split; [|split; [reflexivity|split]].
        * rewrite then_jobs_settled. unfold on_timeout. rewrite Hl'.
          cbn [snd]. unfold settle.
          destruct (decide (timer_request tn ∈ settled _)); cbn [settled set_pending] in *;
            [contradiction|].
          apply elem_of_union. left. apply elem_of_singleton. reflexivity.
        * intros k Hk. rewrite then_jobs_pending in Hk.
          pose proof (on_timeout_pending tn st' k (timer_request tn) Hk) as Hbefore.
          apply Huniq' in Hbefore. subst k.
          rewrite then_jobs_pending in Hgone. congruence.
        * unfold responses_to. simpl.
          destruct (decide (timer_request tn = timer_request tn)); [reflexivity|congruence].
      + (* another timer *)
        left. split; [apply still_waiting_fire; assumption|]. split.
        * intros k Hpk. rewrite then_jobs_pending in Hpk.
          apply on_timeout_pending in Hpk. apply Huniq'. exact Hpk.
        * destruct Hin' as [->|Hin']; [congruence|exact Hin'].
    - right. destruct (done_fire (timer_request tn) t st' Hs' Hj' Hp') as (Hs2 & Hp2 & Ho2).
      unfold fired. rewrite responses_to_app, Ho', Ho2, then_jobs_jobs, app_nil_r.
      split; [exact Hs2|]. split; [reflexivity|]. split; [exact Hp2|reflexivity]. }
  destruct Hfold as [_ [(_ & _ & [])|Hdone]]. exact Hdone.
Qed.

(** One event, for a call that waits and that no reply resolves: it
    goes on waiting, unanswered, or its timer is due, and then its
    request is answered 504 and its entry is gone. *)
Lemma waiting_step tn i st :
  waiting_for tn st ->
  (forall msg, ~ In (Resolve (timer_request tn) msg) (step i st).1) ->
  ((clock (step i st).2 < due tn)%N /\ waiting_for tn (step i st).2
   /\ responses_to (timer_request tn) (step i st).1 = [])
  \/ ((due tn <= clock (step i st).2)%N /\ done_with (timer_request tn) (step i st).2
      /\ responses_to (timer_request tn) (step i st).1 = [(504, timeout_body)]).
Proof.
  intros Hw Hno.
  pose proof Hw as (Hl & Huniq & Hs & Hj & Hin & Hothers & Hr & Hclock).
  set (r := timer_request tn) in *. set (key := timer_key tn) in *.
  destruct (exited st) eqn:Hex.
  { left. unfold step. rewrite Hex. auto. }
  destruct i as [chunk|chunk|code| |authorization body|ms].
  - left. unfold step in *. rewrite Hex in *. unfold on_stdout_data in *.
    set (st0 := set_readBuffer (readBuffer st ++ chunk) st) in *.
    destruct (tryParseMessages_rest st0) as (Ht & Hc & Hrq & _).
    destruct (waiting_tryParseMessages key r st0 Hl Hs Hj) as (Hl' & Hs' & Hj').
    { intros msg Hin'. apply (Hno msg). unfold then_jobs, run_jobs. cbn [fst snd].
      apply in_or_app. left. exact Hin'. }
    split; [rewrite then_jobs_clock, Hc; exact Hclock|]. split.
    + unfold waiting_for. fold r key.
      rewrite then_jobs_pending, then_jobs_settled, then_jobs_jobs, then_jobs_timers,
        then_jobs_requests, then_jobs_clock, Ht, Hc, Hrq.
      split; [exact Hl'|]. split; [|auto 10].
      intros k Hk. apply tryParseMessages_pending in Hk. apply Huniq. exact Hk.
    + rewrite responses_to_then_jobs by apply responses_to_tryParseMessages.
      apply responses_to_no_jobs. exact Hj'.
  - left. unfold step. rewrite Hex. auto.
  - left. unfold step. rewrite Hex. split; [exact Hclock|]. split; [exact Hw|reflexivity].
  - left. unfold step. rewrite Hex. auto.
  - left.
    destruct (step_post_rpc_cases authorization body st Hex Hj)
      as [(e & Heq & Hresp & _)|(payload & key' & Hfree & Heq)]; rewrite Heq; cbn [fst snd].
    + split; [exact Hclock|]. split; [|apply Hresp; lia].
      unfold waiting_for. fold r key.
      cbn [pending settled jobs timers requests clock next_request]. auto 10.
    + assert (Hk : key' <> key) by congruence.
      split; [exact Hclock|]. split; [|reflexivity].
      unfold waiting_for. fold r key.
      cbn [pending settled jobs timers requests clock registered set_timers set_pending
             next_request].
      rewrite lookup_insert_ne by exact Hk.
      split; [exact Hl|]. split; [|split; [exact Hs|split; [exact Hj|split; [|split]]]].
      * intros k. destruct (decide (key' = k)) as [<-|Hne].
        -- rewrite lookup_insert_eq. intros [= Heq']. lia.
        -- rewrite lookup_insert_ne by exact Hne. apply Huniq.
      * apply in_app_iff. left. exact Hin.
      * intros t [Hin'|[<-|[]]]%in_app_iff; [apply Hothers; exact Hin'|].
        right. cbn [timer_key timer_request]. split; [exact Hk|lia].
      * split; [lia|exact Hclock].
  - unfold step. rewrite Hex.
    destruct (on_elapse_clock ms st) as [Hc Hrq].
    destruct (N.lt_ge_cases (clock st + ms) (due tn)) as [Hearly|Hdue].
    + left. split; [rewrite Hc; exact Hearly|].
      assert (Hsw : still_waiting key r (on_elapse ms st).2 (on_elapse ms st).1).
      { unfold on_elapse. rewrite List.partition_as_filter.
        apply still_waiting_fold.
        - intros t [Hin' Hready]%List.filter_In. apply N.leb_le in Hready.
          destruct (Hothers t Hin') as [->|Hother]; [lia|exact Hother].
        - repeat split; auto. }
      destruct Hsw as (Hl' & Hs' & Hj' & Ho').
      split; [|exact Ho'].
      unfold waiting_for. fold r key. rewrite Hc, Hrq.
      split; [exact Hl'|]. split; [|split; [exact Hs'|split; [exact Hj'|split; [|split]]]].
      * intros k Hk. apply on_elapse_pending in Hk. apply Huniq. exact Hk.
      * apply on_elapse_timers. auto.
      * intros t [Hin' _]%on_elapse_timers. apply Hothers. exact Hin'.
      * auto.
    + right. split; [rewrite Hc; exact Hdue|].
      assert (Hfires : r ∈ settled (on_elapse ms st).2
                       /\ jobs (on_elapse ms st).2 = []
                       /\ (forall k, pending (on_elapse ms st).2 !! k <> Some r)
                       /\ responses_to r (on_elapse ms st).1 = [(504, timeout_body)]).
      { unfold on_elapse. rewrite List.partition_as_filter.
        apply waiting_fold_fires.
        - intros t [Hin' _]%List.filter_In. apply Hothers. exact Hin'.
        - apply List.filter_In. split; [exact Hin|]. apply N.leb_le. exact Hdue.
        - repeat split; auto.
        - exact Huniq. }
      destruct Hfires as (Hs' & Hj' & Hp' & Ho').
      split; [|exact Ho'].
      unfold done_with. rewrite Hrq. auto.
Qed.

Lemma waiting_run tn inputs st :
  waiting_for tn st ->
  exited (run inputs st).2 = false ->
  (forall msg, ~ In (Resolve (timer_request tn) msg) (run inputs st).1) ->
  ((clock st + elapsed inputs < due tn)%N ->
   waiting_for tn (run inputs st).2
   /\ responses_to (timer_request tn) (run inputs st).1 = [])
  /\ ((due tn <= clock st + elapsed inputs)%N ->
      done_with (timer_request tn) (run inputs st).2
      /\ responses_to (timer_request tn) (run inputs st).1 = [(504, timeout_body)]).
Proof.
  revert st. induction inputs as [|i inputs IH]; intros st Hw Hex Hno.
  - pose proof Hw as (_ & _ & _ & _ & _ & _ & _ & Hclock).
    cbn [elapsed fold_right run fst snd]. split; [auto|]. lia.
  - pose proof (run_step_exited i inputs st Hex) as Hst.
    rewrite run_cons in *. cbn [fst snd] in *.
    rewrite (elapsed_cons i inputs).
    pose proof (step_clock i st Hst) as Hc.
    destruct (waiting_step tn i st Hw) as [(Hclock & Hw' & Ho)|(Hdue & Hd & Ho)].
    { intros msg Hin. apply (Hno msg). apply in_or_app. left. exact Hin. }
    + destruct (IH _ Hw' Hex) as [Hearly Hlate].
      { intros msg Hin. apply (Hno msg). apply in_or_app. right. exact Hin. }
      rewrite responses_to_app, Ho. rewrite Hc in Hearly, Hlate. cbn [app].
      split; intros Ht; [apply Hearly|apply Hlate]; lia.
    + destruct (done_with_run (timer_request tn) inputs _ Hd) as [Hd' Ho'].
      rewrite responses_to_app, Ho, Ho'. rewrite Hc in Hdue.
      split; [intros Ht; lia|auto].
Qed.

(** X15.  The time limit of a call, made when its key is free and no
    timer of an earlier call with the same key is still armed.
    Whatever happens after the call, short of the exit of the child,
    as long as no reply resolves it: while less than 250 s have
    passed in all, the call stays pending and its request unanswered;
    and once 250 s have passed, in one wait or in several, the request
    has been answered 504 with the detail [timeout], once, and its
    entry is gone. *)
Theorem call_times_out_after_250_seconds (inputs more : list input) (payload id : value)
        (key : string) :
  exited (run inputs init).2 = false ->
  well_formed_call payload id -> to_string Number_toString id = Normal key ->
  pending (run inputs init).2 !! key = None ->
  (forall t, In t (timers (run inputs init).2) -> timer_key t <> key) ->
  exited (run more (step (PostRpc (bearer BRIDGE_TOKEN) (Some payload))
                      (run inputs init).2).2).2 = false ->
  (forall msg,
      ~ In (Resolve (requests (run inputs init).2) msg)
           (run more (step (PostRpc (bearer BRIDGE_TOKEN) (Some payload))
                        (run inputs init).2).2).1) ->
  ((elapsed more < TIMEOUT_MS)%N ->
   responses_to (requests (run inputs init).2)
     (run more (step (PostRpc (bearer BRIDGE_TOKEN) (Some payload))
                  (run inputs init).2).2).1 = []
   /\ pending (run more (step (PostRpc (bearer BRIDGE_TOKEN) (Some payload))
                           (run inputs init).2).2).2 !! key
      = Some (requests (run inputs init).2))
  /\ ((TIMEOUT_MS <= elapsed more)%N ->
      responses_to (requests (run inputs init).2)
        (run more (step (PostRpc (bearer BRIDGE_TOKEN) (Some payload))
                     (run inputs init).2).2).1
      = [(504, timeout_body)]
      /\ forall key',
          pending (run more (step (PostRpc (bearer BRIDGE_TOKEN) (Some payload))
                               (run inputs init).2).2).2 !! key'
          <> Some (requests (run inputs init).2)).
Proof.
  intros Hex Hwf Hkey Hfree Hstale.
  destruct (consistent_run BRIDGE_TOKEN inputs init [] (consistent_init) eq_refl) as [Hc Hj].
  cbn [app] in Hc. set (st := (run inputs init).2) in *.
  rewrite (step_post_rpc BRIDGE_TOKEN st payload id key Hex Hj Hwf Hkey), Hfree. cbn [snd].
  set (r := requests st).
  set (st1 := registered key r (next_request st)).
  set (tn := {| due := clock st + TIMEOUT_MS; timer_key := key; timer_request := r |}).
  intros Hex' Hno.
  assert (Hw : waiting_for tn st1).
  { unfold waiting_for.
    cbn [timer_key timer_request due tn st1 pending settled jobs timers requests clock
           registered set_timers set_pending next_request].
    rewrite lookup_insert_eq.
    split; [reflexivity|]. split; [|split; [|split; [exact Hj|split; [|split; [|split]]]]].
    - intros k. destruct (decide (key = k)) as [<-|Hne]; [reflexivity|].
      rewrite lookup_insert_ne by exact Hne. intros Hk.
      assert (r < requests st); [|subst r; lia].
      apply (refs_lt _ _ _ Hc). left. exists k. exact Hk.
    - intros Hin. apply (settled_lt _ _ _ Hc) in Hin. subst r. lia.
    - apply in_app_iff. right. left. reflexivity.
    - intros t [Hin|[<-|[]]]%in_app_iff; [|left; reflexivity].
      right. split; [apply Hstale; exact Hin|].
      assert (timer_request t < requests st); [|subst r; lia].
      apply (refs_lt _ _ _ Hc). right. exists t. auto.
    - subst r. lia.
    - unfold TIMEOUT_MS. lia. }
  destruct (waiting_run tn more st1 Hw Hex' Hno) as [Hearly Hlate].
  change (clock st1) with (clock st) in *. change (due tn) with (clock st + TIMEOUT_MS)%N in *.
  change (timer_request tn) with r in *.
  split; intros Hms.
  - destruct Hearly as [Hw' Ho]; [lia|]. split; [exact Ho|].
    destruct Hw' as (Hl & _). exact Hl.
  - destruct Hlate as [Hd Ho]; [lia|]. split; [exact Ho|].
    destruct Hd as (_ & _ & _ & Hp). exact Hp.
Qed.

End Timers.

(** ** The child's output as a stream *)

Section Chunks.

Context `{Runtime}.
Variable BRIDGE_TOKEN : string.

Local Abbreviation step := (step BRIDGE_TOKEN).
Local Abbreviation run := (run BRIDGE_TOKEN).

Lemma set_jobs_eta st : set_jobs (jobs st) st = st.
Proof. destruct st; reflexivity. Qed.

Lemma settle_set_jobs r o js st :
  settle r o (set_jobs js st)
  = set_jobs (js ++ jobs (settle r o (set_jobs [] st))) (settle r o (set_jobs [] st)).
Proof.
  unfold settle. cbn [settled set_jobs].
  destruct (decide (r ∈ settled st)); cbn [jobs set_jobs].
  - rewrite app_nil_r. reflexivity.
  - reflexivity.
Qed.

(** The [try] statement only adds to the queue of continuations. *)
Lemma try_message_set_jobs jsonBuf js st :
  try_message jsonBuf (set_jobs js st)
  = ((try_message jsonBuf (set_jobs [] st)).1,
     set_jobs (js ++ jobs (try_message jsonBuf (set_jobs [] st)).2)
              (try_message jsonBuf (set_jobs [] st)).2).
Proof.
  assert (Hsame : forall e : effect, ([e], set_jobs js st)
                            = ([e], set_jobs (js ++ jobs (set_jobs [] st)) (set_jobs [] st))).
  { intros e. cbn [jobs set_jobs]. rewrite app_nil_r. reflexivity. }
  unfold try_message, on_message.
  destruct (JSON_parse jsonBuf) as [msg|]; simpl; [|apply Hsame].
  destruct (prop "id" msg) as [[i|]|e]; simpl; try apply Hsame.
  destruct i; try apply Hsame;
    (destruct (to_string _ _) as [key|e']; simpl; [|apply Hsame];
     destruct (pending st !! key) as [r|]; simpl; [|apply Hsame];
     f_equal;
     change (set_pending (delete key (pending st)) (set_jobs js st))
       with (set_jobs js (set_pending (delete key (pending st)) st));
     change (set_pending (delete key (pending st)) (set_jobs [] st))
       with (set_jobs [] (set_pending (delete key (pending st)) st));
     apply settle_set_jobs).
Qed.

Lemma parse_loop_set_jobs fuel js st :
  parse_loop fuel (set_jobs js st)
  = ((parse_loop fuel (set_jobs [] st)).1,
     set_jobs (js ++ jobs (parse_loop fuel (set_jobs [] st)).2)
              (parse_loop fuel (set_jobs [] st)).2).
Proof.
  revert js st. induction fuel as [|fuel IH]; intros js st.
  - cbn [parse_loop fst snd jobs set_jobs]. rewrite app_nil_r. reflexivity.
  - cbn [parse_loop readBuffer set_jobs].
    destruct (indexOf sep (readBuffer st)) as [idx|].
    2:{ cbn [fst snd jobs set_jobs]. rewrite app_nil_r. reflexivity. }
    destruct (content_length _) as [len|].
    + destruct (_ <? _)%N.
      { cbn [fst snd jobs set_jobs]. rewrite app_nil_r. reflexivity. }
      set (jsonBuf := slice _ _ _). set (rest := slice_from _ _).
      change (set_readBuffer rest (set_jobs js st)) with (set_jobs js (set_readBuffer rest st)).
      change (set_readBuffer rest (set_jobs [] st)) with (set_jobs [] (set_readBuffer rest st)).
      rewrite (try_message_set_jobs jsonBuf js (set_readBuffer rest st)).
      destruct (try_message jsonBuf (set_jobs [] (set_readBuffer rest st))) as [out1 st1].
      cbn [fst snd].
      rewrite (IH (js ++ jobs st1) st1).
      pose proof (IH (jobs st1) st1) as IH1. rewrite set_jobs_eta in IH1. rewrite IH1.
      destruct (parse_loop fuel (set_jobs [] st1)) as [out2 st2].
      cbn [fst snd jobs set_jobs]. rewrite app_assoc. reflexivity.
    + apply (IH js (set_readBuffer _ st)).
Qed.

Lemma tryParseMessages_set_jobs js st :
  tryParseMessages (set_jobs js st)
  = ((tryParseMessages (set_jobs [] st)).1,
     set_jobs (js ++ jobs (tryParseMessages (set_jobs [] st)).2)
              (tryParseMessages (set_jobs [] st)).2).
Proof. apply parse_loop_set_jobs. Qed.

(** The loop answers no request itself. *)
(** Two chunks, or both in one. *)
Lemma stdout_two_chunks (st : bridge) (first second : buffer) :
  (run [StdoutData first; StdoutData second] st).2
  = (step (StdoutData (first ++ second)) st).2
  /\ omap delivered (run [StdoutData first; StdoutData second] st).1
     = omap delivered (step (StdoutData (first ++ second)) st).1
  /\ (forall r, responses_to r (run [StdoutData first; StdoutData second] st).1
                = responses_to r (step (StdoutData (first ++ second)) st).1).
Proof.
  cbn [run]. unfold step. destruct (exited st) eqn:Hex.
  { cbn [fst snd]. rewrite Hex. repeat split. }
  unfold on_stdout_data.
  set (r1 := tryParseMessages (set_readBuffer (readBuffer st ++ first) st)).
  assert (Hex1 : exited (then_jobs r1).2 = false).
  { destruct (tryParseMessages_rest (set_readBuffer (readBuffer st ++ first) st))
      as (_ & _ & _ & He & _).
    change (exited (then_jobs r1).2) with (exited r1.2). subst r1. rewrite He. exact Hex. }
  destruct (then_jobs r1) as [out1 st1] eqn:E1. cbn [snd] in Hex1. rewrite Hex1.
  assert (Hst1 : st1 = set_jobs [] r1.2) by (unfold then_jobs, run_jobs in E1; congruence).
  assert (Hout1 : out1 = r1.1 ++ map continuation (jobs r1.2))
    by (unfold then_jobs, run_jobs in E1; congruence).
  set (r2 := tryParseMessages (set_readBuffer (readBuffer st1 ++ second) st1)).
  (* the whole, cut where the first chunk ends *)
  rewrite app_assoc, (tryParseMessages_app st (readBuffer st ++ first) second).
  fold r1.
  assert (Hr2 : tryParseMessages (set_readBuffer (readBuffer r1.2 ++ second) r1.2)
                = (r2.1, set_jobs (jobs r1.2 ++ jobs r2.2) r2.2)).
  { rewrite <- (set_jobs_eta r1.2) at 2.
    change (set_readBuffer (readBuffer r1.2 ++ second) (set_jobs (jobs r1.2) r1.2))
      with (set_jobs (jobs r1.2) (set_readBuffer (readBuffer r1.2 ++ second) r1.2)).
    rewrite tryParseMessages_set_jobs. subst r2. rewrite Hst1. reflexivity. }
  rewrite Hr2. unfold then_jobs, run_jobs. cbn [fst snd jobs set_jobs].
  destruct r2 as [out2 st2] eqn:E2. cbn [fst snd] in *.
  split; [reflexivity|]. subst out1. split.
  - rewrite !omap_app, !delivered_continuation. simpl. rewrite !app_nil_r. reflexivity.
  - intros r. rewrite !responses_to_app, map_app, responses_to_app.
    assert (H1 : responses_to r r1.1 = []) by apply responses_to_tryParseMessages.
    assert (H2 : responses_to r out2 = []).
    { change out2 with (out2, st2).1. rewrite <- E2. apply responses_to_tryParseMessages. }
    rewrite H1, H2. simpl. rewrite !app_nil_r. reflexivity.
Qed.

(** X16.  The places at which the child's output is cut into chunks make
    no difference: after the chunks, the state, the messages handed on,
    in order, and the answers given to every request are those of the
    same bytes arriving as one chunk.  Only the moment at which a
    request is answered depends on the chunks. *)
Theorem stdout_chunks_do_not_matter (st : bridge) (chunk : buffer) (chunks : list buffer) :
  (run (map StdoutData (chunk :: chunks)) st).2
  = (step (StdoutData (List.concat (chunk :: chunks))) st).2
  /\ omap delivered (run (map StdoutData (chunk :: chunks)) st).1
     = omap delivered (step (StdoutData (List.concat (chunk :: chunks))) st).1
  /\ (forall r, responses_to r (run (map StdoutData (chunk :: chunks)) st).1
                = responses_to r (step (StdoutData (List.concat (chunk :: chunks))) st).1).
Proof.
  revert st chunk. induction chunks as [|next chunks IH]; intros st chunk.
  - cbn [map run List.concat]. rewrite !app_nil_r.
    destruct (step (StdoutData chunk) st) as [out1 st1]. cbn [fst snd].
    rewrite app_nil_r. repeat split.
  - destruct (stdout_two_chunks st chunk (List.concat (next :: chunks)))
      as (Hst & Hdel & Hresp).
    change (List.concat (chunk :: next :: chunks))
      with (chunk ++ List.concat (next :: chunks)).
    rewrite <- Hst, <- Hdel. setoid_rewrite <- Hresp.
    change (map StdoutData (chunk :: next :: chunks))
      with (StdoutData chunk :: map StdoutData (next :: chunks)).
    cbn [run].
    destruct (step (StdoutData chunk) st) as [out1 st1].
    destruct (IH st1 next) as (Hst' & Hdel' & Hresp').
    destruct (run (map StdoutData (next :: chunks)) st1) as [out2 st2].
    destruct (step (StdoutData (List.concat (next :: chunks))) st1) as [out3 st3].
    cbn [fst snd] in *. subst st3.
    split; [reflexivity|]. split.
    + rewrite !omap_app, Hdel'. simpl. rewrite app_nil_r. reflexivity.
    + intros r. rewrite !responses_to_app, Hresp'. simpl. rewrite app_nil_r. reflexivity.
Qed.

End Chunks.

(** ** Start-up and the checks of a call *)

Section Checks.

Context `{Runtime}.
Variable BRIDGE_TOKEN : string.

Local Abbreviation step := (step BRIDGE_TOKEN).
Local Abbreviation run := (run BRIDGE_TOKEN).

Lemma missing_false (x : option string) :
  Startup.missing x = false <-> exists s, x = Some s /\ s <> EmptyString.
Proof.
  unfold Startup.missing. destruct x as [s|].
  - split.
    + intros Hs. exists s. split; [reflexivity|]. intros ->. discriminate.
    + intros (s' & [= <-] & Hne). apply String.eqb_neq. exact Hne.
  - split; [discriminate|]. intros (s & Hs & _). discriminate.
Qed.

(** X17.  The script goes on only when [PUBLIC_HOSTNAME] and
    [BRIDGE_TOKEN] are both set and not empty, and otherwise exits with
    status 1, naming the host name first.  So the token of a bridge
    that runs is not empty: [auth] lets no request through without a
    token of at least one character.  The child is given both
    variables, the token too, in its environment. *)
Theorem start_needs_host_and_token (env : Startup.environment) :
  (forall host token,
      Startup.check env = Startup.Started host token <->
      env !! "PUBLIC_HOSTNAME"%string = Some host /\ host <> EmptyString
      /\ env !! "BRIDGE_TOKEN"%string = Some token /\ token <> EmptyString)
  /\ (forall message status, Startup.check env = Startup.Exit message status -> status = 1%Z)
  /\ (Startup.missing (env !! "PUBLIC_HOSTNAME"%string) = true ->
      Startup.check env
      = Startup.Exit "Missing PUBLIC_HOSTNAME env var (ex: my-app.fly.dev)" 1)
  /\ (forall host token authorization,
         Startup.check env = Startup.Started host token ->
         auth token authorization = None ->
         authorization = bearer token /\ token <> EmptyString)
  /\ (forall host token,
         Startup.check env = Startup.Started host token ->
         Startup.child_env env !! "PUBLIC_HOSTNAME"%string = Some host
         /\ Startup.child_env env !! "BRIDGE_TOKEN"%string = Some token).
Proof.
  assert (Hstarted : forall host token,
             Startup.check env = Startup.Started host token <->
             env !! "PUBLIC_HOSTNAME"%string = Some host /\ host <> EmptyString
             /\ env !! "BRIDGE_TOKEN"%string = Some token /\ token <> EmptyString).
  { intros host token. unfold Startup.check.
    destruct (Startup.missing (env !! "PUBLIC_HOSTNAME"%string)) eqn:Eh.
    - split; [discriminate|]. intros (Hh & Hne & _).
      rewrite Hh in Eh. simpl in Eh. apply String.eqb_eq in Eh. contradiction.
    - destruct (Startup.missing (env !! "BRIDGE_TOKEN"%string)) eqn:Et.
      + split; [discriminate|]. intros (_ & _ & Ht & Hne).
        rewrite Ht in Et. simpl in Et. apply String.eqb_eq in Et. contradiction.
      + apply missing_false in Eh. apply missing_false in Et.
        destruct Eh as (h & Hh & Hhne). destruct Et as (t & Ht & Htne).
        rewrite Hh, Ht. simpl. split.
        * intros [= <- <-]. auto.
        * intros ([= ->] & _ & [= ->] & _). reflexivity. }
  split; [exact Hstarted|]. split; [|split; [|split]].
  - intros message status. unfold Startup.check.
    destruct (Startup.missing _); [intros [= _ <-]; reflexivity|].
    destruct (Startup.missing _); [intros [= _ <-]; reflexivity|discriminate].
  - intros Hm. unfold Startup.check. rewrite Hm. reflexivity.
  - intros host token authorization Hs Ha. apply Hstarted in Hs.
    destruct Hs as (_ & _ & _ & Hne). split; [|exact Hne].
    apply auth_none. exact Ha.
  - intros host token Hs. apply Hstarted in Hs. destruct Hs as (Hh & _ & Ht & _).
    unfold Startup.child_env. rewrite !lookup_insert_ne by discriminate. auto.
Qed.

(** The checks of the body: answered 400, or well formed. *)
Lemma rpc_checks (r : nat) (body : option value) (st : bridge) :
  (exists b, rpc r body st = Normal ([Respond r 400 b], st))
  \/ (exists payload id, body = Some payload /\ well_formed_call payload id).
Proof.
  unfold rpc. destruct (not_an_object body) eqn:Eobj; [left; eauto|].
  destruct body as [payload|]; [|left; eauto].
  destruct (prop "jsonrpc" payload) as [jsonrpc|e] eqn:Ej.
  2:{ destruct payload; simpl in *; discriminate. }
  simpl.
  destruct (prop "id" payload) as [id|e] eqn:Ei.
  2:{ destruct payload; simpl in *; discriminate. }
  destruct jsonrpc as [[| | |s| |]|]; try (left; eauto; fail).
  destruct (String.eqb s "2.0") eqn:Es.
  - apply String.eqb_eq in Es. subst s. simpl.
    destruct id as [i|]; [|left; eauto].
    destruct i; try (left; eauto; fail);
      right; eexists _, _; (split; [reflexivity|]);
      repeat split; try eassumption; discriminate.
  - left. apply String.eqb_neq in Es.
    repeat match goal with
           | |- context [match ?x with _ => _ end] =>
               is_var x; destruct x; try (eauto; fail)
           end.
    congruence.
Qed.

(** X18.  The checks of the body do not look at the state, and they
    are complete: the handler answers 400 unless the body is an object
    or array with [jsonrpc] equal to the string [2.0] and an [id]
    other than [null], and never when it is. *)
Theorem bad_request_unless_well_formed (r : nat) (body : option value) (st : bridge) :
  ((exists b, rpc r body st = Normal ([Respond r 400 b], st))
   \/ (exists payload id, body = Some payload /\ well_formed_call payload id))
  /\ (forall payload id b,
         body = Some payload -> well_formed_call payload id ->
         rpc r body st <> Normal ([Respond r 400 b], st)).
Proof.
  split; [apply rpc_checks|].
  intros payload id b -> Hwf. rewrite (rpc_well_formed r payload id st Hwf).
  destruct (to_string Number_toString id) as [key|e]; simpl; [|discriminate].
  destruct (pending st !! key); [intros [= Hs _]; discriminate|].
  unfold writeMessage. discriminate.
Qed.

(** X19.  Replies reach the call they answer.  An entry is only ever
    put in [pending] by a [POST /rpc] with a well-formed body, for the
    request being received and under the key its [id] prints as; and
    the [resolve] of a request is only ever called with a message
    whose [id] prints as the key under which that request is
    pending. *)
Theorem replies_match_their_call :
  (forall (i : input) (st : bridge) (key : string) (r : nat),
      pending st !! key = None -> pending (step i st).2 !! key = Some r ->
      r = requests st
      /\ exists authorization payload id,
          i = PostRpc authorization (Some payload)
          /\ well_formed_call payload id
          /\ to_string Number_toString id = Normal key)
  /\ (forall (st : bridge) (jsonBuf : buffer) (r : nat) (msg : value),
         In (Resolve r msg) (try_message jsonBuf st).1 ->
         exists id key,
           JSON_parse jsonBuf = Some msg
           /\ prop "id" msg = Normal (Some id) /\ id <> Null
           /\ to_string Number_toString id = Normal key
           /\ pending st !! key = Some r).
Proof.
  split.
  - intros i st key r Hfree Hnew. unfold step in Hnew.
    destruct (exited st); [cbn [snd] in Hnew; congruence|].
    destruct i as [chunk|chunk|code| |authorization body|ms]; cbv beta iota in Hnew.
    + unfold on_stdout_data in Hnew. rewrite then_jobs_pending in Hnew.
      apply tryParseMessages_pending in Hnew. cbn [pending set_readBuffer] in Hnew. congruence.
    + cbn [snd on_stderr_data] in Hnew. congruence.
    + cbn [snd on_exit pending set_exited] in Hnew. congruence.
    + cbn [snd] in Hnew. congruence.
    + rewrite then_jobs_pending in Hnew. unfold on_post_rpc in Hnew.
      destruct (auth BRIDGE_TOKEN authorization) as [[status b]|];
        [cbn [snd pending next_request] in Hnew; congruence|].
      destruct (rpc_checks (requests st) body (next_request st))
        as [[b Hbad]|(payload & id & -> & Hwf)].
      { rewrite Hbad in Hnew. cbn [snd pending next_request] in Hnew. congruence. }
      rewrite (rpc_well_formed _ payload id _ Hwf) in Hnew.
      destruct (to_string Number_toString id) as [k|e] eqn:Ek; simpl in Hnew; [|congruence].
      destruct (pending st !! k) eqn:Epk; simpl in Hnew; [congruence|].
      destruct (decide (k = key)) as [->|Hne].
      * rewrite lookup_insert_eq in Hnew. injection Hnew as <-.
        split; [reflexivity|]. eauto 10.
      * rewrite lookup_insert_ne in Hnew by exact Hne. congruence.
    + apply on_elapse_pending in Hnew. congruence.
  - intros st jsonBuf r msg. unfold try_message.
    destruct (JSON_parse jsonBuf) as [msg'|] eqn:Ep.
    2:{ unfold on_message. rewrite Ep. simpl. intros [Hin|[]]. discriminate. }
    destruct (prop "id" msg') as [[i|]|e] eqn:Ei.
    2,3: unfold on_message; rewrite Ep; simpl; rewrite Ei; simpl;
      intros [Hin|[]]; discriminate.
    assert (Hi : i = Null \/ i <> Null)
      by (destruct i; [left; reflexivity|right; discriminate..]).
    destruct Hi as [->|Hnn].
    { unfold on_message. rewrite Ep. simpl. rewrite Ei. simpl.
      intros [Hin|[]]. discriminate. }
    rewrite (on_message_id _ _ _ _ Ep Ei Hnn).
    destruct (to_string Number_toString i) as [key|e'] eqn:Ek; simpl;
      [|intros [Hin|[]]; discriminate].
    destruct (pending st !! key) as [r'|] eqn:Er; simpl;
      [|intros [Hin|[]]; discriminate].
    intros [Hin|[]]. injection Hin as -> ->. exists i, key. auto.
Qed.

End Checks.


(** ** The claims on examples *)

Section Examples.

Import Sample.
#[local] Existing Instance Reference.runtime.

Lemma null_frame_logged_as_parse_error_witness :
  on_stdout_data (encode Null) init = ([LogParseError TypeError], init)
  /\ omap delivered (on_stdout_data (encode Null) init).1 = [].
Proof.
  apply (null_frame_logged_as_parse_error init); reflexivity.
Defined.

Lemma partial_delivery_witness :
  tryParseMessages (set_readBuffer short_buffer init) = ([], set_readBuffer short_buffer init)
  /\ run token (map StdoutData chunks) init = ([], set_readBuffer (List.concat chunks) init)
  /\ step token (StdoutData last_chunk) (set_readBuffer (List.concat chunks) init)
     = on_stdout_data (encode reply7) init
  /\ omap delivered (on_stdout_data (encode reply7) init).1 = [reply7]
  /\ readBuffer (on_stdout_data (encode reply7) init).2 = [].
Proof.
  destruct (partial_delivery token) as [Hwait Hchunks]. split.
  - apply (Hwait (set_readBuffer short_buffer init) 17 5%N); reflexivity.
  - destruct (Hchunks init reply7 chunks last_chunk) as (Hnone & Hlast & Hwhole);
      try reflexivity.
    + discriminate.
    + destruct Hwhole as [Hout Hrest]; [reflexivity..|]. auto.
Defined.

Lemma malformed_header_skipped_witness :
  let st := set_readBuffer (garbage ++ sep ++ encode reply7) init in
  tryParseMessages st
  = tryParseMessages (set_readBuffer (slice_from (12 + length sep) (readBuffer st)) st)
  /\ omap delivered (tryParseMessages st).1 = [reply7]
  /\ length (tryParseMessages st).1 = 1
  /\ readBuffer (tryParseMessages st).2 = [].
Proof.
  intros st. destruct malformed_header_skipped as [Hskip Hframe]. split.
  - apply (Hskip st 12); reflexivity.
  - apply (Hframe st garbage reply7); reflexivity.
Defined.

Lemma bad_json_frame_skipped_witness :
  let st := set_readBuffer (frame bad_json ++ encode reply7) init in
  tryParseMessages st
  = (LogParseError SyntaxError
       :: (tryParseMessages (set_readBuffer (encode reply7) st)).1,
     (tryParseMessages (set_readBuffer (encode reply7) st)).2)
  /\ exists e, (tryParseMessages st).1 = [LogParseError SyntaxError; e]
               /\ delivered e = Some reply7
               /\ readBuffer (tryParseMessages st).2 = [].
Proof.
  intros st. destruct bad_json_frame_skipped as [Hskip Hnext]. split.
  - apply (Hskip st 17 5%N); try reflexivity. discriminate.
  - apply (Hnext st bad_json reply7); reflexivity.
Defined.

Lemma well_formed_call7 : well_formed_call call7 (Str "7").
Proof. repeat split; try reflexivity; discriminate. Defined.

Lemma well_formed_call1 : well_formed_call call1 (Num 1%Z).
Proof. repeat split; try reflexivity; discriminate. Defined.

Lemma one_entry_per_identifier_witness :
  (* a second call with the identifier 7 while the first is pending *)
  step token (PostRpc (bearer token) (Some call7)) waiting7
  = ([Respond 1 409 (error_body "duplicate id in flight")], next_request waiting7)
  /\ pending (step token (PostRpc (bearer token) (Some call7)) waiting7).2 !! "7"%string
     = Some 0
  (* the first call *)
  /\ (step token (PostRpc (bearer token) (Some call7)) init).1 = writeMessage call7
  /\ pending waiting7 !! "7"%string = Some 0
  (* its reply *)
  /\ In (Resolve 0 reply7) (on_stdout_data (encode reply7) waiting7).1
  /\ pending (on_stdout_data (encode reply7) waiting7).2 !! "7"%string = None.
Proof.
  destruct (one_entry_per_identifier token) as (Hkeep & Hpost & Hreply & _).
  destruct (Hpost waiting7 call7 (Str "7") "7"%string eq_refl eq_refl well_formed_call7 eq_refl)
    as [Hdup _].
  destruct (Hpost init call7 (Str "7") "7"%string eq_refl eq_refl well_formed_call7 eq_refl)
    as [_ Hfree].
  specialize (Hdup 0 ltac:(reflexivity)).
  destruct (Hfree ltac:(reflexivity)) as [Hout Hreg].
  destruct (Hreply waiting7 reply7 (Num 7%Z) "7"%string 0) as [Hres Hgone];
    try reflexivity; try discriminate.
  assert (Hsame : pending (step token (PostRpc (bearer token) (Some call7)) waiting7).2
                    !! "7"%string = Some 0).
  { rewrite Hdup. reflexivity. }
  pose proof (Hkeep (PostRpc (bearer token) (Some call7)) waiting7 "7"%string 0 0
                ltac:(reflexivity) Hsame) as _.
  repeat split; assumption.
Defined.

Lemma identifiers_compare_as_strings_witness :
  In (Resolve 0 reply7) (on_stdout_data (encode reply7) waiting7).1
  /\ pending (on_stdout_data (encode reply7) waiting7).2 !! "7"%string = None
  /\ (run token [PostRpc (bearer token) (Some call7); StdoutData (encode reply7)] init).1
     = writeMessage call7 ++ [Resolve 0 reply7; Respond 0 200 reply7]
  /\ (exists res, rpc 0 (Some call7) init = Normal res)
  /\ (exists res, rpc 0 (Some call1) init = Normal res)
  /\ (exists res, on_message (JSON_stringify reply7) waiting7 = Normal res).
Proof.
  destruct (identifiers_compare_as_strings token)
    as (_ & _ & Hreply & Hboth & Hrpc & Htry).
  destruct (Hreply waiting7 reply7 7%Z "7"%string 0) as [Hres Hgone];
    try reflexivity.
  split; [exact Hres|]. split; [exact Hgone|].
  split; [|split; [|split]].
  - apply (Hboth init call7 reply7 7%Z "7"%string); try reflexivity.
    + intros Hin. apply elem_of_empty in Hin. exact Hin.
    + exact well_formed_call7.
  - exact (Hrpc 0 call7 (Str "7") init well_formed_call7 I).
  - exact (Hrpc 0 call1 (Num 1%Z) init well_formed_call1 I).
  - exact (Htry (JSON_stringify reply7) reply7 (Num 7%Z) waiting7 eq_refl eq_refl I).
Defined.

Lemma child_exit_stops_the_bridge_witness :
  step token (ChildExit (Some 0%Z)) waiting7
  = ([LogExit (Some 0%Z); ProcessExit 1], set_exited waiting7)
  /\ pending (step token (ChildExit (Some 0%Z)) waiting7).2 = pending waiting7
  /\ settled (step token (ChildExit (Some 0%Z)) waiting7).2 = settled waiting7
  /\ (forall inputs, run token inputs (step token (ChildExit (Some 0%Z)) waiting7).2
                     = ([], (step token (ChildExit (Some 0%Z)) waiting7).2)).
Proof.
  apply (child_exit_stops_the_bridge token waiting7 (Some 0%Z)). reflexivity.
Defined.

Lemma content_length_decimal_and_unbounded_witness :
  (exists before written spaces zeros rest,
      of_string "X-Id: 7 content-LENGTH:  0042; x" =
      before ++ written ++ spaces ++ repeat "0"%byte zeros ++ decimal 42 ++ rest
      /\ map to_lower written = map to_lower name
      /\ white spaces
      /\ no_digit_ahead rest
      /\ forall k, k < length before ->
                   match_here (drop k (of_string "X-Id: 7 content-LENGTH:  0042; x")) = None)
  /\ content_length (header_text 42) = Some 42%N
  /\ tryParseMessages (set_readBuffer (header_text 18446744073709551616 ++ sep ++ bad_json) init)
     = ([], set_readBuffer (header_text 18446744073709551616 ++ sep ++ bad_json) init).
Proof.
  destruct content_length_decimal_and_unbounded as (Hread & Hprint & Hwait).
  split; [|split].
  - apply (Hread (of_string "X-Id: 7 content-LENGTH:  0042; x") 42%N); [reflexivity|].
    vm_compute. discriminate.
  - apply (Hprint 42%N). vm_compute. discriminate.
  - apply (Hwait _ 18446744073709551616%N bad_json); reflexivity.
Defined.

Lemma each_call_fulfilled_at_most_once_witness :
  responses_to 0 (step token (Elapse 250000)
                    (run token [PostRpc (bearer token) (Some call7);
                                StdoutData (encode reply7)] init).2).1 = []
  /\ on_timeout {| due := 250000; timer_key := "7"; timer_request := 0 |} init = ([], init)
  /\ (exists key, pending waiting7 !! key = Some 0
                  /\ pending (try_message (JSON_stringify reply7) waiting7).2 !! key = None)
  /\ pending (on_timeout {| due := 250000; timer_key := "7"; timer_request := 0 |}
                waiting7).2 !! "7"%string = None.
Proof.
  destruct (each_call_fulfilled_at_most_once token)
    as (_ & Hlater & Hnokey & Hresolve & Hreject).
  split; [|split; [|split]].
  - apply (Hlater [PostRpc (bearer token) (Some call7); StdoutData (encode reply7)]
             (Elapse 250000) 0).
    vm_compute. reflexivity.
  - apply (Hnokey init). reflexivity.
  - apply (Hresolve waiting7 (JSON_stringify reply7) 0 reply7).
    left. reflexivity.
  - apply (Hreject waiting7 {| due := 250000; timer_key := "7"; timer_request := 0 |}
             0 "timeout"%string).
    left. reflexivity.
Defined.

Lemma null_frame_lost_in_chunks_witness :
  let chunks := [take 9 (encode Null); take 12 (drop 9 (encode Null))] in
  let last := drop 21 (encode Null) in
  run token (map StdoutData chunks) init = ([], set_readBuffer (List.concat chunks) init)
  /\ run token (map StdoutData chunks ++ [StdoutData last]) init
     = ([LogParseError TypeError], init)
  /\ omap delivered (run token (map StdoutData chunks ++ [StdoutData last]) init).1 = [].
Proof.
  intros chunks last.
  apply (null_frame_lost_in_chunks token init chunks last); try reflexivity.
  discriminate.
Defined.

Lemma null_frame_lost_after_garbage_witness :
  let st := set_readBuffer (garbage ++ sep ++ encode Null) init in
  tryParseMessages st = ([LogParseError TypeError], set_readBuffer [] st)
  /\ omap delivered (tryParseMessages st).1 = [].
Proof.
  intros st. apply (null_frame_lost_after_garbage st garbage); reflexivity.
Defined.

(** C7, at the input on which it fails.  A call with the identifier 1
    is answered after 10 s, and 20 s after the first call a second
    one is made with the same identifier, to which the child never
    replies.  At 250 s the timer of the first call fires, finds the
    key, which the second call now holds, deletes it and calls the
    [reject] of the first call, which is settled already.  At 270 s
    the timer of the second call finds no key and does nothing: the
    second request is never answered, with no timer left and nothing
    pending.  A reply that reaches the bridge at 260 s, within the
    250 s of the second call, is logged as an extra. *)
Theorem stale_timer_removes_later_call :
  (run token reused_id init).1
  = writeMessage call1 ++ [Resolve 0 reply1; Respond 0 200 reply1]
      ++ writeMessage call1 ++ [Reject 0 "timeout"]
  /\ responses_to 1 (run token reused_id init).1 = []
  /\ pending (run token reused_id init).2 !! "1"%string = None
  /\ timers (run token reused_id init).2 = []
  /\ (run token reused_id_late_reply init).1
     = writeMessage call1 ++ [Resolve 0 reply1; Respond 0 200 reply1]
         ++ writeMessage call1 ++ [Reject 0 "timeout"; LogExtra reply1]
  /\ responses_to 1 (run token reused_id_late_reply init).1 = [].
Proof.
  repeat split; reflexivity.
Qed.

(** Against C8: a call is pending when the child exits.  The bridge
    logs and exits; [reject] is not called, the request gets no
    answer, its entry stays in [pending], and the call that comes
    after the exit gets no answer either. *)
Lemma child_exit_rejects_nothing :
  (run token exit_while_waiting init).1
  = writeMessage call7 ++ [LogExit (Some 0%Z); ProcessExit 1]
  /\ pending (run token exit_while_waiting init).2 !! "7"%string = Some 0
  /\ responses_to 0 (run token exit_while_waiting init).1 = []
  /\ responses_to 1 (run token exit_while_waiting init).1 = [].
Proof.
  repeat split; reflexivity.
Qed.

(** Against C9: there is no length above which a header is treated as
    an error.  Whatever the bound, the header that announces one byte
    more is kept in [readBuffer] and nothing is reported. *)
Lemma no_maximum_message_size :
  ~ exists max : N,
      forall n : N,
        (max < n)%N ->
        (tryParseMessages (set_readBuffer (header_text n ++ sep) init)).1 <> []
        \/ readBuffer (tryParseMessages (set_readBuffer (header_text n ++ sep) init)).2
           <> header_text n ++ sep.
Proof.
  intros [max Hmax].
  assert (Hwait : tryParseMessages (set_readBuffer (header_text (max + 1) ++ sep) init)
                  = ([], set_readBuffer (header_text (max + 1) ++ sep) init)).
  { apply (tryParseMessages_incomplete _ (length (header_text (max + 1))) (max + 1)%N).
    - apply (indexOf_sep_after (header_text (max + 1)) []), header_text_no_CR.
    - cbn [readBuffer set_readBuffer]. unfold slice.
      rewrite drop_0, Nat.sub_0_r, take_app_length.
      apply content_length_header_text.
    - cbn [readBuffer set_readBuffer]. rewrite length_app. change (length sep) with 4. lia. }
  destruct (Hmax (max + 1)%N ltac:(lia)) as [Hout|Hbuf]; rewrite Hwait in *.
  - apply Hout. reflexivity.
  - apply Hbuf. reflexivity.
Qed.

End Examples.

(** ** More examples *)

Section MoreExamples.

Import Sample Scenario.
#[local] Existing Instance Reference.runtime.

(** A search below a bound, by running it. *)
Lemma none_below {A : Type} (f : nat -> option A) (n : nat) :
  forallb (fun k => match f k with None => true | Some _ => false end) (seq 0 n) = true ->
  forall k, k < n -> f k = None.
Proof.
  intros Hall k Hk. rewrite forallb_forall in Hall.
  specialize (Hall k). destruct (f k); [|reflexivity].
  assert (Hin : In k (seq 0 n)) by (apply in_seq; lia).
  specialize (Hall Hin). discriminate.
Qed.

Lemma messages_round_trip_witness :
  omap delivered
    (tryParseMessages (set_readBuffer (List.concat (map encode [reply7; notice; reply1]))
                         waiting7)).1
  = [reply7; notice; reply1]
  /\ dispatchable reply1 = true.
Proof.
  destruct messages_round_trip as [Htrip Hplain]. split.
  - apply (Htrip waiting7 [reply7; notice; reply1]).
    repeat constructor.
  - apply (Hplain reply1). exact I.
Defined.

Lemma tryParseMessages_frame_conditions_witness :
  let st := set_readBuffer (encode reply1 ++ short_buffer) waiting_both in
  (exists consumed, readBuffer st = consumed ++ readBuffer (tryParseMessages st).2)
  /\ pending st !! "7"%string = Some 0.
Proof.
  intros st.
  destruct (tryParseMessages_frame_conditions st) as (Hsuffix & _ & _ & _ & _ & Hkeep & _).
  split; [exact Hsuffix|]. apply (Hkeep "7"%string 0). reflexivity.
Defined.

Lemma content_length_tolerant_witness :
  content_length (of_string "CONTENT-length:" ++ [" "; "009"]%byte ++ repeat "0"%byte 2
                    ++ decimal 42 ++ of_string "; charset=utf-8")
  = Some 42%N.
Proof.
  apply (content_length_tolerant (of_string "CONTENT-length:") [" "; "009"]%byte
           (of_string "; charset=utf-8") 2 42%N).
  - vm_compute. discriminate.
  - reflexivity.
  - repeat constructor.
  - reflexivity.
Defined.

Lemma frame_after_other_headers_witness :
  let st := set_readBuffer (content_type ++ frame bad_json ++ encode reply7) waiting7 in
  tryParseMessages st
  = ((try_message bad_json (set_readBuffer (encode reply7) st)).1
       ++ (tryParseMessages (try_message bad_json (set_readBuffer (encode reply7) st)).2).1,
     (tryParseMessages (try_message bad_json (set_readBuffer (encode reply7) st)).2).2).
Proof.
  intros st. apply (frame_after_other_headers st content_type bad_json (encode reply7)).
  - reflexivity.
  - apply (none_below
             (fun k => match_here (drop k (content_type
                                             ++ header_text (N.of_nat (length bad_json)))))).
    vm_compute. reflexivity.
  - vm_compute. reflexivity.
Defined.

Lemma notification_changes_nothing_witness :
  on_stdout_data (encode notice) waiting7 = ([LogExtra notice], waiting7).
Proof.
  apply (notification_changes_nothing waiting7 notice); try reflexivity.
  left. reflexivity.
Defined.

Lemma reply_resolves_only_its_call_witness :
  (on_stdout_data (encode reply1) waiting_both).1 = [Resolve 1 reply1; Respond 1 200 reply1]
  /\ pending (on_stdout_data (encode reply1) waiting_both).2 !! "7"%string = Some 0.
Proof.
  destruct (reply_resolves_only_its_call waiting_both reply1 (Num 1%Z) "1"%string 1)
    as (Hout & _ & Hothers & _); try reflexivity.
  - discriminate.
  - intros Hin. apply elem_of_empty in Hin. exact Hin.
  - split; [exact Hout|]. rewrite (Hothers "7"%string); [reflexivity|discriminate].
Defined.

Lemma well_formed_call_object : well_formed_call call_object (Obj []).
Proof. repeat split; try reflexivity; discriminate. Defined.

Lemma well_formed_call_other_object :
  well_formed_call call_other_object (Obj [("n"%string, Num 2%Z)]).
Proof. repeat split; try reflexivity; discriminate. Defined.

Lemma well_formed_call_toString :
  well_formed_call call_toString (Obj [("toString"%string, Num 2%Z)]).
Proof. repeat split; try reflexivity; discriminate. Defined.

Lemma object_ids_share_one_key_witness :
  (run token [PostRpc (bearer token) (Some call_object);
              PostRpc (bearer token) (Some call_other_object)] waiting7).1
  = writeMessage call_object ++ [Respond 2 409 (error_body "duplicate id in flight")].
Proof.
  apply (object_ids_share_one_key token waiting7 call_object call_other_object
           [] [("n"%string, Num 2%Z)]); try reflexivity.
  - exact well_formed_call_object.
  - exact well_formed_call_other_object.
Defined.

Lemma id_with_toString_throws_witness :
  step token (PostRpc (bearer token) (Some call_toString)) waiting7
  = ([Unhandled TypeError], next_request waiting7).
Proof.
  apply (id_with_toString_throws token waiting7 call_toString (Num 2%Z)
           [("toString"%string, Num 2%Z)]); try reflexivity.
  exact well_formed_call_toString.
Defined.

Lemma auth_accepts_only_the_token_witness :
  auth token None = Some (401, error_body "missing bearer token")
  /\ auth token (Some "Bearer secret2"%string) = Some (403, error_body "forbidden")
  /\ auth token (Some "Bearer secret"%string) = None.
Proof.
  split; [|split].
  - destruct (auth_accepts_only_the_token token None) as (_ & Hmissing & _).
    apply Hmissing. reflexivity.
  - destruct (auth_accepts_only_the_token token (Some "Bearer secret2"%string))
      as (_ & _ & Hother).
    apply Hother; [reflexivity|discriminate].
  - destruct (auth_accepts_only_the_token token (Some "Bearer secret"%string))
      as (Hiff & _).
    apply Hiff. reflexivity.
Defined.

Lemma post_rpc_outcomes_witness :
  (exists status b,
      immediate_status status
      /\ step token (PostRpc (bearer token) (Some call7)) waiting7
         = ([Respond (requests waiting7) status b], next_request waiting7))
  \/ (exists e, step token (PostRpc (bearer token) (Some call7)) waiting7
                = ([Unhandled e], next_request waiting7))
  \/ (exists payload key,
         bearer token = bearer token /\ Some call7 = Some payload
         /\ pending waiting7 !! key = None
         /\ step token (PostRpc (bearer token) (Some call7)) waiting7
            = (writeMessage payload, registered key (requests waiting7) (next_request waiting7))).
Proof.
  apply (post_rpc_outcomes token waiting7 (bearer token) (Some call7)); reflexivity.
Defined.

(** A search through the effects, by running it. *)
Lemma none_resolves (r : nat) (out : list effect) :
  existsb (resolves r) out = false -> forall msg, ~ In (Resolve r msg) out.
Proof.
  intros Hnone msg Hin.
  assert (Hsome : existsb (resolves r) out = true); [|congruence].
  apply existsb_exists. exists (Resolve r msg). split; [exact Hin|].
  simpl. apply Nat.eqb_refl.
Qed.

Lemma pending_entries_expire_witness :
  pending (run token three_waits (run token two_calls init).2).2 = ∅
  /\ timers (run token three_waits (run token two_calls init).2).2 = [].
Proof.
  destruct (pending_entries_expire token) as [_ Hexpire].
  destruct (Hexpire two_calls three_waits) as (_ & _ & Hnone).
  - reflexivity.
  - vm_compute. discriminate.
  - apply Hnone. reflexivity.
Defined.

Lemma call_times_out_after_250_seconds_witness :
  (responses_to 1
     (run token two_waits
        (step token (PostRpc (bearer token) (Some call1))
           (run token [PostRpc (bearer token) (Some call7); Elapse 1000] init).2).2).1 = []
   /\ pending (run token two_waits
                 (step token (PostRpc (bearer token) (Some call1))
                    (run token [PostRpc (bearer token) (Some call7); Elapse 1000] init).2).2).2
      !! "1"%string = Some 1)
  /\ (responses_to 1
        (run token three_waits
           (step token (PostRpc (bearer token) (Some call1))
              (run token [PostRpc (bearer token) (Some call7); Elapse 1000] init).2).2).1
      = [(504, timeout_body)]
      /\ forall key',
          pending (run token three_waits
                     (step token (PostRpc (bearer token) (Some call1))
                        (run token [PostRpc (bearer token) (Some call7); Elapse 1000]
                           init).2).2).2 !! key'
          <> Some 1).
Proof.
  assert (Hfree : forall t,
             In t (timers (run token [PostRpc (bearer token) (Some call7); Elapse 1000] init).2)
             -> timer_key t <> "1"%string).
  { intros t [<-|[]]. discriminate. }
  split.
  - apply (call_times_out_after_250_seconds token
             [PostRpc (bearer token) (Some call7); Elapse 1000] two_waits call1 (Num 1%Z)
             "1"%string eq_refl well_formed_call1 eq_refl eq_refl Hfree eq_refl).
    + apply none_resolves. reflexivity.
    + vm_compute. reflexivity.
  - apply (call_times_out_after_250_seconds token
             [PostRpc (bearer token) (Some call7); Elapse 1000] three_waits call1 (Num 1%Z)
             "1"%string eq_refl well_formed_call1 eq_refl eq_refl Hfree eq_refl).
    + apply none_resolves. reflexivity.
    + vm_compute. discriminate.
Defined.

Lemma start_needs_host_and_token_witness :
  Startup.check env = Startup.Started "bridge.example" token
  /\ Startup.check (delete "PUBLIC_HOSTNAME"%string env)
     = Startup.Exit "Missing PUBLIC_HOSTNAME env var (ex: my-app.fly.dev)" 1
  /\ Startup.child_env env !! "BRIDGE_TOKEN"%string = Some token.
Proof.
  split; [|split].
  - destruct (start_needs_host_and_token env) as (Hstarted & _).
    apply (Hstarted "bridge.example"%string token).
    repeat split; try reflexivity; discriminate.
  - destruct (start_needs_host_and_token (delete "PUBLIC_HOSTNAME"%string env))
      as (_ & _ & Hhost & _).
    apply Hhost. reflexivity.
  - destruct (start_needs_host_and_token env) as (_ & _ & _ & _ & Hchild).
    apply (Hchild "bridge.example"%string token). reflexivity.
Defined.

Lemma bad_request_unless_well_formed_witness :
  rpc 1 (Some call7) waiting7 <> Normal ([Respond 1 400 (error_body "missing id")], waiting7).
Proof.
  destruct (bad_request_unless_well_formed 1 (Some call7) waiting7) as [_ Hgood].
  apply (Hgood call7 (Str "7") (error_body "missing id") eq_refl well_formed_call7).
Defined.

Lemma replies_match_their_call_witness :
  (0 = requests init
   /\ exists authorization payload id,
       PostRpc (bearer token) (Some call7) = PostRpc authorization (Some payload)
       /\ well_formed_call payload id
       /\ to_string Number_toString id = Normal "7"%string)
  /\ (exists id key,
         JSON_parse (JSON_stringify reply7) = Some reply7
         /\ prop "id" reply7 = Normal (Some id) /\ id <> Null
         /\ to_string Number_toString id = Normal key
         /\ pending waiting7 !! key = Some 0).
Proof.
  destruct (replies_match_their_call token) as [Hput Hresolve]. split.
  - apply (Hput (PostRpc (bearer token) (Some call7)) init "7"%string 0); reflexivity.
  - apply (Hresolve waiting7 (JSON_stringify reply7) 0 reply7). left. reflexivity.
Defined.

End MoreExamples.
